(** * Voice synthesis transport and task queues: a shallow embedding

    This development embeds, function by function, the parts of
    [src/lib/voice/generate-voice-line.ts] (audio container helpers, the
    realtime session, the request/response call) and of the task queue
    module ([getQueueTypeByTaskType], [removeTaskJob]) and states the
    properties the specification gives for them.

    Conventions of the embedding:
    - a Node [Buffer] is a [list byte]; offsets and lengths are in [Z];
    - an unsigned 32-bit field read from a buffer is an [N];
    - a JavaScript exception is the [None] of an [option];
    - a JavaScript number is the rational ([Q]) a double stands for; a
      product or a quotient is the exact result rounded to the nearest
      number with 53 significant bits, halves to the even one
      ([round_double]), and [Math.round x] is [floor (x + 1/2)]. The
      exponent range of a double is not modelled: the numbers rounded here
      lie between 2^-32 and 2^56;
    - strings are sequences of 8-bit code units. *)

From Stdlib Require Import ZArith List Lia QArith Qround Qpower Lqa SpecFloat.
From Stdlib.Strings Require Import Byte Ascii.
From Equations Require Import Equations.
From stdpp Require Import base option gmap strings list.
Import ListNotations.

Open Scope Z_scope.

(* ===================================================================== *)
(** * Buffers *)
(* ===================================================================== *)

Definition Buffer := list byte.

Definition buffer_length (buffer : Buffer) : Z := Z.of_nat (length buffer).

(** [buf[i] = v] on a [Uint8Array] keeps the low eight bits of [v]. *)
Definition byte_of_Z (v : Z) : byte :=
  match Byte.of_N (Z.to_N (v mod 256)) with
  | Some b => b
  | None => x00
  end.

(** [buffer.slice(start, stop)] for [0 <= start]; the slice is cut at the
    end of the buffer. *)
Definition slice (buffer : Buffer) (start stop : Z) : Buffer :=
  take (Z.to_nat (stop - start)) (drop (Z.to_nat start) buffer).

(** [buffer.toString('ascii')]: Node clears the high bit of every byte
    before it turns it into a character. *)
Definition toString_ascii (buffer : Buffer) : string :=
  String.string_of_list_ascii
    (map (fun b => Ascii.ascii_of_N (N.land (Byte.to_N b) 127)) buffer).

(** The bytes [header.write(text, offset, 'ascii')] stores. *)
Definition ascii_bytes (text : string) : Buffer :=
  map (fun c => byte_of_Z (Z.of_N (Ascii.N_of_ascii c))) (String.list_ascii_of_string text).

(** [buffer.readUInt32LE(offset)]: a [RangeError] ([None]) unless the four
    bytes lie inside the buffer. *)
Definition readUInt32LE (buffer : Buffer) (offset : Z) : option N :=
  if decide (0 <= offset) then
    match drop (Z.to_nat offset) buffer with
    | b0 :: b1 :: b2 :: b3 :: _ =>
        Some (Byte.to_N b0 + Byte.to_N b1 * 2 ^ 8
              + Byte.to_N b2 * 2 ^ 16 + Byte.to_N b3 * 2 ^ 24)%N
    | _ => None
    end
  else None.

(** Overwrite [length bytes] bytes of [buffer] from [offset] on; [None]
    when they do not fit. *)
Definition store (buffer : Buffer) (offset : nat) (bytes : Buffer) : option Buffer :=
  if decide (offset + length bytes <= length buffer)%nat then
    Some (take offset buffer ++ bytes ++ drop (offset + length bytes) buffer)
  else None.

Definition uint32le (value : Z) : Buffer :=
  [byte_of_Z value; byte_of_Z (Z.shiftr value 8);
   byte_of_Z (Z.shiftr value 16); byte_of_Z (Z.shiftr value 24)].

Definition uint16le (value : Z) : Buffer :=
  [byte_of_Z value; byte_of_Z (Z.shiftr value 8)].

(** [buffer.writeUInt32LE(value, offset)]: Node raises [ERR_OUT_OF_RANGE]
    when [value] is not in [0, 2^32 - 1]. *)
Definition writeUInt32LE (buffer : Buffer) (value : Z) (offset : nat) : option Buffer :=
  if decide (0 <= value <= 4294967295) then store buffer offset (uint32le value)
  else None.

(** [buffer.writeUInt16LE(value, offset)], with the range [0, 2^16 - 1]. *)
Definition writeUInt16LE (buffer : Buffer) (value : Z) (offset : nat) : option Buffer :=
  if decide (0 <= value <= 65535) then store buffer offset (uint16le value)
  else None.

(** [buffer.write(text, offset, 'ascii')] writes what fits and never raises
    for an offset inside the buffer. *)
Definition write_ascii (buffer : Buffer) (text : string) (offset : nat) : Buffer :=
  let bytes := take (length buffer - offset) (ascii_bytes text) in
  take offset buffer ++ bytes ++ drop (offset + length bytes) buffer.

Definition Buffer_alloc (size : nat) : Buffer := replicate size x00.

(* ===================================================================== *)
(** * Numbers *)
(* ===================================================================== *)

(** [Math.round]: the nearest integer, halves upwards. *)
Definition Math_round (x : Q) : Z := Qfloor (x + (1 # 2))%Q.

(** The nearest integer, halves to the even one. *)
Definition round_half_even (x : Q) : Z :=
  let k := Qfloor x in
  match (x - inject_Z k ?= 1 # 2)%Q with
  | Lt => k
  | Gt => k + 1
  | Eq => if Z.even k then k else k + 1
  end.

(** The exponent of a positive [x]: [2^e <= x < 2^(e+1)]. *)
Definition binade (x : Q) : Z :=
  let e := Z.log2 (Qnum x) - Z.log2 (Zpos (Qden x)) in
  if Qle_bool (2 ^ e) x then e else e - 1.

(** The double nearest to [x]: [x] is scaled to [2^52 <= x * 2^(52-e) <
    2^53], rounded to an integer, halves to the even one, and scaled
    back. *)
Definition round_double (x : Q) : Q :=
  match Qnum x with
  | Z0 => 0
  | Zpos _ =>
      let e := binade x in
      inject_Z (round_half_even (x * 2 ^ (52 - e))) * 2 ^ (e - 52)
  | Zneg _ =>
      let e := binade (- x) in
      - (inject_Z (round_half_even (- x * 2 ^ (52 - e))) * 2 ^ (e - 52))
  end%Q.

(** [x / y] and [x * y] on doubles. *)
Definition double_div (x y : Q) : Q := round_double (x / y).
Definition double_mul (x y : Q) : Q := round_double (x * y).

(** The number a binary64 value of the Standard Library's [SpecFloat]
    stands for. *)
Definition SF2Q (x : spec_float) : Q :=
  match x with
  | S754_finite s m e => (if s then -1 else 1) * inject_Z (Zpos m) * 2 ^ e
  | _ => 0
  end%Q.

(** [(dataSize / byteRate) * 1000] with the binary64 division and
    multiplication of [SpecFloat], to compare [double_div] and
    [double_mul] with. *)
Definition SpecFloat_ratio_ms (dataSize byteRate : positive) : Q :=
  SF2Q (SFmul 53 1024
          (SFdiv 53 1024 (S754_finite false dataSize 0) (S754_finite false byteRate 0))
          (S754_finite false 1000 0)).

(** Data sizes and byte rates to compare on: halves, thirds, the largest
    and the smallest quotient of two 32-bit fields. *)
Definition ratio_samples : list (positive * positive) :=
  [(24024, 48000); (1, 2000); (3, 2000); (8, 48000); (8000, 48000); (96000, 48000);
   (1, 3); (2, 3); (44100, 88200); (123457, 176400);
   (4294967295, 1); (1, 4294967295); (4294967295, 4294967294)]%positive.

(** [Math.round((buffer.length * 8) / 128)] *)
Definition bitrate_estimate (buffer : Buffer) : Z :=
  Math_round (double_div (double_mul (inject_Z (buffer_length buffer)) 8) 128).

(* ===================================================================== *)
(** * The audio container helpers *)
(* ===================================================================== *)

(** The [while] loop of [getWavDurationFromBuffer]: the declared size of
    the first chunk called ['data'], or [0], the initial value of
    [dataSize], when the chunk list ends first. [None] is an exception
    of [readUInt32LE]. *)
Equations? scan_chunks (buffer : Buffer) (offset : Z) : option N
  by wf (Z.to_nat (buffer_length buffer - offset)) lt :=
scan_chunks buffer offset with decide (offset < buffer_length buffer - 8) := {
  | left _ with readUInt32LE buffer (offset + 4) := {
      | Some chunkSize =>
          if decide (toString_ascii (slice buffer offset (offset + 4)) = "data")
          then Some chunkSize
          else scan_chunks buffer (offset + 8 + Z.of_N chunkSize)
      | None => None }
  | right _ => Some 0%N }.
Proof. lia. Qed.

(** The body of the [try] block. *)
Definition getWavDurationFromBuffer_try (buffer : Buffer) : option Z :=
  let riff := toString_ascii (slice buffer 0 4) in
  if decide (riff ≠ "RIFF") then Some (bitrate_estimate buffer)
  else
    byteRate ← readUInt32LE buffer 28;
    dataSize ← scan_chunks buffer 12;
    if decide ((0 < dataSize)%N ∧ (0 < byteRate)%N)
    then Some (Math_round
                 (double_mul (double_div (inject_Z (Z.of_N dataSize))
                                         (inject_Z (Z.of_N byteRate))) 1000))
    else Some (bitrate_estimate buffer).

Definition getWavDurationFromBuffer (buffer : Buffer) : Z :=
  match getWavDurationFromBuffer_try buffer with
  | Some duration => duration
  | None => bitrate_estimate buffer
  end.

Definition isWavBuffer (buffer : Buffer) : bool :=
  if decide (buffer_length buffer < 12) then false
  else bool_decide (toString_ascii (slice buffer 0 4) = "RIFF")
       && bool_decide (toString_ascii (slice buffer 8 12) = "WAVE").

Definition wrapPcm16MonoToWav (pcm : Buffer) (sampleRate : Z) : option Buffer :=
  let channels := 1 in
  let bitsPerSample := 16 in
  let blockAlign := (channels * bitsPerSample) / 8 in
  let byteRate := sampleRate * blockAlign in
  let header := Buffer_alloc 44 in
  let header := write_ascii header "RIFF" 0 in
  header ← writeUInt32LE header (36 + buffer_length pcm) 4;
  let header := write_ascii header "WAVE" 8 in
  let header := write_ascii header "fmt " 12 in
  header ← writeUInt32LE header 16 16;
  header ← writeUInt16LE header 1 20;
  header ← writeUInt16LE header channels 22;
  header ← writeUInt32LE header sampleRate 24;
  header ← writeUInt32LE header byteRate 28;
  header ← writeUInt16LE header blockAlign 32;
  header ← writeUInt16LE header bitsPerSample 34;
  let header := write_ascii header "data" 36 in
  header ← writeUInt32LE header (buffer_length pcm) 40;
  Some (header ++ pcm).

Definition normalizeQwenAudioToWav (rawAudio : Buffer) (sampleRate : Z) : option Buffer :=
  if isWavBuffer rawAudio then Some rawAudio
  else wrapPcm16MonoToWav rawAudio sampleRate.

(** The 44 bytes [wrapPcm16MonoToWav] puts in front of the samples, spelt
    out field by field. *)
Definition wav_header (dataLength sampleRate : Z) : Buffer :=
  ascii_bytes "RIFF" ++ uint32le (36 + dataLength) ++ ascii_bytes "WAVEfmt "
  ++ uint32le 16 ++ uint16le 1 ++ uint16le 1 ++ uint32le sampleRate
  ++ uint32le (sampleRate * 2) ++ uint16le 2 ++ uint16le 16
  ++ ascii_bytes "data" ++ uint32le dataLength.

(* ===================================================================== *)
(** * Strings and parsed JSON values *)
(* ===================================================================== *)

(** White space of [String.prototype.trim] among the 8-bit code units:
    TAB, LF, VT, FF, CR, SP and NBSP. *)
Definition is_white_space (c : ascii) : bool :=
  let n := Ascii.N_of_ascii c in
  ((9 <=? n)%N && (n <=? 13)%N) || (n =? 32)%N || (n =? 160)%N.

Fixpoint trimStart (s : string) : string :=
  match s with
  | EmptyString => EmptyString
  | String c rest => if is_white_space c then trimStart rest else s
  end.

Definition reverse_string (s : string) : string :=
  String.string_of_list_ascii (rev (String.list_ascii_of_string s)).

Definition trim (s : string) : string :=
  reverse_string (trimStart (reverse_string (trimStart s))).

Definition lower_ascii (c : ascii) : ascii :=
  let n := Ascii.N_of_ascii c in
  if ((65 <=? n)%N && (n <=? 90)%N) then Ascii.ascii_of_N (n + 32) else c.

Fixpoint toLowerCase (s : string) : string :=
  match s with
  | EmptyString => EmptyString
  | String c rest => String (lower_ascii c) (toLowerCase rest)
  end.

Fixpoint startsWith (s search : string) : bool :=
  match search, s with
  | EmptyString, _ => true
  | String p search', String c s' => Ascii.eqb p c && startsWith s' search'
  | String _ _, EmptyString => false
  end.

Fixpoint includes (s search : string) : bool :=
  startsWith s search
  || match s with
     | EmptyString => false
     | String _ s' => includes s' search
     end.

#[local] Unset Elimination Schemes.

(** A value of type [unknown]: what [JSON.parse] returns, and [undefined]
    for a property that is not there. An object is the list of its own
    properties. *)
Inductive js_value :=
| JUndefined
| JNull
| JBool (b : bool)
| JNumber (value : Q)
| JString (s : string)
| JArray (items : list js_value)
| JObject (properties : list (string * js_value)).

#[local] Set Elimination Schemes.

Fixpoint lookup_property (properties : list (string * js_value)) (key : string) : js_value :=
  match properties with
  | [] => JUndefined
  | (k, v) :: rest => if decide (k = key) then v else lookup_property rest key
  end.

(** [value.key] on a value [isRecord] has accepted. *)
Definition get (value : js_value) (key : string) : js_value :=
  match value with
  | JObject properties => lookup_property properties key
  | _ => JUndefined
  end.

(** [!!value] *)
Definition truthy (value : js_value) : bool :=
  match value with
  | JUndefined | JNull => false
  | JBool b => b
  | JNumber q => negb (Qeq_bool q 0)
  | JString s => negb (bool_decide (s = EmptyString))
  | JArray _ | JObject _ => true
  end.

(** [typeof value === 'object'] *)
Definition typeof_object (value : js_value) : bool :=
  match value with
  | JNull | JArray _ | JObject _ => true
  | _ => false
  end.

Definition Array_isArray (value : js_value) : bool :=
  match value with
  | JArray _ => true
  | _ => false
  end.

Definition isRecord (value : js_value) : bool :=
  truthy value && typeof_object value && negb (Array_isArray value).

(** [trimmed || null] *)
Definition readOptionalString (value : js_value) : option string :=
  match value with
  | JString s =>
      let trimmed := trim s in
      if decide (trimmed = EmptyString) then None else Some trimmed
  | _ => None
  end.

Definition readQwenAudioUrl (data : js_value) : option string :=
  if negb (isRecord data) then None else
  let output := get data "output" in
  if negb (isRecord output) then None else
  let audio := get output "audio" in
  match (if isRecord audio then readOptionalString (get audio "url") else None) with
  | Some url => Some url
  | None => readOptionalString (get output "audio_url")
  end.

Definition readQwenAudioBase64 (data : js_value) : option string :=
  if negb (isRecord data) then None else
  let output := get data "output" in
  if negb (isRecord output) then None else
  let audio := get output "audio" in
  if negb (isRecord audio) then None else
  readOptionalString (get audio "data").

Definition isQwenRealtimeModel (modelId : string) : bool :=
  includes (toLowerCase modelId) "realtime".

(* ===================================================================== *)
(** * The realtime session and the request/response call *)
(* ===================================================================== *)

Record audio_result := { audioData : Buffer; audioDuration : Z }.

(** One constructor per message prefix of the [Error]s the module raises;
    the arguments are the interpolated values. *)
Inductive tts_error :=
| QWEN_TTS_TIMEOUT (timeoutMs : Z)
| QWEN_TTS_WS_SEND_FAILED (message : string)
| QWEN_TTS_INVALID_EVENT (detail : string)
| QWEN_TTS_FAILED_WS (detail : string)
| QWEN_TTS_FAILED_STATUS (responseStatus : string)
| QWEN_TTS_INVALID_RESPONSE (detail : string)
| QWEN_TTS_WS_ERROR (message : string)
| QWEN_TTS_WS_CLOSED (code : Z) (reasonText : string)
| QWEN_TTS_FAILED_HTTP (status : Z) (detail : string)
| QWEN_TTS_AUDIO_DOWNLOAD_FAILED (status : Z).

Record tts_params := {
  modelId : string;
  voiceId : string;
  text : string;
  qwenApiKey : string
}.

(** What the closure does to the outside, in the order it does it. The
    [event_id] of a sent event is left out: it is random. *)
Inductive effect :=
| ClearTimeout
| WsSend (type : string) (payload : list (string * js_value))
| WsClose (code : Z)
| Resolve (result : audio_result)
| Reject (error : tts_error).

(** The variables the [Promise] executor closes over, and the trace of
    its effects so far. *)
Record session := {
  audioChunks : list Buffer;
  hasResponseDone : bool;
  hasSessionFinished : bool;
  settled : bool;
  effects : list effect
}.

Definition initial_session : session :=
  {| audioChunks := []; hasResponseDone := false; hasSessionFinished := false;
     settled := false; effects := [] |}.

Definition perform (es : list effect) (s : session) : session :=
  {| audioChunks := audioChunks s; hasResponseDone := hasResponseDone s;
     hasSessionFinished := hasSessionFinished s; settled := settled s;
     effects := effects s ++ es |}.

Definition set_settled (s : session) : session :=
  {| audioChunks := audioChunks s; hasResponseDone := hasResponseDone s;
     hasSessionFinished := hasSessionFinished s; settled := true;
     effects := effects s |}.

Definition set_hasResponseDone (s : session) : session :=
  {| audioChunks := audioChunks s; hasResponseDone := true;
     hasSessionFinished := hasSessionFinished s; settled := settled s;
     effects := effects s |}.

Definition set_hasSessionFinished (s : session) : session :=
  {| audioChunks := audioChunks s; hasResponseDone := hasResponseDone s;
     hasSessionFinished := true; settled := settled s;
     effects := effects s |}.

Definition push_chunk (chunk : Buffer) (s : session) : session :=
  {| audioChunks := audioChunks s ++ [chunk]; hasResponseDone := hasResponseDone s;
     hasSessionFinished := hasSessionFinished s; settled := settled s;
     effects := effects s |}.

(** The data of a ['message'] event: a string, binary data ([Buffer],
    [ArrayBuffer] or a view of one), an array whose items are binary
    ([Some]) or not, or anything else. *)
Inductive ws_data :=
| DataString (s : string)
| DataBinary (bytes : Buffer)
| DataArray (items : list (option Buffer))
| DataOther.

(** How the socket answers the four [ws.send] calls of the ['open']
    handler: [Some (i, message)] when the call number [i] raises; the
    [message] is [error.message] when an [Error] was raised. *)
Definition send_failure := option (nat * option string).

Inductive event :=
| EvOpen (failure : send_failure)
| EvMessage (data : ws_data)
| EvError (message : string)
| EvClose (code : Z) (reason : Buffer)
| EvTimeout.

Definition timeoutMs : Z := 45000.

Definition fail (error : tts_error) (s : session) : session :=
  if settled s then s
  else perform [ClearTimeout; WsClose 1011; Reject error] (set_settled s).

(** [finish]. When [normalizeQwenAudioToWav] raises, the exception leaves
    the handler after [settled] is set and the timer is cleared; every
    handler calls [finish] last, so nothing else is skipped. *)
Definition finish (s : session) : session :=
  if settled s then s
  else
    let s := perform [ClearTimeout] (set_settled s) in
    if decide (length (audioChunks s) = 0%nat) then
      perform [Reject (QWEN_TTS_INVALID_RESPONSE "missing response.audio.delta")] s
    else
      let rawAudio := concat (audioChunks s) in
      match normalizeQwenAudioToWav rawAudio 24000 with
      | Some wavAudio =>
          perform [Resolve {| audioData := wavAudio;
                              audioDuration := getWavDurationFromBuffer wavAudio |};
                   WsClose 1000] s
      | None => s
      end.

(** [response.ok], [response.status] and [await response.text()] *)
Record http_response := { ok : bool; status : Z; body : string }.

(** The same for the download of [audio_url], with its bytes. *)
Record audio_download := {
  download_ok : bool;
  download_status : Z;
  download_bytes : Buffer
}.

Inductive outcome :=
| Fulfilled (result : audio_result)
| Rejected (error : tts_error).

Section Transport.

(** The platform functions the handlers call. [Buffer.from(s, 'base64')]
    never raises: Node skips what it cannot decode. *)
Variable utf8_toString : Buffer -> string.
Variable JSON_parse : string -> option js_value.
Variable base64_decode : string -> Buffer.

Variable params : tts_params.

Fixpoint binary_items (items : list (option Buffer)) : option (list Buffer) :=
  match items with
  | [] => Some []
  | Some item :: rest => chunks ← binary_items rest; Some (item :: chunks)
  | None :: _ => None
  end.

Definition decodeWsMessageToText (data : ws_data) : string :=
  match data with
  | DataString s => s
  | DataBinary bytes => utf8_toString bytes
  | DataArray items =>
      match binary_items items with
      | Some chunks => utf8_toString (concat chunks)
      | None => EmptyString
      end
  | DataOther => EmptyString
  end.

Definition session_update : list (string * js_value) :=
  [("session",
    JObject [("voice", JString (voiceId params));
             ("mode", JString "server_commit");
             ("response_format", JString "pcm");
             ("sample_rate", JNumber 24000)])].

Definition outbound : list effect :=
  [WsSend "session.update" session_update;
   WsSend "input_text_buffer.append" [("text", JString (text params))];
   WsSend "input_text_buffer.commit" [];
   WsSend "session.finish" []].

Definition on_open (failure : send_failure) (s : session) : session :=
  match failure with
  | Some (i, message) =>
      if decide (i < length outbound)%nat then
        fail (QWEN_TTS_WS_SEND_FAILED (default "unknown error" message))
             (perform (take i outbound) s)
      else perform outbound s
  | None => perform outbound s
  end.

(** The ['message'] handler from [const eventType] on. *)
Definition on_event (messageData : js_value) (messageText : string) (s : session) : session :=
  match readOptionalString (get messageData "type") with
  | None => fail (QWEN_TTS_INVALID_EVENT "missing type") s
  | Some eventType =>
      if decide (eventType = "error") then
        let errorPayload := get messageData "error" in
        let code := if isRecord errorPayload then readOptionalString (get errorPayload "code") else None in
        let message := if isRecord errorPayload then readOptionalString (get errorPayload "message") else None in
        fail (QWEN_TTS_FAILED_WS
                (match message with
                 | Some m => m
                 | None => default messageText code
                 end)) s
      else if decide (eventType = "response.audio.delta") then
        match readOptionalString (get messageData "delta") with
        | None => fail (QWEN_TTS_INVALID_EVENT "response.audio.delta missing delta") s
        | Some delta => push_chunk (base64_decode delta) s
        end
      else if decide (eventType = "response.done") then
        let s := set_hasResponseDone s in
        let responseData := get messageData "response" in
        let responseStatus :=
          if isRecord responseData then readOptionalString (get responseData "status") else None in
        match responseStatus with
        | Some status =>
            if decide (status ≠ "completed") then fail (QWEN_TTS_FAILED_STATUS status) s
            else if hasSessionFinished s then finish s else s
        | None => if hasSessionFinished s then finish s else s
        end
      else if decide (eventType = "session.finished") then
        let s := set_hasSessionFinished s in
        if hasResponseDone s || bool_decide (0 < length (audioChunks s))%nat
        then finish s else s
      else s
  end.

Definition on_message (data : ws_data) (s : session) : session :=
  let messageText := trim (decodeWsMessageToText data) in
  if decide (messageText = EmptyString) then s
  else
    match JSON_parse messageText with
    | None => fail (QWEN_TTS_INVALID_EVENT messageText) s
    | Some messageData =>
        if negb (isRecord messageData)
        then fail (QWEN_TTS_INVALID_EVENT "event payload is not object") s
        else on_event messageData messageText s
    end.

(** [data] is a frame whose trimmed text is not empty and parses to the
    object [messageData], whose [type] reads [eventType]. *)
Definition carries (data : ws_data) (messageData : js_value) (eventType : string) : Prop :=
  let messageText := trim (decodeWsMessageToText data) in
  messageText <> EmptyString
  /\ JSON_parse messageText = Some messageData
  /\ isRecord messageData = true
  /\ readOptionalString (get messageData "type") = Some eventType.

Definition on_error (message : string) (s : session) : session :=
  fail (QWEN_TTS_WS_ERROR message) s.

Definition on_close (code : Z) (reason : Buffer) (s : session) : session :=
  if settled s then s
  else
    let reasonText := trim (utf8_toString reason) in
    if bool_decide (0 < length (audioChunks s))%nat
       && (hasResponseDone s || hasSessionFinished s)
    then finish s
    else fail (QWEN_TTS_WS_CLOSED code reasonText) s.

Definition on_timeout (s : session) : session :=
  fail (QWEN_TTS_TIMEOUT timeoutMs) s.

Definition step (s : session) (e : event) : session :=
  match e with
  | EvOpen failure => on_open failure s
  | EvMessage data => on_message data s
  | EvError message => on_error message s
  | EvClose code reason => on_close code reason s
  | EvTimeout => on_timeout s
  end.

(** The session after the events of [events], oldest first. *)
Definition run (events : list event) (s : session) : session :=
  fold_left step events s.

(** ** The promise of [generateVoiceWithQwenRealtimeTTS] *)

Definition settlement (e : effect) : option outcome :=
  match e with
  | Resolve result => Some (Fulfilled result)
  | Reject error => Some (Rejected error)
  | _ => None
  end.

(** Every call of [resolve] or [reject], oldest first. *)
Definition settlements (s : session) : list outcome :=
  omap settlement (effects s).

(** A promise keeps the first of them. *)
Definition promise_outcome (s : session) : option outcome :=
  head (settlements s).

Definition generateVoiceWithQwenRealtimeTTS (events : list event) : option outcome :=
  promise_outcome (run events initial_session).

(** ** The request/response call *)

(** [fetch(toFetchableUrl(audioUrl))] *)
Variable fetch_audio : string -> audio_download.

Definition generateVoiceWithQwenTTSHttp (response : http_response) : outcome :=
  let rawResponse := body response in
  let responseData :=
    if decide (rawResponse = EmptyString) then JNull
    else default JNull (JSON_parse rawResponse) in
  if negb (ok response) then
    let detail :=
      if isRecord responseData then
        match readOptionalString (get responseData "message") with
        | Some m => Some m
        | None => readOptionalString (get responseData "code")
        end
      else None in
    Rejected (QWEN_TTS_FAILED_HTTP (status response)
                (match detail with
                 | Some d => d
                 | None => if decide (rawResponse = EmptyString) then "unknown error" else rawResponse
                 end))
  else
    match readQwenAudioBase64 responseData with
    | Some audioBase64 =>
        let audioData := base64_decode audioBase64 in
        Fulfilled {| audioData := audioData;
                     audioDuration := getWavDurationFromBuffer audioData |}
    | None =>
        match readQwenAudioUrl responseData with
        | None => Rejected (QWEN_TTS_INVALID_RESPONSE "missing output audio")
        | Some audioUrl =>
            let audioResponse := fetch_audio audioUrl in
            if negb (download_ok audioResponse)
            then Rejected (QWEN_TTS_AUDIO_DOWNLOAD_FAILED (download_status audioResponse))
            else
              let audioData := download_bytes audioResponse in
              Fulfilled {| audioData := audioData;
                           audioDuration := getWavDurationFromBuffer audioData |}
        end
    end.

(** [generateVoiceWithQwenTTS]: the socket events and the HTTP response
    are what the outside answers; [None] is a promise that stays
    pending. *)
Definition generateVoiceWithQwenTTS (events : list event) (response : http_response)
  : option outcome :=
  if isQwenRealtimeModel (modelId params)
  then generateVoiceWithQwenRealtimeTTS events
  else Some (generateVoiceWithQwenTTSHttp response).

End Transport.

(** The [responseStatus] of the ['response.done'] branch. *)
Definition responseStatus (messageData : js_value) : option string :=
  let responseData := get messageData "response" in
  if isRecord responseData then readOptionalString (get responseData "status") else None.


(** The settlements an unsettled session has made are none, and a session
    makes at most one. *)
Definition at_most_once (s : session) : Prop :=
  (settled s = false -> settlements s = []) /\ (length (settlements s) <= 1)%nat.

(** No call of [resolve] so far. *)
Definition unfulfilled (s : session) : Prop :=
  forall result, Fulfilled result ∉ settlements s.

(* ===================================================================== *)
(** * The task queues *)
(* ===================================================================== *)

Module TaskQueues.

Inductive QueueType := image | video | voice | text.

#[global] Instance QueueType_eq_dec : EqDecision QueueType.
Proof. solve_decision. Defined.

(** The members of [TASK_TYPE] the queue module names. *)
Record TASK_TYPE_table (TaskType : Type) := {
  IMAGE_PANEL : TaskType;
  IMAGE_CHARACTER : TaskType;
  IMAGE_LOCATION : TaskType;
  PANEL_VARIANT : TaskType;
  MODIFY_ASSET_IMAGE : TaskType;
  REGENERATE_GROUP : TaskType;
  ASSET_HUB_IMAGE : TaskType;
  ASSET_HUB_MODIFY : TaskType;
  VIDEO_PANEL : TaskType;
  LIP_SYNC : TaskType;
  VOICE_LINE : TaskType;
  VOICE_DESIGN : TaskType;
  ASSET_HUB_VOICE_DESIGN : TaskType
}.
Arguments IMAGE_PANEL {_}.
Arguments IMAGE_CHARACTER {_}.
Arguments IMAGE_LOCATION {_}.
Arguments PANEL_VARIANT {_}.
Arguments MODIFY_ASSET_IMAGE {_}.
Arguments REGENERATE_GROUP {_}.
Arguments ASSET_HUB_IMAGE {_}.
Arguments ASSET_HUB_MODIFY {_}.
Arguments VIDEO_PANEL {_}.
Arguments LIP_SYNC {_}.
Arguments VOICE_LINE {_}.
Arguments VOICE_DESIGN {_}.
Arguments ASSET_HUB_VOICE_DESIGN {_}.

(** The members in the order the three sets list them. *)
Definition named_task_types {TaskType : Type} (T : TASK_TYPE_table TaskType) : list TaskType :=
  [IMAGE_PANEL T; IMAGE_CHARACTER T; IMAGE_LOCATION T; PANEL_VARIANT T;
   MODIFY_ASSET_IMAGE T; REGENERATE_GROUP T; ASSET_HUB_IMAGE T; ASSET_HUB_MODIFY T;
   VIDEO_PANEL T; LIP_SYNC T;
   VOICE_LINE T; VOICE_DESIGN T; ASSET_HUB_VOICE_DESIGN T].

Section Classification.
(** [TaskType] and [TASK_TYPE] come from [./types]. *)
Context {TaskType : Type} `{Countable TaskType}.
Variable TASK_TYPE : TASK_TYPE_table TaskType.

Definition IMAGE_TYPES : gset TaskType :=
  list_to_set
    [IMAGE_PANEL TASK_TYPE; IMAGE_CHARACTER TASK_TYPE; IMAGE_LOCATION TASK_TYPE;
     PANEL_VARIANT TASK_TYPE; MODIFY_ASSET_IMAGE TASK_TYPE; REGENERATE_GROUP TASK_TYPE;
     ASSET_HUB_IMAGE TASK_TYPE; ASSET_HUB_MODIFY TASK_TYPE].

Definition VIDEO_TYPES : gset TaskType :=
  list_to_set [VIDEO_PANEL TASK_TYPE; LIP_SYNC TASK_TYPE].

Definition VOICE_TYPES : gset TaskType :=
  list_to_set
    [VOICE_LINE TASK_TYPE; VOICE_DESIGN TASK_TYPE; ASSET_HUB_VOICE_DESIGN TASK_TYPE].

Definition getQueueTypeByTaskType (type : TaskType) : QueueType :=
  if decide (type ∈ IMAGE_TYPES) then image
  else if decide (type ∈ VIDEO_TYPES) then video
  else if decide (type ∈ VOICE_TYPES) then voice
  else text.
End Classification.

Section Jobs.
(** The payload of a job; the queue module never looks inside. *)
Variable TaskJobData : Type.

(** The four BullMQ queues: each maps the id of a job to its data. *)
Record queues := {
  imageQueue : gmap string TaskJobData;
  videoQueue : gmap string TaskJobData;
  voiceQueue : gmap string TaskJobData;
  textQueue : gmap string TaskJobData
}.

Definition getQueueByType (type : QueueType) (qs : queues) : gmap string TaskJobData :=
  match type with
  | image => imageQueue qs
  | video => videoQueue qs
  | voice => voiceQueue qs
  | text => textQueue qs
  end.

Definition set_queue (type : QueueType) (q : gmap string TaskJobData) (qs : queues) : queues :=
  match type with
  | image => {| imageQueue := q; videoQueue := videoQueue qs;
                voiceQueue := voiceQueue qs; textQueue := textQueue qs |}
  | video => {| imageQueue := imageQueue qs; videoQueue := q;
                voiceQueue := voiceQueue qs; textQueue := textQueue qs |}
  | voice => {| imageQueue := imageQueue qs; videoQueue := videoQueue qs;
                voiceQueue := q; textQueue := textQueue qs |}
  | text => {| imageQueue := imageQueue qs; videoQueue := videoQueue qs;
               voiceQueue := voiceQueue qs; textQueue := q |}
  end.

Definition ALL_QUEUES : list QueueType := [image; video; voice; text].

(** The calls made on the queues, oldest first. *)
Inductive queue_call :=
| GetJob (queue : QueueType) (taskId : string)
| JobRemove (queue : QueueType) (taskId : string).

Record removal := {
  remaining : queues;
  returned : bool;
  calls : list queue_call
}.

(** The [for] loop of [removeTaskJob] over the queues still to visit. *)
Fixpoint removeTaskJob_from (todo : list QueueType) (taskId : string)
    (qs : queues) (done : list queue_call) : removal :=
  match todo with
  | [] => {| remaining := qs; returned := false; calls := done |}
  | queue :: rest =>
      match getQueueByType queue qs !! taskId with
      | None => removeTaskJob_from rest taskId qs (done ++ [GetJob queue taskId])
      | Some job =>
          {| remaining := set_queue queue (delete taskId (getQueueByType queue qs)) qs;
             returned := true;
             calls := done ++ [GetJob queue taskId; JobRemove queue taskId] |}
      end
  end.

Definition removeTaskJob (taskId : string) (qs : queues) : removal :=
  removeTaskJob_from ALL_QUEUES taskId qs [].
End Jobs.

Arguments imageQueue {_} _.
Arguments videoQueue {_} _.
Arguments voiceQueue {_} _.
Arguments textQueue {_} _.
Arguments getQueueByType {_} _ _.
Arguments set_queue {_} _ _ _.
Arguments remaining {_} _.
Arguments returned {_} _.
Arguments calls {_} _.
Arguments removeTaskJob_from {_} _ _ _ _.
Arguments removeTaskJob {_} _ _.

(** [TASK_TYPE] as a table of strings, to run the examples with. *)
Definition sample_TASK_TYPE : TASK_TYPE_table string :=
  {| IMAGE_PANEL := "image_panel";
     IMAGE_CHARACTER := "image_character";
     IMAGE_LOCATION := "image_location";
     PANEL_VARIANT := "panel_variant";
     MODIFY_ASSET_IMAGE := "modify_asset_image";
     REGENERATE_GROUP := "regenerate_group";
     ASSET_HUB_IMAGE := "asset_hub_image";
     ASSET_HUB_MODIFY := "asset_hub_modify";
     VIDEO_PANEL := "video_panel";
     LIP_SYNC := "lip_sync";
     VOICE_LINE := "voice_line";
     VOICE_DESIGN := "voice_design";
     ASSET_HUB_VOICE_DESIGN := "asset_hub_voice_design" |}.

(** Queues in which the job ["t1"] waits twice, in the video and in the
    voice queue. *)
Definition sample_queues : queues string :=
  {| imageQueue := {["t0" := "image_panel"]};
     videoQueue := {["t1" := "video_panel"]};
     voiceQueue := {["t1" := "voice_line"]};
     textQueue := ∅ |}.

End TaskQueues.

(* ===================================================================== *)
(** * Sample platform functions and frames *)
(* ===================================================================== *)

(** The value of a character of the base64 alphabets (standard and
    URL-safe). *)
Definition base64_sextet (c : ascii) : option N :=
  let n := Ascii.N_of_ascii c in
  if ((65 <=? n) && (n <=? 90))%N then Some (n - 65)%N
  else if ((97 <=? n) && (n <=? 122))%N then Some (n - 71)%N
  else if ((48 <=? n) && (n <=? 57))%N then Some (n + 4)%N
  else if ((n =? 43) || (n =? 45))%N then Some 62%N
  else if ((n =? 47) || (n =? 95))%N then Some 63%N
  else None.

(** The sextets up to the first padding character; characters outside the
    alphabet are skipped. *)
Fixpoint base64_sextets (s : string) : list N :=
  match s with
  | EmptyString => []
  | String c rest =>
      if Ascii.eqb c "=" then []
      else match base64_sextet c with
           | Some v => v :: base64_sextets rest
           | None => base64_sextets rest
           end
  end.

Fixpoint base64_pack (sextets : list N) : Buffer :=
  match sextets with
  | a :: b :: c :: d :: rest =>
      byte_of_Z (Z.of_N (a * 4 + b / 16))
      :: byte_of_Z (Z.of_N (b * 16 + c / 4))
      :: byte_of_Z (Z.of_N (c * 64 + d))
      :: base64_pack rest
  | [a; b; c] =>
      [byte_of_Z (Z.of_N (a * 4 + b / 16)); byte_of_Z (Z.of_N (b * 16 + c / 4))]
  | [a; b] => [byte_of_Z (Z.of_N (a * 4 + b / 16))]
  | _ => []
  end.

(** A decoder to run the examples with. *)
Definition sample_base64_decode (s : string) : Buffer :=
  base64_pack (base64_sextets s).

Fixpoint repeat_string (n : nat) (s : string) : string :=
  match n with
  | O => EmptyString
  | S n' => String.append s (repeat_string n' s)
  end.

(** 2000 zero bytes in base64: 666 groups of three and a last group of
    two. *)
Definition base64_of_2000_zeros : string :=
  String.append (repeat_string 666 "AAAA") "AAA=".

(** The frames of the examples, each under the name the sample parser
    knows it by. *)
Definition sample_frames : list (string * js_value) :=
  [("response.done completed",
    JObject [("type", JString "response.done");
             ("response", JObject [("status", JString "completed")])]);
   ("response.done failed",
    JObject [("type", JString "response.done");
             ("response", JObject [("status", JString "failed")])]);
   ("response.done",
    JObject [("type", JString "response.done")]);
   ("session.finished",
    JObject [("type", JString "session.finished")]);
   ("response.audio.delta",
    JObject [("type", JString "response.audio.delta"); ("delta", JString "UklGRg==")]);
   ("no type",
    JObject [("delta", JString "UklGRg==")]);
   ("array",
    JArray [JString "response.done"]);
   ("inline audio",
    JObject [("output", JObject [("audio", JObject [("data", JString "AAECAwQF")])])]);
   ("inline audio of 2000 bytes",
    JObject [("output", JObject [("audio", JObject [("data", JString base64_of_2000_zeros)])])])].

(** A parser that knows the sample frames and rejects every other text,
    the empty one among them. *)
Definition sample_JSON_parse (messageText : string) : option js_value :=
  match lookup_property sample_frames messageText with
  | JUndefined => None
  | value => Some value
  end.

Definition sample_utf8_toString (bytes : Buffer) : string :=
  String.string_of_list_byte bytes.

Definition sample_params (model : string) : tts_params :=
  {| modelId := model; voiceId := "v1";
     text := "Hello there, this is a test."; qwenApiKey := "key" |}.

Definition sample_fetch_audio (url : string) : audio_download :=
  {| download_ok := false; download_status := 404; download_bytes := [] |}.

Definition sample_step : session -> event -> session :=
  step sample_utf8_toString sample_JSON_parse sample_base64_decode
       (sample_params "voice-tts-realtime-v1").

Definition sample_run : list event -> session -> session :=
  run sample_utf8_toString sample_JSON_parse sample_base64_decode
      (sample_params "voice-tts-realtime-v1").


(* ===================================================================== *)
(** * Voice ids, speakers and line length *)
(* ===================================================================== *)

(** [s.slice(n)] for [0 <= n]. *)
Fixpoint string_slice_from (n : nat) (s : string) : string :=
  match n, s with
  | O, _ => s
  | S n', String _ rest => string_slice_from n' rest
  | S _, EmptyString => EmptyString
  end.

(** A parameter typed [string | null | undefined] read as [unknown]. *)
Definition of_nullable (value : option string) : js_value :=
  match value with
  | Some s => JString s
  | None => JNull
  end.

(** The module [qwen-voice-id]. *)
Module QwenVoiceId.

Inductive QwenVoiceModelFamily := vd | vc.

#[global] Instance QwenVoiceModelFamily_eq_dec : EqDecision QwenVoiceModelFamily.
Proof. solve_decision. Defined.

(** The family as the prefix of a voice id. *)
Definition family_text (family : QwenVoiceModelFamily) : string :=
  match family with
  | vd => "vd"
  | vc => "vc"
  end.

Definition readTrimmedString (value : js_value) : string :=
  match value with
  | JString s => trim s
  | _ => EmptyString
  end.

Definition resolveQwenVoiceModelFamily (modelId : option string)
  : option QwenVoiceModelFamily :=
  let normalized := toLowerCase (readTrimmedString (of_nullable modelId)) in
  if decide (normalized = EmptyString) then None
  else if includes normalized "tts-vd" then Some vd
  else if includes normalized "tts-vc" then Some vc
  else None.

Definition encodeQwenVoiceIdWithModel (voiceId : string) (modelId : option string) : string :=
  let normalizedVoiceId := readTrimmedString (JString voiceId) in
  if decide (normalizedVoiceId = EmptyString) then normalizedVoiceId
  else if startsWith normalizedVoiceId "vd:" || startsWith normalizedVoiceId "vc:"
  then normalizedVoiceId
  else
    match resolveQwenVoiceModelFamily modelId with
    | None => normalizedVoiceId
    | Some family => String.append (family_text family) (String.append ":" normalizedVoiceId)
    end.

Record parsed_voice_id := {
  voiceId : string;
  family : option QwenVoiceModelFamily
}.

Definition parseQwenVoiceId (rawVoiceId : option string) : option parsed_voice_id :=
  let normalized := readTrimmedString (of_nullable rawVoiceId) in
  if decide (normalized = EmptyString) then None
  else if startsWith normalized "vd:" then
    let payload := trim (string_slice_from 3 normalized) in
    if decide (payload = EmptyString) then None
    else Some {| voiceId := payload; family := Some vd |}
  else if startsWith normalized "vc:" then
    let payload := trim (string_slice_from 3 normalized) in
    if decide (payload = EmptyString) then None
    else Some {| voiceId := payload; family := Some vc |}
  else
    let inferredFamily := resolveQwenVoiceModelFamily (Some normalized) in
    Some {| voiceId := normalized; family := inferredFamily |}.

End QwenVoiceId.

(** A row of [projectData.characters] as [matchCharacterBySpeaker] reads
    it. *)
Record character := {
  character_name : string;
  character_voiceId : option string
}.

Definition matchCharacterBySpeaker (speaker : string) (characters : list character)
  : option character :=
  match List.find (fun c => bool_decide (character_name c = speaker)) characters with
  | Some exactMatch => Some exactMatch
  | None =>
      List.find (fun c => includes (character_name c) speaker
                          || includes speaker (character_name c)) characters
  end.

(** [Math.ceil] *)
Definition Math_ceil (x : Q) : Z := Qceiling x.

Definition estimateVoiceLineMaxSeconds (content : option string) : Z :=
  let chars :=
    match content with
    | Some s => Z.of_nat (String.length s)
    | None => 0
    end in
  Z.max 5 (Math_ceil (inject_Z chars / 2)%Q).

(* ===================================================================== *)
(** * Traces of a session *)
(* ===================================================================== *)

(** [s'] comes after [s]: its trace and its chunk list continue those of
    [s]. *)
Definition extends (s s' : session) : Prop :=
  (exists new, effects s' = effects s ++ new)
  /\ (exists added, audioChunks s' = audioChunks s ++ added).

(** The close codes of a trace, oldest first. *)
Definition close_codes (s : session) : list Z :=
  omap (fun e => match e with WsClose code => Some code | _ => None end) (effects s).

(** What a fulfilled promise says about the session that fulfilled it. *)
Definition fulfilled_from (result : audio_result) (s : session) : Prop :=
  isWavBuffer (audioData result) = true
  /\ audioDuration result = getWavDurationFromBuffer (audioData result)
  /\ WsClose 1000 ∈ effects s
  /\ exists chunks later,
       chunks <> []
       /\ audioChunks s = chunks ++ later
       /\ normalizeQwenAudioToWav (concat chunks) 24000 = Some (audioData result).

(** The reason [finish] gives when no audio came. *)
Definition missing_audio : tts_error :=
  QWEN_TTS_INVALID_RESPONSE "missing response.audio.delta".

(** A result that [s'] has resolved is made of the chunks of [s], which
    [s'] still holds as they were. *)
Definition resolves_chunks_of (s s' : session) : Prop :=
  forall result,
    Fulfilled result ∈ settlements s' ->
    audioChunks s' = audioChunks s
    /\ audioChunks s <> []
    /\ normalizeQwenAudioToWav (concat (audioChunks s)) 24000 = Some (audioData result)
    /\ audioDuration result = getWavDurationFromBuffer (audioData result).

(** What holds of every session, whatever the events so far. *)
Definition session_inv (s : session) : Prop :=
  (settled s = false -> settlements s = [] /\ close_codes s = [])
  /\ (length (settlements s) <= 1)%nat
  /\ (length (close_codes s) <= 1)%nat
  /\ (forall result, Fulfilled result ∈ settlements s ->
        fulfilled_from result s /\ close_codes s = [1000])
  /\ (forall error, Rejected error ∈ settlements s ->
        (error = missing_audio /\ close_codes s = []) \/ close_codes s = [1011]).

(** ** More frames for the examples *)

Definition more_frames : list (string * js_value) :=
  [("error with message",
    JObject [("type", JString "error");
             ("error", JObject [("code", JString "InvalidParameter");
                                ("message", JString " voice not found ")])]);
   ("error with code",
    JObject [("type", JString "error");
             ("error", JObject [("code", JString "InvalidParameter")])]);
   ("error without payload",
    JObject [("type", JString "error"); ("error", JString "broken")]);
   ("session.created",
    JObject [("type", JString "session.created")]);
   ("delta without payload",
    JObject [("type", JString "response.audio.delta"); ("delta", JString "  ")])].

(** A parser that knows the frames above too. *)
Definition more_JSON_parse (messageText : string) : option js_value :=
  match lookup_property more_frames messageText with
  | JUndefined => sample_JSON_parse messageText
  | value => Some value
  end.

Definition more_step : session -> event -> session :=
  step sample_utf8_toString more_JSON_parse sample_base64_decode
       (sample_params "voice-tts-realtime-v1").

Definition more_run : list event -> session -> session :=
  run sample_utf8_toString more_JSON_parse sample_base64_decode
      (sample_params "voice-tts-realtime-v1").

(** [generated.audioDuration || null], what [generateVoiceLine] stores and
    returns as the duration. *)
Definition stored_audioDuration (generated : audio_result) : option Z :=
  if decide (audioDuration generated = 0) then None else Some (audioDuration generated).

(* ===================================================================== *)
(** * The audio model of a voice line *)
(* ===================================================================== *)

Module AudioSelection.
Import QwenVoiceId.

(** [ModelSelection] of [@/lib/api-config], as far as this module reads
    it. *)
Record ModelSelection := {
  provider : string;
  modelId : string;
  modelKey : string
}.

(** An entry of [getModelsByType], as far as this module reads it. *)
Record EnabledModel := {
  enabled_modelId : string;
  enabled_modelKey : string
}.

(** [Ok] is a returned value, [Raised] a thrown error. *)
Inductive result (E T : Type) :=
| Ok (value : T)
| Raised (error : E).
Arguments Ok {E T} _.
Arguments Raised {E T} _.

Section Selection.

(** What [@/lib/api-config] throws. *)
Variable ConfigError : Type.

Inductive selection_error :=
| AUDIO_MODEL_UNSUPPORTED (modelId : string)
| AUDIO_MODEL_MISMATCH (family : QwenVoiceModelFamily) (modelId : string)
| MODEL_NOT_CONFIGURED (family : QwenVoiceModelFamily)
| MODEL_SELECTION_REQUIRED (family : QwenVoiceModelFamily)
| CONFIG_ERROR (error : ConfigError).

(** [resolveModelSelectionOrSingle(userId, model, 'audio')] and
    [getModelsByType(userId, 'audio')]. *)
Variable resolveModelSelectionOrSingle :
  string -> option string -> result ConfigError ModelSelection.
Variable getModelsByType : string -> result ConfigError (list EnabledModel).

(** [None]: the function returns. *)
Definition assertVoiceFamilyMatchesSelection
    (selection : ModelSelection) (family : option QwenVoiceModelFamily)
  : option selection_error :=
  match family with
  | None => None
  | Some family =>
      match resolveQwenVoiceModelFamily (Some (modelId selection)) with
      | None => Some (AUDIO_MODEL_UNSUPPORTED (modelId selection))
      | Some selectedFamily =>
          if decide (selectedFamily <> family)
          then Some (AUDIO_MODEL_MISMATCH family (modelId selection))
          else None
      end
  end.

Definition lift (r : result ConfigError ModelSelection)
  : result selection_error ModelSelection :=
  match r with
  | Ok selection => Ok selection
  | Raised error => Raised (CONFIG_ERROR error)
  end.

Definition resolveAudioSelectionForVoice
    (userId : string) (requestedModel : option string)
    (voiceFamily : option QwenVoiceModelFamily)
  : result selection_error ModelSelection :=
  match readOptionalString (of_nullable requestedModel) with
  | Some requestedModel =>
      match resolveModelSelectionOrSingle userId (Some requestedModel) with
      | Raised error => Raised (CONFIG_ERROR error)
      | Ok explicitSelection =>
          match assertVoiceFamilyMatchesSelection explicitSelection voiceFamily with
          | Some error => Raised error
          | None => Ok explicitSelection
          end
      end
  | None =>
      match voiceFamily with
      | None => lift (resolveModelSelectionOrSingle userId None)
      | Some family =>
          match getModelsByType userId with
          | Raised error => Raised (CONFIG_ERROR error)
          | Ok enabledAudioModels =>
              let matchedModels :=
                filter (fun model => resolveQwenVoiceModelFamily (Some (enabled_modelId model))
                                     = Some family)
                       enabledAudioModels in
              match matchedModels with
              | [] => Raised (MODEL_NOT_CONFIGURED family)
              | [model] =>
                  lift (resolveModelSelectionOrSingle userId (Some (enabled_modelKey model)))
              | _ => Raised (MODEL_SELECTION_REQUIRED family)
              end
          end
      end
  end.

End Selection.

Arguments AUDIO_MODEL_UNSUPPORTED {_} _.
Arguments AUDIO_MODEL_MISMATCH {_} _ _.
Arguments MODEL_NOT_CONFIGURED {_} _.
Arguments MODEL_SELECTION_REQUIRED {_} _.
Arguments CONFIG_ERROR {_} _.
Arguments assertVoiceFamilyMatchesSelection {_} _ _.
Arguments lift {_} _.
Arguments resolveAudioSelectionForVoice {_} _ _ _ _ _.

(** A configuration with one model of each family and one of none. *)
Definition sample_models : list ModelSelection :=
  [{| provider := "qwen"; modelId := "qwen3-tts-vd-realtime"; modelKey := "qwen::vd" |};
   {| provider := "qwen"; modelId := "qwen3-tts-vc-realtime"; modelKey := "qwen::vc" |};
   {| provider := "qwen"; modelId := "qwen-tts"; modelKey := "qwen::plain" |}].

Definition sample_resolveModelSelectionOrSingle (userId : string) (model : option string)
  : result unit ModelSelection :=
  match model with
  | None => Raised ()
  | Some key =>
      match List.find (fun m => bool_decide (modelKey m = key)) sample_models with
      | Some selection => Ok selection
      | None => Raised ()
      end
  end.

Definition sample_getModelsByType (userId : string) : result unit (list EnabledModel) :=
  Ok (map (fun m => {| enabled_modelId := modelId m; enabled_modelKey := modelKey m |})
          sample_models).

End AudioSelection.

(* ===================================================================== *)
(** * Adding jobs, and the workers of the queues *)
(* ===================================================================== *)

(** [target[key] = value] on the own properties of an object: a property
    that is there keeps its place. *)
Fixpoint set_property (key : string) (value : js_value)
    (properties : list (string * js_value)) : list (string * js_value) :=
  match properties with
  | [] => [(key, value)]
  | (k, v) :: rest =>
      if decide (k = key) then (k, value) :: rest
      else (k, v) :: set_property key value rest
  end.

(** [{ ...target, ...source }] *)
Definition spread (target source : list (string * js_value)) : list (string * js_value) :=
  fold_left (fun properties '(key, value) => set_property key value properties)
            source target.

Module TaskJobs.
Import TaskQueues.

(** [JobsOptions] of BullMQ: the own properties of the object. *)
Definition JobsOptions : Type := list (string * js_value).

(** The third argument of [queue.add] in [addTaskJob]. *)
Definition job_options (taskId : string) (opts : option JobsOptions) : JobsOptions :=
  let priority :=
    match get (JObject (default [] opts)) "priority" with
    | JNumber p => p
    | _ => 0%Q
    end in
  spread [("jobId", JString taskId); ("priority", JNumber priority)] (default [] opts).

Inductive voice_handler := HandleVoiceLineTask | HandleVoiceDesignTask.

Inductive image_handler :=
| HandleCharacterImageTask
| HandleLocationImageTask
| HandleModifyAssetImageTask
| HandleAssetHubImageTask
| HandleAssetHubModifyTask
| HandlePanelImageTask
| HandlePanelVariantTask.

Section Jobs.
Context {TaskType : Type} `{Countable TaskType}.
Variable TASK_TYPE : TASK_TYPE_table TaskType.

(** [TaskJobData] of [./types] with the two fields the queue module
    reads. *)
Variable TaskJobData : Type.
Variable type : TaskJobData -> TaskType.
Variable taskId : TaskJobData -> string.

(** [queue.add(name, data, opts)] of BullMQ, on the jobs of one queue. *)
Variable Queue_add :
  TaskType -> TaskJobData -> JobsOptions -> gmap string TaskJobData -> gmap string TaskJobData.

Definition addTaskJob (data : TaskJobData) (opts : option JobsOptions)
    (qs : queues TaskJobData) : queues TaskJobData :=
  let queueType := getQueueTypeByTaskType TASK_TYPE (type data) in
  let queue := getQueueByType queueType qs in
  set_queue queueType
    (Queue_add (type data) data (job_options (taskId data) opts) queue) qs.

(** The [switch] of [processVoiceTask]; [None] is the [default] case,
    which throws. *)
Definition processVoiceTask (type : TaskType) : option voice_handler :=
  if decide (type = VOICE_LINE TASK_TYPE) then Some HandleVoiceLineTask
  else if decide (type = VOICE_DESIGN TASK_TYPE) then Some HandleVoiceDesignTask
  else if decide (type = ASSET_HUB_VOICE_DESIGN TASK_TYPE) then Some HandleVoiceDesignTask
  else None.

(** The [switch] of [processImageTask]. *)
Definition processImageTask (type : TaskType) (payload : js_value) : option image_handler :=
  if decide (type = IMAGE_CHARACTER TASK_TYPE) then Some HandleCharacterImageTask
  else if decide (type = IMAGE_LOCATION TASK_TYPE) then Some HandleLocationImageTask
  else if decide (type = REGENERATE_GROUP TASK_TYPE) then
    let payload := if truthy payload then payload else JObject [] in
    match get payload "type" with
    | JString kind =>
        if decide (kind = "character") then Some HandleCharacterImageTask
        else Some HandleLocationImageTask
    | _ => Some HandleLocationImageTask
    end
  else if decide (type = MODIFY_ASSET_IMAGE TASK_TYPE) then Some HandleModifyAssetImageTask
  else if decide (type = ASSET_HUB_IMAGE TASK_TYPE) then Some HandleAssetHubImageTask
  else if decide (type = ASSET_HUB_MODIFY TASK_TYPE) then Some HandleAssetHubModifyTask
  else if decide (type = IMAGE_PANEL TASK_TYPE) then Some HandlePanelImageTask
  else if decide (type = PANEL_VARIANT TASK_TYPE) then Some HandlePanelVariantTask
  else None.

End Jobs.

Arguments addTaskJob {_ _ _} _ {_} _ _ _ _ _ _.

(** A queue that keeps a job under the [jobId] of its options, and keeps
    the job it has when the id is taken. *)
Definition sample_Queue_add (name : string) (data : string * string)
    (options : JobsOptions) (queue : gmap string (string * string))
  : gmap string (string * string) :=
  match lookup_property options "jobId" with
  | JString id =>
      match queue !! id with
      | Some _ => queue
      | None => <[id := data]> queue
      end
  | _ => queue
  end.

(** Jobs as pairs of a kind and a task id; one image job waits. *)
Definition sample_job_queues : queues (string * string) :=
  {| imageQueue := {["t0" := ("image_panel", "t0")]};
     videoQueue := ∅;
     voiceQueue := ∅;
     textQueue := ∅ |}.

Definition sample_addTaskJob :
  string * string -> option JobsOptions -> queues (string * string) -> queues (string * string) :=
  addTaskJob sample_TASK_TYPE fst snd sample_Queue_add.

End TaskJobs.

(* ===================================================================== *)
(** * The handlers of the voice worker *)
(* ===================================================================== *)

Module VoiceWorker.
Import AudioSelection.

(** [job.data.payload || {}] *)
Definition payload_or_empty (payload : js_value) : js_value :=
  if truthy payload then payload else JObject [].

(** ** [handleVoiceLineTask] *)

Inductive voice_line_error :=
| VOICE_LINE_MISSING_LINE_ID
| VOICE_LINE_MISSING_EPISODE_ID.

(** The arguments of [generateVoiceLine] that come from the payload. *)
Record voice_line_request := {
  request_episodeId : js_value;
  request_lineId : js_value;
  request_audioModel : option string
}.

(** [handleVoiceLineTask] up to the call of [generateVoiceLine]:
    [targetId] and [episodeId] are [job.data.targetId] and
    [job.data.episodeId]. *)
Definition handleVoiceLineTask (payload targetId episodeId : js_value)
  : result voice_line_error voice_line_request :=
  let payload := payload_or_empty payload in
  let lineId :=
    match get payload "lineId" with
    | JString s => JString s
    | _ => targetId
    end in
  let episodeId :=
    match get payload "episodeId" with
    | JString s => JString s
    | _ => episodeId
    end in
  let audioModel :=
    match get payload "audioModel" with
    | JString s => if decide (trim s = EmptyString) then None else Some (trim s)
    | _ => None
    end in
  if negb (truthy lineId) then Raised VOICE_LINE_MISSING_LINE_ID
  else if negb (truthy episodeId) then Raised VOICE_LINE_MISSING_EPISODE_ID
  else Ok {| request_episodeId := episodeId;
             request_lineId := lineId;
             request_audioModel := audioModel |}.

(** ** [validateVoicePrompt] and [validatePreviewText] *)

(** One constructor per message of the two validators. *)
Inductive validation_error :=
| VOICE_PROMPT_EMPTY
| VOICE_PROMPT_TOO_LONG
| PREVIEW_TEXT_EMPTY
| PREVIEW_TEXT_TOO_SHORT
| PREVIEW_TEXT_TOO_LONG.

Record validation := { valid : bool; error : option validation_error }.

Definition validateVoicePrompt (voicePrompt : string) : validation :=
  if bool_decide (voicePrompt = EmptyString)
     || bool_decide (String.length (trim voicePrompt) = 0%nat)
  then {| valid := false; error := Some VOICE_PROMPT_EMPTY |}
  else if decide (500 < String.length voicePrompt)%nat
  then {| valid := false; error := Some VOICE_PROMPT_TOO_LONG |}
  else {| valid := true; error := None |}.

Definition validatePreviewText (previewText : string) : validation :=
  if bool_decide (previewText = EmptyString)
     || bool_decide (String.length (trim previewText) = 0%nat)
  then {| valid := false; error := Some PREVIEW_TEXT_EMPTY |}
  else if decide (String.length previewText < 5)%nat
  then {| valid := false; error := Some PREVIEW_TEXT_TOO_SHORT |}
  else if decide (200 < String.length previewText)%nat
  then {| valid := false; error := Some PREVIEW_TEXT_TOO_LONG |}
  else {| valid := true; error := None |}.

(** ** [handleVoiceDesignTask] *)

Inductive voice_design_error :=
| FIELD_REQUIRED (field : string)
| VALIDATION (error : validation_error)
| INVALID_VOICE_PROMPT
| INVALID_PREVIEW_TEXT.

Definition readRequiredString (value : js_value) (field : string)
  : result voice_design_error string :=
  match value with
  | JString s =>
      if decide (trim s = EmptyString) then Raised (FIELD_REQUIRED field) else Ok (trim s)
  | _ => Raised (FIELD_REQUIRED field)
  end.

Inductive language := zh | en.

Definition readLanguage (value : js_value) : language :=
  match value with
  | JString s => if decide (s = "en") then en else zh
  | _ => zh
  end.

Definition readOptionalModelKey (value : js_value) : option string :=
  match value with
  | JString s =>
      let trimmed := trim s in
      if decide (trimmed = EmptyString) then None else Some trimmed
  | _ => None
  end.

Record VoiceDesignInput := {
  voicePrompt : string;
  previewText : string;
  audioModel : option string;
  preferredName : string;
  input_language : language
}.

(** [handleVoiceDesignTask] up to the first [reportTaskProgress]: what it
    reads from the payload, or the error it throws. *)
Definition handleVoiceDesignTask_input (payload : js_value)
  : result voice_design_error VoiceDesignInput :=
  let payload := payload_or_empty payload in
  match readRequiredString (get payload "voicePrompt") "voicePrompt" with
  | Raised error => Raised error
  | Ok voicePrompt =>
      match readRequiredString (get payload "previewText") "previewText" with
      | Raised error => Raised error
      | Ok previewText =>
          let audioModel := readOptionalModelKey (get payload "audioModel") in
          let preferredName :=
            match get payload "preferredName" with
            | JString s => if decide (trim s = EmptyString) then "custom_voice" else trim s
            | _ => "custom_voice"
            end in
          let language := readLanguage (get payload "language") in
          let promptValidation := validateVoicePrompt voicePrompt in
          if negb (valid promptValidation) then
            Raised (match error promptValidation with
                    | Some error => VALIDATION error
                    | None => INVALID_VOICE_PROMPT
                    end)
          else
            let textValidation := validatePreviewText previewText in
            if negb (valid textValidation) then
              Raised (match error textValidation with
                      | Some error => VALIDATION error
                      | None => INVALID_PREVIEW_TEXT
                      end)
            else Ok {| voicePrompt := voicePrompt;
                       previewText := previewText;
                       audioModel := audioModel;
                       preferredName := preferredName;
                       input_language := language |}
      end
  end.

(** The end of [handleVoiceDesignTask]: the [targetModel] and the
    [voiceId] it returns for what [createVoiceDesign] reported
    ([designed.targetModel], [designed.voiceId]) and the selected model. *)
Definition resolvedTargetModel (designed_targetModel : js_value) (selection : ModelSelection)
  : string :=
  match designed_targetModel with
  | JString s => if decide (trim s = EmptyString) then modelId selection else trim s
  | _ => modelId selection
  end.

Definition normalizedVoiceId (designed_voiceId designed_targetModel : js_value)
    (selection : ModelSelection) : js_value :=
  match designed_voiceId with
  | JString s =>
      if decide (trim s = EmptyString) then designed_voiceId
      else JString (QwenVoiceId.encodeQwenVoiceIdWithModel s
                      (Some (resolvedTargetModel designed_targetModel selection)))
  | _ => designed_voiceId
  end.

End VoiceWorker.

(* ===================================================================== *)
(** * Properties of the numbers *)
(* ===================================================================== *)

Lemma Qfloor_bounds (x : Q) : (inject_Z (Qfloor x) <= x < inject_Z (Qfloor x) + 1)%Q.
Proof.
  split; [apply Qfloor_le|].
  pose proof (Qlt_floor x) as Hlt. rewrite inject_Z_plus in Hlt. exact Hlt.
Qed.

Lemma Qfloor_unique (x : Q) (k : Z) :
  (inject_Z k <= x)%Q -> (x < inject_Z k + 1)%Q -> Qfloor x = k.
Proof.
  intros Hle Hlt. destruct (Qfloor_bounds x) as [Hfloor Hnext].
  assert (H1 : (inject_Z k < inject_Z (Qfloor x + 1))%Q)
    by (rewrite inject_Z_plus; change (inject_Z 1) with 1%Q; lra).
  assert (H2 : (inject_Z (Qfloor x) < inject_Z (k + 1))%Q)
    by (rewrite inject_Z_plus; change (inject_Z 1) with 1%Q; lra).
  rewrite <- Zlt_Qlt in H1, H2. lia.
Qed.

Lemma round_half_even_near (x : Q) :
  (x - (1 # 2) <= inject_Z (round_half_even x) <= x + (1 # 2))%Q.
Proof.
  unfold round_half_even. cbv zeta.
  destruct (Qfloor_bounds x) as [Hfloor Hnext].
  destruct (Qcompare_spec (x - inject_Z (Qfloor x)) (1 # 2)) as [Heq|Hlt|Hgt].
  - destruct (Z.even (Qfloor x)).
    + lra.
    + rewrite inject_Z_plus. change (inject_Z 1) with 1%Q. lra.
  - lra.
  - rewrite inject_Z_plus. change (inject_Z 1) with 1%Q. lra.
Qed.

Lemma Qpower_2_pos (z : Z) : (0 < 2 ^ z)%Q.
Proof. by apply Qpower_0_lt. Qed.

Lemma Qpower_2_plus (a b : Z) : (2 ^ (a + b) == 2 ^ a * 2 ^ b)%Q.
Proof. by apply Qpower_plus. Qed.

Lemma Qpower_2_Z (z : Z) : 0 <= z -> (2 ^ z == inject_Z (2 ^ z))%Q.
Proof. intros Hz. by rewrite Zpower_Qpower. Qed.

Lemma binade_lower (x : Q) : (0 < x)%Q -> (2 ^ binade x <= x)%Q.
Proof.
  intros Hx. unfold binade. cbv zeta.
  destruct (Qle_bool _ x) eqn:Htest; [by apply Qle_bool_iff|]. clear Htest.
  destruct x as [n d]. cbn [Qnum Qden].
  assert (Hn : 0 < n) by (unfold Qlt in Hx; cbn in Hx; lia).
  pose proof (Z.log2_spec n Hn) as [Hlow _].
  pose proof (Z.log2_spec (Z.pos d) ltac:(lia)) as [_ Hhigh].
  pose proof (Z.log2_nonneg n) as Ha. pose proof (Z.log2_nonneg (Z.pos d)) as Hc.
  set (a := Z.log2 n) in *. set (c := Z.log2 (Z.pos d)) in *.
  replace (a - c - 1) with (a - Z.succ c) by lia.
  rewrite Qpower_minus by done.
  rewrite (Qpower_2_Z a), (Qpower_2_Z (Z.succ c)) by lia.
  rewrite (Qmake_Qdiv n d).
  assert (HA : (0 < inject_Z (2 ^ a))%Q)
    by (rewrite <- (Qpower_2_Z a) by lia; apply Qpower_2_pos).
  assert (HC : (inject_Z (Z.pos d) < inject_Z (2 ^ Z.succ c))%Q) by (by rewrite <- Zlt_Qlt).
  assert (HD : (0 < inject_Z (Z.pos d))%Q) by (by rewrite <- (Zlt_Qlt 0)).
  assert (HN : (inject_Z (2 ^ a) <= inject_Z n)%Q) by (by rewrite <- Zle_Qle).
  apply Qle_shift_div_r; [lra|].
  unfold Qdiv. rewrite <- Qmult_assoc, (Qmult_comm (/ _)), Qmult_assoc.
  apply Qle_shift_div_l; [lra|]. nra.
Qed.

Lemma round_double_positive (x : Q) :
  (0 < x)%Q ->
  round_double x
  = (inject_Z (round_half_even (x * 2 ^ (52 - binade x))) * 2 ^ (binade x - 52))%Q.
Proof.
  intros Hx. unfold round_double. destruct x as [[|n|n] d]; try done.
Qed.

(** A double is within half a unit in the last place of the number it
    stands for: the relative error is at most [2^-53]. *)
Lemma round_double_error (x : Q) :
  (0 < x)%Q ->
  (x - x * (1 # 9007199254740992) <= round_double x <= x + x * (1 # 9007199254740992))%Q.
Proof.
  intros Hx. rewrite (round_double_positive x Hx).
  pose proof (binade_lower x Hx) as Hlow.
  set (e := binade x) in *.
  pose proof (Qpower_2_pos e) as HE.
  pose proof (Qpower_2_pos (52 - e)) as HP.
  pose proof (Qpower_2_pos (e - 52)) as HP'.
  assert (HPP' : (2 ^ (52 - e) * 2 ^ (e - 52) == 1)%Q).
  { rewrite <- Qpower_2_plus. by replace (52 - e + (e - 52)) with 0 by lia. }
  assert (HPE : (2 ^ (e - 52) * 4503599627370496 == 2 ^ e)%Q).
  { change 4503599627370496%Q with (2 ^ 52)%Q. rewrite <- Qpower_2_plus.
    by replace (e - 52 + 52) with e by lia. }
  pose proof (round_half_even_near (x * 2 ^ (52 - e))) as [Hm_low Hm_high].
  set (m := inject_Z (round_half_even (x * 2 ^ (52 - e)))) in *.
  set (P := (2 ^ (52 - e))%Q) in *. set (P' := (2 ^ (e - 52))%Q) in *.
  set (E := (2 ^ e)%Q) in *.
  assert (Hlow' : (m * P' >= x - P' * (1 # 2))%Q).
  { assert ((x * P - (1 # 2)) * P' <= m * P')%Q by (apply Qmult_le_compat_r; lra).
    assert ((x * P - (1 # 2)) * P' == x * (P * P') - P' * (1 # 2))%Q by ring.
    rewrite HPP' in *. lra. }
  assert (Hhigh' : (m * P' <= x + P' * (1 # 2))%Q).
  { assert (m * P' <= (x * P + (1 # 2)) * P')%Q by (apply Qmult_le_compat_r; lra).
    assert ((x * P + (1 # 2)) * P' == x * (P * P') + P' * (1 # 2))%Q by ring.
    rewrite HPP' in *. lra. }
  lra.
Qed.

Lemma round_double_nonneg (x : Q) : (0 <= x)%Q -> (0 <= round_double x)%Q.
Proof.
  intros Hx. destruct (Qlt_le_dec 0 x) as [Hpos|Hzero].
  - pose proof (round_double_error x Hpos). lra.
  - assert (Hx0 : Qnum x = 0).
    { destruct x as [n d]. unfold Qle in *. cbn in *. lia. }
    unfold round_double. by rewrite Hx0.
Qed.








Lemma inject_Z_pred (k : Z) : (inject_Z (k - 1) == inject_Z k - 1)%Q.
Proof.
  unfold Z.sub. rewrite inject_Z_plus, inject_Z_opp. change (inject_Z 1) with 1%Q. lra.
Qed.

(** [Math.round((a / b) * 1000)] in doubles, against the whole numbers:
    it is the nearest integer to [1000 * a / b], except that a value
    halfway between two integers goes to either. *)
Lemma double_ratio_ms (a b : Z) :
  0 < a < 4294967296 -> 0 < b ->
  let r := Math_round (double_mul (double_div (inject_Z a) (inject_Z b)) 1000) in
  ((2000 * a + b) mod (2 * b) <> 0 -> r = (2000 * a + b) / (2 * b))
  /\ ((2000 * a + b) mod (2 * b) = 0 ->
      r = (2000 * a + b) / (2 * b) \/ r = (2000 * a + b) / (2 * b) - 1)
  /\ 1000 * a / b <= r <= 1000 * a / b + 1.
Proof.
  intros Ha Hb r.
  set (k := (2000 * a + b) / (2 * b)). set (rem := (2000 * a + b) mod (2 * b)).
  assert (Hdiv : 2000 * a + b = 2 * b * k + rem) by (apply Z.div_mod; lia).
  assert (Hrem : 0 <= rem < 2 * b) by (apply Z.mod_pos_bound; lia).
  assert (Hfloor : 1000 * a / b = if decide (rem < b) then k - 1 else k).
  { pose proof (Z.div_mod (1000 * a) b ltac:(lia)) as Hdiv0.
    pose proof (Z.mod_pos_bound (1000 * a) b ltac:(lia)) as Hrem0.
    case_decide; nia. }
  (* the two roundings *)
  set (A := inject_Z a). set (B := inject_Z b).
  set (K := inject_Z k). set (R := inject_Z rem).
  assert (HA : (0 < A)%Q /\ (A <= 4294967295)%Q).
  { unfold A. split; [rewrite <- (Zlt_Qlt 0); lia|].
    change 4294967295%Q with (inject_Z 4294967295). rewrite <- Zle_Qle. lia. }
  assert (HB : (1 <= B)%Q).
  { unfold B. change 1%Q with (inject_Z 1). rewrite <- Zle_Qle. lia. }
  assert (HR : (0 <= R)%Q /\ (R + 1 <= 2 * B)%Q).
  { unfold R, B. split; [rewrite <- (Zle_Qle 0); lia|].
    change 1%Q with (inject_Z 1). change 2%Q with (inject_Z 2).
    rewrite <- inject_Z_plus, <- inject_Z_mult, <- Zle_Qle. lia. }
  assert (HK : (2000 * A + B == 2 * (B * K) + R)%Q).
  { unfold A, B, K, R. change 2000%Q with (inject_Z 2000). change 2%Q with (inject_Z 2).
    rewrite <- !inject_Z_mult, <- !inject_Z_plus, inject_Z_injective. lia. }
  set (x := (A / B)%Q).
  assert (HxB : (x * B == A)%Q) by (unfold x; field; lra).
  assert (Hx : (0 < x)%Q).
  { unfold x. apply Qlt_shift_div_l; lra. }
  pose proof (round_double_error x Hx) as Hy1.
  set (y1 := round_double x) in *.
  assert (Hy1pos : (0 < y1 * 1000)%Q) by lra.
  pose proof (round_double_error (y1 * 1000) Hy1pos) as Hy2.
  set (y2 := round_double (y1 * 1000)) in *.
  assert (Hr : r = Qfloor (y2 + (1 # 2))) by reflexivity.
  set (eps := (1 # 2251799813685)%Q).
  set (D := (y2 * B)%Q).
  assert (HD : (A * 1000 - A * eps <= D <= A * 1000 + A * eps)%Q).
  { assert (H1 : ((x * (1000 - eps)) * B <= y2 * B)%Q).
    { apply Qmult_le_compat_r; [unfold eps; lra|lra]. }
    assert (H2 : (y2 * B <= (x * (1000 + eps)) * B)%Q).
    { apply Qmult_le_compat_r; [unfold eps; lra|lra]. }
    assert (H3 : ((x * (1000 - eps)) * B == (x * B) * (1000 - eps))%Q) by ring.
    assert (H4 : ((x * (1000 + eps)) * B == (x * B) * (1000 + eps))%Q) by ring.
    rewrite H3 in H1. rewrite H4 in H2. rewrite HxB in H1, H2. unfold D. lra. }
  assert (Heps : (A * eps <= 1 # 4)%Q) by (unfold eps; lra).
  assert (Hscale : forall t : Q, ((y2 + (1 # 2) - t) * (2 * B) == 2 * D + B - 2 * (B * t))%Q).
  { intros t. unfold D. ring. }
  assert (Hupper : (y2 + (1 # 2) < K + 1)%Q).
  { apply (Qmult_lt_r _ _ (2 * B)); [lra|].
    pose proof (Hscale (K + 1)%Q) as Hs.
    assert ((y2 + (1 # 2)) * (2 * B) - (K + 1) * (2 * B)
            == (y2 + (1 # 2) - (K + 1)) * (2 * B))%Q as Hdiff by ring.
    assert (2 * (B * (K + 1)) == 2 * (B * K) + 2 * B)%Q as Hprod by ring.
    lra. }
  assert (Hlower_tie : (K - 1 <= y2 + (1 # 2))%Q).
  { apply (Qmult_le_r _ _ (2 * B)); [lra|].
    pose proof (Hscale (K - 1)%Q) as Hs.
    assert ((y2 + (1 # 2)) * (2 * B) - (K - 1) * (2 * B)
            == (y2 + (1 # 2) - (K - 1)) * (2 * B))%Q as Hdiff by ring.
    assert (2 * (B * (K - 1)) == 2 * (B * K) - 2 * B)%Q as Hprod by ring.
    lra. }
  assert (Hlower : rem <> 0 -> (K <= y2 + (1 # 2))%Q).
  { intros Hne.
    assert (HR1 : (1 <= R)%Q).
    { unfold R. change 1%Q with (inject_Z 1). rewrite <- Zle_Qle. lia. }
    apply (Qmult_le_r _ _ (2 * B)); [lra|].
    pose proof (Hscale K) as Hs.
    assert ((y2 + (1 # 2)) * (2 * B) - K * (2 * B)
            == (y2 + (1 # 2) - K) * (2 * B))%Q as Hdiff by ring.
    lra. }
  assert (Hcases : rem <> 0 -> r = k).
  { intros Hne. rewrite Hr. apply Qfloor_unique; [by apply Hlower|done]. }
  assert (Htie : r = k \/ r = k - 1).
  { destruct (Qlt_le_dec (y2 + (1 # 2)) K) as [Hbelow|Habove].
    - assert (Hpred : (inject_Z (k - 1) == K - 1)%Q).
      { unfold K. apply inject_Z_pred. }
      right. rewrite Hr. apply Qfloor_unique; rewrite Hpred; [exact Hlower_tie|lra].
    - left. rewrite Hr. by apply Qfloor_unique. }
  split; [done|]. split; [done|].
  rewrite Hfloor. case_decide as Hlt.
  - destruct Htie; lia.
  - rewrite Hcases by lia. lia.
Qed.

(** On the samples, the two roundings give the number the binary64
    operations of [SpecFloat] give. *)
Example double_ratio_agrees_with_SpecFloat :
  forallb (fun '(dataSize, byteRate) =>
             Qeq_bool (SpecFloat_ratio_ms dataSize byteRate)
                      (double_mul (double_div (inject_Z (Zpos dataSize))
                                              (inject_Z (Zpos byteRate))) 1000))
          ratio_samples
  = true.
Proof. vm_compute. reflexivity. Qed.



(* ===================================================================== *)
(** * Properties of the audio container helpers *)
(* ===================================================================== *)

Lemma byte_to_N_of_Z (v : Z) : Byte.to_N (byte_of_Z v) = Z.to_N (v mod 256).
Proof.
  unfold byte_of_Z.
  destruct (Byte.of_N (Z.to_N (v mod 256))) as [b|] eqn:E.
  - by apply Byte.to_of_N in E.
  - apply Byte.of_N_None_iff in E.
    pose proof (Z.mod_pos_bound v 256 ltac:(lia)). lia.
Qed.

Lemma uint32le_value (v : Z) :
  0 <= v <= 4294967295 ->
  (Byte.to_N (byte_of_Z v) + Byte.to_N (byte_of_Z (Z.shiftr v 8)) * 2 ^ 8
   + Byte.to_N (byte_of_Z (Z.shiftr v 16)) * 2 ^ 16
   + Byte.to_N (byte_of_Z (Z.shiftr v 24)) * 2 ^ 24)%N = Z.to_N v.
Proof.
  intros Hv. rewrite !byte_to_N_of_Z, !Z.shiftr_div_pow2 by lia.
  apply N2Z.inj. rewrite !N2Z.inj_add, !N2Z.inj_mul, !Z2N.id
    by (try apply Z.mod_pos_bound; lia).
  change (Z.of_N (2 ^ 8)) with 256. change (Z.of_N (2 ^ 16)) with 65536.
  change (Z.of_N (2 ^ 24)) with 16777216.
  change (2 ^ 8) with 256. change (2 ^ 16) with 65536. change (2 ^ 24) with 16777216.
  Z.div_mod_to_equations. lia.
Qed.

Lemma scan_chunks_eq (buffer : Buffer) (offset : Z) :
  scan_chunks buffer offset =
  if decide (offset < buffer_length buffer - 8) then
    match readUInt32LE buffer (offset + 4) with
    | Some chunkSize =>
        if decide (toString_ascii (slice buffer offset (offset + 4)) = "data")
        then Some chunkSize
        else scan_chunks buffer (offset + 8 + Z.of_N chunkSize)
    | None => None
    end
  else Some 0%N.
Proof.
  funelim (scan_chunks buffer offset).
  - by rewrite Heq.
  - by rewrite Heq0, Heq.
  - by rewrite Heq0, Heq.
Qed.

Lemma wrapPcm16MonoToWav_header (pcm : Buffer) (sampleRate : Z) :
  0 <= sampleRate -> sampleRate * 2 <= 4294967295 ->
  36 + buffer_length pcm <= 4294967295 ->
  wrapPcm16MonoToWav pcm sampleRate
  = Some (wav_header (buffer_length pcm) sampleRate ++ pcm).
Proof.
  intros Hsr Hrate Hlen.
  assert (0 <= buffer_length pcm) by (unfold buffer_length; lia).
  unfold wrapPcm16MonoToWav, writeUInt32LE, writeUInt16LE.
  change (1 * 16 / 8) with 2.
  repeat (case_decide; [|lia]).
  reflexivity.
Qed.

Lemma Math_round_nonneg (x : Q) : (0 <= x)%Q -> 0 <= Math_round x.
Proof.
  intros Hx. unfold Math_round.
  change 0 with (Qfloor 0). apply Qfloor_resp_le.
  apply Qle_trans with x; [exact Hx|].
  rewrite <- (Qplus_0_r x) at 1. apply Qplus_le_r. discriminate.
Qed.

Lemma ratio_ms_nonneg (a b : Z) :
  0 <= a -> 0 <= b ->
  (0 <= double_mul (double_div (inject_Z a) (inject_Z b)) 1000)%Q.
Proof.
  intros Ha Hb. apply round_double_nonneg.
  apply Qmult_le_0_compat; [|discriminate].
  apply round_double_nonneg. apply Qmult_le_0_compat.
  - change 0%Q with (inject_Z 0). by rewrite <- Zle_Qle.
  - apply Qinv_le_0_compat. change 0%Q with (inject_Z 0). by rewrite <- Zle_Qle.
Qed.

Lemma bitrate_estimate_nonneg (buffer : Buffer) : 0 <= bitrate_estimate buffer.
Proof.
  unfold bitrate_estimate. apply Math_round_nonneg.
  apply round_double_nonneg. apply Qmult_le_0_compat; [|discriminate].
  apply round_double_nonneg. apply Qmult_le_0_compat; [|discriminate].
  change 0%Q with (inject_Z 0). rewrite <- Zle_Qle. unfold buffer_length. lia.
Qed.

Lemma readUInt32LE_in_range (buffer : Buffer) (offset : Z) :
  0 <= offset -> offset + 4 <= buffer_length buffer ->
  is_Some (readUInt32LE buffer offset).
Proof.
  unfold readUInt32LE, buffer_length. intros H0 Hlen.
  rewrite decide_True by done.
  assert (Hd : (4 <= length (drop (Z.to_nat offset) buffer))%nat)
    by (rewrite length_drop; lia).
  destruct (drop (Z.to_nat offset) buffer) as [|b0 [|b1 [|b2 [|b3 rest]]]];
    simpl in Hd; try lia. eauto.
Qed.

Lemma readUInt32LE_out_of_range (buffer : Buffer) (offset : Z) :
  buffer_length buffer < offset + 4 -> readUInt32LE buffer offset = None.
Proof.
  unfold readUInt32LE, buffer_length. intros Hlen.
  case_decide; [|done].
  assert (Hd : (length (drop (Z.to_nat offset) buffer) < 4)%nat)
    by (rewrite length_drop; lia).
  destruct (drop (Z.to_nat offset) buffer) as [|b0 [|b1 [|b2 [|b3 rest]]]];
    simpl in Hd; try lia; done.
Qed.

(** The reads of the loop never raise: the loop condition keeps the eight
    bytes of a chunk header inside the buffer. *)
Lemma scan_chunks_returns (buffer : Buffer) (offset : Z) :
  0 <= offset -> is_Some (scan_chunks buffer offset).
Proof.
  funelim (scan_chunks buffer offset); intros Hoff.
  - eauto.
  - case_decide; [eauto|]. apply H; [done|lia].
  - exfalso. destruct (readUInt32LE_in_range buffer (offset + 4)) as [x Hx]; [lia..|].
    congruence.
Qed.



Lemma wav_header_length (dataLength sampleRate : Z) :
  length (wav_header dataLength sampleRate) = 44%nat.
Proof. reflexivity. Qed.

Lemma readUInt32LE_drop (buffer : Buffer) (offset v : Z) (rest : Buffer) :
  0 <= offset -> 0 <= v <= 4294967295 ->
  drop (Z.to_nat offset) buffer = uint32le v ++ rest ->
  readUInt32LE buffer offset = Some (Z.to_N v).
Proof.
  intros Hoff Hv Hdrop. unfold readUInt32LE.
  rewrite decide_True by done. rewrite Hdrop.
  unfold uint32le. cbn [app]. by rewrite uint32le_value.
Qed.

Section Wrapped.
Variables (pcm : Buffer) (sampleRate : Z).
Hypothesis rate_positive : 0 < sampleRate.
Hypothesis rate_fits : sampleRate * 2 <= 4294967295.
Hypothesis size_fits : 36 + buffer_length pcm <= 4294967295.

Let wav := wav_header (buffer_length pcm) sampleRate ++ pcm.

Lemma wrapped_length : buffer_length wav = 44 + buffer_length pcm.
Proof. unfold wav, buffer_length. rewrite length_app, wav_header_length. lia. Qed.

Lemma wrapped_riff : slice wav 0 4 = ascii_bytes "RIFF".
Proof. reflexivity. Qed.

Lemma wrapped_wave : slice wav 8 12 = ascii_bytes "WAVE".
Proof. reflexivity. Qed.

Lemma wrapped_total_size : readUInt32LE wav 4 = Some (Z.to_N (36 + buffer_length pcm)).
Proof.
  assert (0 <= buffer_length pcm) by (unfold buffer_length; lia).
  eapply readUInt32LE_drop; [lia|lia|reflexivity].
Qed.

Lemma wrapped_data_size : readUInt32LE wav 40 = Some (Z.to_N (buffer_length pcm)).
Proof.
  assert (0 <= buffer_length pcm) by (unfold buffer_length; lia).
  eapply readUInt32LE_drop; [lia|lia|reflexivity].
Qed.

Lemma wrapped_byte_rate : readUInt32LE wav 28 = Some (Z.to_N (sampleRate * 2)).
Proof. eapply readUInt32LE_drop; [lia|lia|reflexivity]. Qed.

Lemma wrapped_isWavBuffer : isWavBuffer wav = true.
Proof.
  unfold isWavBuffer. rewrite wrapped_length.
  assert (0 <= buffer_length pcm) by (unfold buffer_length; lia).
  rewrite decide_False by lia. reflexivity.
Qed.

Lemma wrapped_scan :
  scan_chunks wav 12
  = if decide (0 < buffer_length pcm) then Some (Z.to_N (buffer_length pcm)) else Some 0%N.
Proof.
  assert (0 <= buffer_length pcm) by (unfold buffer_length; lia).
  rewrite scan_chunks_eq, wrapped_length.
  rewrite decide_True by lia.
  replace (readUInt32LE wav (12 + 4)) with (Some (Z.to_N 16))
    by (symmetry; eapply readUInt32LE_drop; [lia|lia|reflexivity]).
  change (toString_ascii (slice wav 12 (12 + 4))) with "fmt ".
  rewrite decide_False by discriminate.
  change (12 + 8 + Z.of_N (Z.to_N 16)) with 36.
  rewrite scan_chunks_eq, wrapped_length.
  destruct (decide (0 < buffer_length pcm)).
  - rewrite decide_True by lia.
    change (36 + 4) with 40. rewrite wrapped_data_size.
    change (toString_ascii (slice wav 36 40)) with "data".
    by rewrite decide_True.
  - by rewrite decide_False by lia.
Qed.

Lemma wrapped_duration :
  getWavDurationFromBuffer wav
  = if decide (0 < buffer_length pcm)
    then Math_round (double_mul (double_div (inject_Z (buffer_length pcm))
                                            (inject_Z (sampleRate * 2))) 1000)
    else bitrate_estimate wav.
Proof.
  unfold getWavDurationFromBuffer, getWavDurationFromBuffer_try.
  change (toString_ascii (slice wav 0 4)) with "RIFF".
  rewrite decide_False by (intros Hne; by apply Hne).
  rewrite wrapped_byte_rate, wrapped_scan.
  destruct (decide (0 < buffer_length pcm)); cbn [mbind option_bind].
  - rewrite decide_True by lia. rewrite !Z2N.id by lia. reflexivity.
  - rewrite decide_False by lia. reflexivity.
Qed.
End Wrapped.

Lemma getWavDurationFromBuffer_try_raises (buffer : Buffer) :
  getWavDurationFromBuffer_try buffer = None
  <-> toString_ascii (slice buffer 0 4) = "RIFF" /\ buffer_length buffer < 32.
Proof.
  unfold getWavDurationFromBuffer_try.
  destruct (scan_chunks_returns buffer 12 ltac:(lia)) as [dataSize Hscan].
  case_decide as Hriff.
  - split; [done|]. intros [Heq _]. by destruct Hriff.
  - destruct (decide (buffer_length buffer < 32)) as [Hshort|Hlong].
    + rewrite readUInt32LE_out_of_range by lia. done.
    + destruct (readUInt32LE_in_range buffer 28) as [byteRate Hrate]; [lia..|].
      rewrite Hrate, Hscan. cbn [mbind option_bind].
      split; [by case_decide|]. intros [_ Hlt]. lia.
Qed.




(** C6, as stated, fails twice. For the empty sample sequence the wrapped
    buffer has no byte after its data-chunk header, the loop stops before
    it reads that header, and the duration is the estimate of the 44
    header bytes, 3 ms, where the claim gives [round(0 / 48000 * 1000) = 0].
    For the sample rate 2^31 the byte rate 2^32 does not fit its field
    and [writeUInt32LE] raises. *)
Lemma wrapPcm16MonoToWav_empty_and_large_rate :
  (exists wav,
     wrapPcm16MonoToWav [] 24000 = Some wav
     /\ getWavDurationFromBuffer wav = 3
     /\ Math_round (inject_Z (buffer_length []) / inject_Z (24000 * 2) * 1000)%Q = 0)
  /\ wrapPcm16MonoToWav [x01; x02] 2147483648 = None.
Proof.
  split; [|vm_compute; reflexivity].
  eexists. split; [vm_compute; reflexivity|]. split; vm_compute; reflexivity.
Qed.

(** C6 (amended): for every PCM byte sequence [p] with
    [36 + len(p) <= 2^32 - 1] and every sample rate [sr] with
    [0 < sr] and [2 * sr <= 2^32 - 1], the wrapper returns a buffer of
    exactly [44 + len(p)] bytes that begins with ['RIFF'] at offset 0 and
    ['WAVE'] at offset 8 (so [isWavBuffer] accepts it) and ends with [p],
    whose total-size field is [36 + len(p)] and whose data-size field is
    [len(p)]; when [p] is not empty the duration of the wrapped buffer is
    [Math.round((len(p) / (sr * 2)) * 1000)] as doubles compute it: the
    integer nearest to [1000 * len(p) / (2 * sr)], except that a value
    halfway between two integers goes to one of the two. *)
Theorem wrapPcm16MonoToWav_layout (p : Buffer) (sr : Z) :
  0 < sr -> sr * 2 <= 4294967295 -> 36 + buffer_length p <= 4294967295 ->
  exists wav,
    wrapPcm16MonoToWav p sr = Some wav
    /\ buffer_length wav = 44 + buffer_length p
    /\ slice wav 0 4 = ascii_bytes "RIFF"
    /\ slice wav 8 12 = ascii_bytes "WAVE"
    /\ isWavBuffer wav = true
    /\ drop 44 wav = p
    /\ readUInt32LE wav 4 = Some (Z.to_N (36 + buffer_length p))
    /\ readUInt32LE wav 40 = Some (Z.to_N (buffer_length p))
    /\ (p <> [] ->
        getWavDurationFromBuffer wav
        = Math_round (double_mul (double_div (inject_Z (buffer_length p))
                                             (inject_Z (sr * 2))) 1000)
        /\ ((2000 * buffer_length p + sr * 2) mod (2 * (sr * 2)) <> 0 ->
            getWavDurationFromBuffer wav
            = (2000 * buffer_length p + sr * 2) / (2 * (sr * 2)))
        /\ 1000 * buffer_length p / (sr * 2)
           <= getWavDurationFromBuffer wav
           <= 1000 * buffer_length p / (sr * 2) + 1).
Proof.
  intros Hsr Hrate Hsize.
  exists (wav_header (buffer_length p) sr ++ p).
  split; [apply wrapPcm16MonoToWav_header; lia|].
  split; [apply wrapped_length|].
  split; [apply wrapped_riff|].
  split; [apply wrapped_wave|].
  split; [apply wrapped_isWavBuffer|].
  split; [reflexivity|].
  split; [by apply wrapped_total_size|].
  split; [by apply wrapped_data_size|].
  intros Hne.
  assert (Hlength : 0 < buffer_length p).
  { unfold buffer_length. destruct p; [done|simpl; lia]. }
  rewrite wrapped_duration by done. rewrite decide_True by done.
  pose proof (double_ratio_ms (buffer_length p) (sr * 2) ltac:(lia) ltac:(lia)) as Hms.
  cbv zeta in Hms. destruct Hms as (Hnearest & _ & Hfloor).
  split; [done|]. by split.
Qed.

(** The layout of eight wrapped bytes at 24 kHz. *)
Lemma wrapPcm16MonoToWav_layout_witness :
  exists wav,
    wrapPcm16MonoToWav (replicate 8 x11) 24000 = Some wav
    /\ buffer_length wav = 44 + buffer_length (replicate 8 x11)
    /\ slice wav 0 4 = ascii_bytes "RIFF"
    /\ slice wav 8 12 = ascii_bytes "WAVE"
    /\ isWavBuffer wav = true
    /\ drop 44 wav = replicate 8 x11
    /\ readUInt32LE wav 4 = Some (Z.to_N (36 + buffer_length (replicate 8 x11)))
    /\ readUInt32LE wav 40 = Some (Z.to_N (buffer_length (replicate 8 x11)))
    /\ (replicate 8 x11 <> [] ->
        getWavDurationFromBuffer wav
        = Math_round (double_mul (double_div (inject_Z (buffer_length (replicate 8 x11)))
                                             (inject_Z (24000 * 2))) 1000)
        /\ ((2000 * buffer_length (replicate 8 x11) + 24000 * 2) mod (2 * (24000 * 2)) <> 0 ->
            getWavDurationFromBuffer wav
            = (2000 * buffer_length (replicate 8 x11) + 24000 * 2) / (2 * (24000 * 2)))
        /\ 1000 * buffer_length (replicate 8 x11) / (24000 * 2)
           <= getWavDurationFromBuffer wav
           <= 1000 * buffer_length (replicate 8 x11) / (24000 * 2) + 1).
Proof.
  apply (wrapPcm16MonoToWav_layout (replicate 8 x11) 24000); vm_compute; congruence.
Defined.

(** The end-to-end figure of the specification: 8000 bytes at 24 kHz are
    167 ms. *)
Example duration_of_8000_bytes :
  (wav ← wrapPcm16MonoToWav (replicate (Z.to_nat 8000) x00) 24000;
   Some (buffer_length wav, getWavDurationFromBuffer wav)) = Some (8044, 167).
Proof. vm_compute. reflexivity. Qed.

(* ===================================================================== *)
(** * Properties of the realtime session *)
(* ===================================================================== *)

Example sample_base64_RIFF : sample_base64_decode "UklGRg==" = ascii_bytes "RIFF".
Proof. vm_compute. reflexivity. Qed.

Example sample_session_succeeds :
  settlements
    (sample_run [EvOpen None;
                 EvMessage (DataString "response.audio.delta");
                 EvMessage (DataBinary (ascii_bytes " response.audio.delta "));
                 EvMessage (DataString "response.done completed");
                 EvMessage (DataString "session.finished");
                 EvClose 1000 []]
       initial_session)
  = [Fulfilled {| audioData := wav_header 8 24000 ++ ascii_bytes "RIFFRIFF";
                  audioDuration := 0 |}].
Proof. vm_compute. reflexivity. Qed.

(** The timer alone: failure with the timeout reason, socket closed. *)
Example sample_session_times_out :
  effects (sample_run [EvTimeout] initial_session)
  = [ClearTimeout; WsClose 1011; Reject (QWEN_TTS_TIMEOUT 45000)].
Proof. vm_compute. reflexivity. Qed.

(** A failed response is a failure whatever audio there is, and a later
    ['session.finished'] does not change it. *)
Example sample_session_failed_response :
  settlements
    (sample_run [EvOpen None;
                 EvMessage (DataString "response.audio.delta");
                 EvMessage (DataString "response.done failed");
                 EvMessage (DataString "session.finished")] initial_session)
  = [Rejected (QWEN_TTS_FAILED_STATUS "failed")].
Proof. vm_compute. reflexivity. Qed.

(** ['session.finished'] first, with no audio and no ['response.done']:
    the session waits, and the timer ends it. *)
Example sample_session_waits_for_timeout :
  settled (sample_run [EvOpen None; EvMessage (DataString "session.finished")]
             initial_session) = false
  /\ settlements
       (sample_run [EvOpen None; EvMessage (DataString "session.finished"); EvTimeout]
          initial_session)
     = [Rejected (QWEN_TTS_TIMEOUT 45000)].
Proof. vm_compute. split; reflexivity. Qed.

(** A close after audio and one completion signal is a success; a close
    before any audio is a failure that reports the close code. *)
Example sample_session_closes :
  (exists result,
     settlements
       (sample_run [EvOpen None;
                    EvMessage (DataString "response.audio.delta");
                    EvMessage (DataString "response.done");
                    EvClose 1000 []] initial_session)
     = [Fulfilled result])
  /\ settlements (sample_run [EvOpen None; EvClose 1006 (ascii_bytes " gone ")]
                    initial_session)
     = [Rejected (QWEN_TTS_WS_CLOSED 1006 "gone")].
Proof. split; [eexists|]; vm_compute; reflexivity. Qed.

(** The third send raises: two events went out, the session fails. *)
Example sample_session_send_fails :
  effects (sample_run [EvOpen (Some (2%nat, Some "socket not open"))] initial_session)
  = [WsSend "session.update"
       [("session", JObject [("voice", JString "v1"); ("mode", JString "server_commit");
                             ("response_format", JString "pcm");
                             ("sample_rate", JNumber 24000)])];
     WsSend "input_text_buffer.append" [("text", JString "Hello there, this is a test.")];
     ClearTimeout; WsClose 1011; Reject (QWEN_TTS_WS_SEND_FAILED "socket not open")].
Proof. vm_compute. reflexivity. Qed.

Lemma fail_settled (error : tts_error) (s : session) :
  settled s = true -> fail error s = s.
Proof. unfold fail. by intros ->. Qed.

Lemma finish_settled (s : session) : settled s = true -> finish s = s.
Proof. unfold finish. by intros ->. Qed.

Lemma fail_unsettled (error : tts_error) (s : session) :
  settled s = false ->
  fail error s = perform [ClearTimeout; WsClose 1011; Reject error] (set_settled s).
Proof. unfold fail. by intros ->. Qed.

Lemma settled_fail (error : tts_error) (s : session) : settled (fail error s) = true.
Proof. unfold fail. by destruct (settled s) eqn:E. Qed.

Lemma settled_finish (s : session) : settled (finish s) = true.
Proof.
  unfold finish. destruct (settled s) eqn:E; [done|].
  cbn. case_decide; [done|]. by destruct (normalizeQwenAudioToWav _ _).
Qed.

Lemma settlements_perform (es : list effect) (s : session) :
  settlements (perform es s) = settlements s ++ omap settlement es.
Proof. unfold settlements. cbn. apply omap_app. Qed.

Lemma normalizeQwenAudioToWav_fits (rawAudio : Buffer) :
  36 + buffer_length rawAudio <= 4294967295 ->
  exists wavAudio,
    normalizeQwenAudioToWav rawAudio 24000 = Some wavAudio
    /\ isWavBuffer wavAudio = true
    /\ (isWavBuffer rawAudio = true -> wavAudio = rawAudio)
    /\ (isWavBuffer rawAudio = false ->
        wavAudio = wav_header (buffer_length rawAudio) 24000 ++ rawAudio).
Proof.
  intros Hfits. unfold normalizeQwenAudioToWav.
  destruct (isWavBuffer rawAudio) eqn:Hwav.
  - exists rawAudio. done.
  - rewrite wrapPcm16MonoToWav_header by lia. eexists. split; [done|].
    split; [by apply wrapped_isWavBuffer|]. done.
Qed.

(** [finish] on a session whose audio can be normalized. *)
Lemma finish_with_audio (s : session) (wavAudio : Buffer) :
  settled s = false -> audioChunks s <> [] ->
  normalizeQwenAudioToWav (concat (audioChunks s)) 24000 = Some wavAudio ->
  finish s
  = perform [ClearTimeout;
             Resolve {| audioData := wavAudio;
                        audioDuration := getWavDurationFromBuffer wavAudio |};
             WsClose 1000] (set_settled s).
Proof.
  intros Hs Hchunks Hwav.
  unfold finish. rewrite Hs. cbv zeta. cbn [perform set_settled audioChunks].
  destruct (decide (length (audioChunks s) = 0%nat)) as [Hlen|_];
    [exfalso; destruct (audioChunks s); [by apply Hchunks|discriminate]|].
  rewrite Hwav. unfold perform, set_settled.
  cbn [audioChunks hasResponseDone hasSessionFinished settled effects].
  by rewrite <- app_assoc.
Qed.

Lemma finish_without_chunks (s : session) :
  settled s = false -> audioChunks s = [] ->
  finish s
  = perform [ClearTimeout;
             Reject (QWEN_TTS_INVALID_RESPONSE "missing response.audio.delta")]
      (set_settled s).
Proof.
  intros Hs Hchunks. unfold finish. rewrite Hs. cbn.
  rewrite Hchunks. cbn. unfold perform. cbn. by rewrite <- app_assoc, Hchunks.
Qed.

Section TransportProperties.
Variable utf8_toString : Buffer -> string.
Variable JSON_parse : string -> option js_value.
Variable base64_decode : string -> Buffer.
Variable params : tts_params.

Local Abbreviation Step := (step utf8_toString JSON_parse base64_decode params).
Local Abbreviation Run := (run utf8_toString JSON_parse base64_decode params).
Local Abbreviation OnMessage := (on_message utf8_toString JSON_parse base64_decode).
Local Abbreviation OnEvent := (on_event base64_decode).
Local Abbreviation Carries := (carries utf8_toString JSON_parse).

Lemma on_event_settled (messageData : js_value) (messageText : string) (s : session) :
  settled s = true ->
  settled (OnEvent messageData messageText s) = true
  /\ effects (OnEvent messageData messageText s) = effects s.
Proof.
  intros Hs. unfold on_event.
  repeat first [case_decide | case_match]; rewrite ?fail_settled, ?finish_settled by done;
    done.
Qed.

Lemma settled_perform (es : list effect) (s : session) :
  settled (perform es s) = settled s.
Proof. reflexivity. Qed.

Lemma outbound_no_settlement (i : nat) : omap settlement (take i (outbound params)) = [].
Proof. destruct i as [|[|[|[|[|i]]]]]; reflexivity. Qed.

Lemma on_open_effects (failure : send_failure) (s : session) :
  settled (on_open params failure s) = true -> settled s = false ->
  exists i message,
    on_open params failure s
    = fail (QWEN_TTS_WS_SEND_FAILED message) (perform (take i (outbound params)) s).
Proof.
  unfold on_open. intros Hafter Hs.
  destruct failure as [[i message]|]; [case_decide|]; eauto;
    rewrite settled_perform in Hafter; congruence.
Qed.

Lemma on_open_settled (failure : send_failure) (s : session) :
  settled s = true ->
  settled (on_open params failure s) = true
  /\ settlements (on_open params failure s) = settlements s.
Proof.
  intros Hs. unfold on_open.
  assert (Hall : settlements (perform (outbound params) s) = settlements s).
  { rewrite settlements_perform, <- (firstn_all (outbound params)).
    rewrite outbound_no_settlement. apply app_nil_r. }
  destruct failure as [[i message]|]; [case_decide|]; try done.
  rewrite fail_settled by done. split; [done|].
  rewrite settlements_perform, outbound_no_settlement. apply app_nil_r.
Qed.

(** Once settled, a session stays settled and neither [resolve] nor
    [reject] is called again; apart from the sends of a late ['open'],
    nothing at all is done. *)
Lemma step_settled (s : session) (e : event) :
  settled s = true ->
  settled (Step s e) = true
  /\ settlements (Step s e) = settlements s
  /\ ((forall failure, e <> EvOpen failure) -> effects (Step s e) = effects s).
Proof.
  intros Hs. destruct e as [failure|data|message|code reason|]; cbn [step].
  - destruct (on_open_settled failure s Hs) as [H1 H2].
    split; [done|]. split; [done|]. intros Hne. by destruct (Hne failure).
  - assert (Hmsg : settled (OnMessage data s) = true
                   /\ effects (OnMessage data s) = effects s).
    { unfold on_message. cbv zeta. case_decide; [done|].
      destruct (JSON_parse _) as [messageData|]; [|by rewrite fail_settled].
      destruct (isRecord messageData); cbn; [|by rewrite fail_settled].
      by apply on_event_settled. }
    destruct Hmsg as [H1 H2]. unfold settlements. rewrite H2; done.
  - unfold on_error. by rewrite fail_settled.
  - unfold on_close. by rewrite Hs.
  - unfold on_timeout. by rewrite fail_settled.
Qed.

Lemma run_cons (e : event) (events : list event) (s : session) :
  Run (e :: events) s = Run events (Step s e).
Proof. reflexivity. Qed.

Lemma run_app (events later : list event) (s : session) :
  Run (events ++ later) s = Run later (Run events s).
Proof. apply fold_left_app. Qed.

Lemma run_settled (events : list event) (s : session) :
  settled s = true ->
  settled (Run events s) = true /\ settlements (Run events s) = settlements s.
Proof.
  revert s. induction events as [|e events IH]; intros s Hs; [done|].
  rewrite run_cons. destruct (step_settled s e Hs) as (H1 & H2 & _).
  destruct (IH _ H1) as [H3 H4]. split; [done|]. by rewrite H4.
Qed.

Lemma at_most_once_fail (error : tts_error) (s : session) :
  at_most_once s -> at_most_once (fail error s).
Proof.
  intros Hinv. destruct (Hinv) as [Hnone Hone]. destruct (settled s) eqn:Hs.
  - by rewrite fail_settled.
  - rewrite fail_unsettled by done. split; [done|].
    rewrite settlements_perform. unfold settlements at 1. cbn [set_settled effects].
    fold (settlements s). rewrite Hnone by done. cbn. lia.
Qed.

Lemma at_most_once_finish (s : session) :
  at_most_once s -> at_most_once (finish s).
Proof.
  intros Hinv. destruct (Hinv) as [Hnone Hone]. destruct (settled s) eqn:Hs.
  - by rewrite finish_settled.
  - split; [by rewrite settled_finish|].
    unfold finish. rewrite Hs. cbv zeta.
    repeat first [case_decide | case_match];
      rewrite ?settlements_perform; unfold settlements at 1;
      cbn [set_settled perform effects]; rewrite ?omap_app;
      fold (settlements s); rewrite Hnone by done; cbn; lia.
Qed.

Lemma at_most_once_same_effects (s s' : session) :
  effects s' = effects s -> settled s' = settled s ->
  at_most_once s -> at_most_once s'.
Proof. unfold at_most_once, settlements. by intros -> ->. Qed.

Lemma at_most_once_step (s : session) (e : event) :
  at_most_once s -> at_most_once (Step s e).
Proof.
  intros Hs. destruct e as [failure|data|message|code reason|]; cbn [step].
  - unfold on_open.
    assert (Hsends : forall i, at_most_once (perform (take i (outbound params)) s)).
    { intros i. destruct Hs as [Hnone Hone]. unfold at_most_once.
      rewrite settlements_perform, outbound_no_settlement, app_nil_r. done. }
    assert (Hall : at_most_once (perform (outbound params) s)).
    { rewrite <- (firstn_all (outbound params)). apply Hsends. }
    destruct failure as [[i message]|]; [case_decide|]; try done.
    by apply at_most_once_fail.
  - unfold on_message. cbv zeta. case_decide; [done|].
    destruct (JSON_parse _) as [messageData|]; [|by apply at_most_once_fail].
    destruct (isRecord messageData); cbn [negb]; [|by apply at_most_once_fail].
    unfold on_event.
    repeat first [case_decide | case_match];
      try apply at_most_once_fail; try apply at_most_once_finish;
      try (by eapply at_most_once_same_effects; [..|exact Hs]).
  - by apply at_most_once_fail.
  - unfold on_close. cbv zeta. destruct (settled s) eqn:Hsettled; [done|].
    destruct (_ && _); [by apply at_most_once_finish | by apply at_most_once_fail].
  - by apply at_most_once_fail.
Qed.

Lemma at_most_once_run (events : list event) (s : session) :
  at_most_once s -> at_most_once (Run events s).
Proof.
  revert s. induction events as [|e events IH]; intros s Hs; [done|].
  rewrite run_cons. by apply IH, at_most_once_step.
Qed.

Lemma at_most_once_initial : at_most_once initial_session.
Proof. split; [done|]. cbn. lia. Qed.

(** A settlement, once made, is the only one whatever follows. *)
Lemma settled_for_good (s : session) (later : list event) (o : outcome) :
  settled s = true -> settlements s = [o] -> settlements (Run later s) = [o].
Proof. intros Hs Ho. by rewrite (proj2 (run_settled later s Hs)). Qed.

Lemma on_message_carries (data : ws_data) (messageData : js_value) (eventType : string)
    (s : session) :
  Carries data messageData eventType ->
  OnMessage data s
  = OnEvent messageData (trim (decodeWsMessageToText utf8_toString data)) s.
Proof.
  intros (Htext & Hparse & Hrecord & _). unfold on_message. cbv zeta.
  rewrite decide_False by done. by rewrite Hparse, Hrecord.
Qed.

Lemma on_event_response_done (messageData : js_value) (messageText : string) (s : session) :
  readOptionalString (get messageData "type") = Some "response.done" ->
  OnEvent messageData messageText s
  = match responseStatus messageData with
    | Some status =>
        if decide (status <> "completed")
        then fail (QWEN_TTS_FAILED_STATUS status) (set_hasResponseDone s)
        else if hasSessionFinished s then finish (set_hasResponseDone s)
             else set_hasResponseDone s
    | None =>
        if hasSessionFinished s then finish (set_hasResponseDone s)
        else set_hasResponseDone s
    end.
Proof.
  intros Htype. unfold on_event, responseStatus. rewrite Htype.
  rewrite decide_False by done. rewrite decide_False by done.
  by rewrite decide_True.
Qed.

Lemma on_event_session_finished (messageData : js_value) (messageText : string) (s : session) :
  readOptionalString (get messageData "type") = Some "session.finished" ->
  OnEvent messageData messageText s
  = if hasResponseDone s || bool_decide (0 < length (audioChunks s))%nat
    then finish (set_hasSessionFinished s)
    else set_hasSessionFinished s.
Proof.
  intros Htype. unfold on_event. rewrite Htype.
  rewrite decide_False by done. rewrite decide_False by done.
  rewrite decide_False by done. by rewrite decide_True.
Qed.

Lemma settlements_finish_with_audio (s : session) (wavAudio : Buffer) :
  settled s = false -> settlements s = [] -> audioChunks s <> [] ->
  normalizeQwenAudioToWav (concat (audioChunks s)) 24000 = Some wavAudio ->
  settled (finish s) = true
  /\ settlements (finish s)
     = [Fulfilled {| audioData := wavAudio;
                     audioDuration := getWavDurationFromBuffer wavAudio |}]
  /\ effects (finish s)
     = effects s
       ++ [ClearTimeout;
           Resolve {| audioData := wavAudio;
                      audioDuration := getWavDurationFromBuffer wavAudio |};
           WsClose 1000].
Proof.
  intros Hs Hnone Hchunks Hwav.
  rewrite (finish_with_audio s wavAudio) by done.
  split; [done|]. split; [|done].
  rewrite settlements_perform. change (settlements (set_settled s)) with (settlements s).
  by rewrite Hnone.
Qed.

Lemma has_chunks (s : session) :
  audioChunks s <> [] -> bool_decide (0 < length (audioChunks s))%nat = true.
Proof.
  intros Hchunks. apply bool_decide_eq_true.
  destruct (audioChunks s); [done|simpl; lia].
Qed.

(** C1 (amended): in a session that is not settled and has accumulated
    at least one audio chunk (of a total size the 32-bit size fields of a
    container can hold), ['response.done'] with status ['completed']
    followed by ['session.finished'] settles the session exactly once, as
    success; and ['session.finished'] alone, before any ['response.done'],
    settles it as success too. Whatever comes later changes nothing. *)
Theorem completion_signals_either_order
    (earlier : list event) (done finished : ws_data) (doneData finishedData : js_value) :
  let s := Run earlier initial_session in
  settled s = false ->
  audioChunks s <> [] ->
  36 + buffer_length (concat (audioChunks s)) <= 4294967295 ->
  Carries done doneData "response.done" ->
  responseStatus doneData = Some "completed" ->
  Carries finished finishedData "session.finished" ->
  exists wavAudio,
    normalizeQwenAudioToWav (concat (audioChunks s)) 24000 = Some wavAudio
    /\ let success :=
         Fulfilled {| audioData := wavAudio;
                      audioDuration := getWavDurationFromBuffer wavAudio |} in
       (let s' := Run [EvMessage done; EvMessage finished] s in
        settled s' = true
        /\ settlements s' = [success]
        /\ forall later, settlements (Run later s') = [success])
       /\ (let s' := Step s (EvMessage finished) in
           settled s' = true
           /\ settlements s' = [success]
           /\ forall later, settlements (Run later s') = [success]).
Proof.
  intros s Hs Hchunks Hfits Hdone Hstatus Hfinished.
  destruct (normalizeQwenAudioToWav_fits _ Hfits) as (wavAudio & Hwav & _).
  exists wavAudio. split; [done|]. cbv zeta.
  assert (Hnone : settlements s = []).
  { by apply (at_most_once_run earlier initial_session at_most_once_initial). }
  pose proof (has_chunks s Hchunks) as Hpos.
  assert (Hlast : forall s', settled s' = true -> forall o, settlements s' = [o] ->
            settled s' = true /\ settlements s' = [o]
            /\ forall later, settlements (Run later s') = [o]).
  { intros s' H1 o H2. split; [done|]. split; [done|].
    intros later. by apply settled_for_good. }
  split.
  - rewrite !run_cons. cbn [step]. change (Run [] ?x) with x.
    rewrite (on_message_carries _ _ _ _ Hdone), on_event_response_done by apply Hdone.
    rewrite Hstatus, decide_False by (intros Hne; by apply Hne).
    destruct (hasSessionFinished s) eqn:Hfin.
    + destruct (settlements_finish_with_audio (set_hasResponseDone s) wavAudio)
        as (H1 & H2 & _); [done..|].
      destruct (step_settled (finish (set_hasResponseDone s)) (EvMessage finished) H1)
        as (H3 & H4 & _).
      cbn [step] in H3, H4. apply Hlast; [done|]. by rewrite H4.
    + rewrite (on_message_carries _ _ _ _ Hfinished), on_event_session_finished
        by apply Hfinished.
      cbn [set_hasResponseDone hasResponseDone orb].
      destruct (settlements_finish_with_audio
                  (set_hasSessionFinished (set_hasResponseDone s)) wavAudio)
        as (H1 & H2 & _); [done..|].
      by apply Hlast.
  - cbn [step].
    rewrite (on_message_carries _ _ _ _ Hfinished), on_event_session_finished
      by apply Hfinished.
    rewrite Hpos, orb_true_r.
    destruct (settlements_finish_with_audio (set_hasSessionFinished s) wavAudio)
      as (H1 & H2 & _); [done..|].
    by apply Hlast.
Qed.

Lemma settlements_fail (error : tts_error) (s : session) :
  settled s = false -> settlements s = [] ->
  settlements (fail error s) = [Rejected error].
Proof.
  intros Hs Hnone. rewrite fail_unsettled by done.
  rewrite settlements_perform. change (settlements (set_settled s)) with (settlements s).
  by rewrite Hnone.
Qed.

Lemma settlements_finish_without_chunks (s : session) :
  settled s = false -> settlements s = [] -> audioChunks s = [] ->
  settlements (finish s)
  = [Rejected (QWEN_TTS_INVALID_RESPONSE "missing response.audio.delta")].
Proof.
  intros Hs Hnone Hchunks. rewrite finish_without_chunks by done.
  rewrite settlements_perform. change (settlements (set_settled s)) with (settlements s).
  by rewrite Hnone.
Qed.


Lemma unfulfilled_fail (error : tts_error) (s : session) :
  settlements s = [] -> unfulfilled (fail error s).
Proof.
  intros Hnone result. destruct (settled s) eqn:Hs.
  - rewrite fail_settled, Hnone by done. apply not_elem_of_nil.
  - rewrite settlements_fail by done. by intros ?%list_elem_of_singleton.
Qed.

Lemma unfulfilled_finish (s : session) :
  settlements s = [] -> audioChunks s = [] -> unfulfilled (finish s).
Proof.
  intros Hnone Hchunks result. destruct (settled s) eqn:Hs.
  - rewrite finish_settled, Hnone by done. apply not_elem_of_nil.
  - rewrite settlements_finish_without_chunks by done.
    by intros ?%list_elem_of_singleton.
Qed.

Lemma unfulfilled_same_effects (s s' : session) :
  effects s' = effects s -> settlements s = [] -> unfulfilled s'.
Proof.
  intros Heff Hnone result. unfold settlements in *. rewrite Heff, Hnone.
  apply not_elem_of_nil.
Qed.

(** No event makes a success of a session that has no audio chunk. *)
Lemma no_success_without_audio (s : session) (e : event) :
  settlements s = [] -> audioChunks s = [] -> unfulfilled (Step s e).
Proof.
  intros Hnone Hchunks. destruct e as [failure|data|message|code reason|]; cbn [step].
  - unfold on_open.
    assert (Hsends : forall i, settlements (perform (take i (outbound params)) s) = []).
    { intros i. by rewrite settlements_perform, outbound_no_settlement, Hnone. }
    assert (Hall : settlements (perform (outbound params) s) = []).
    { rewrite <- (firstn_all (outbound params)). apply Hsends. }
    destruct failure as [[i message]|]; [case_decide|];
      try (intros result; rewrite Hall; apply not_elem_of_nil).
    by apply unfulfilled_fail.
  - unfold on_message. cbv zeta.
    case_decide; [by apply (unfulfilled_same_effects s)|].
    destruct (JSON_parse _) as [messageData|]; [|by apply unfulfilled_fail].
    destruct (isRecord messageData); cbn [negb]; [|by apply unfulfilled_fail].
    unfold on_event.
    repeat first [case_decide | case_match];
      try (by apply unfulfilled_fail);
      try (by apply unfulfilled_finish);
      try (by apply (unfulfilled_same_effects s)).
  - by apply unfulfilled_fail.
  - unfold on_close. cbv zeta. destruct (settled s) eqn:Hsettled;
      [by apply (unfulfilled_same_effects s)|].
    rewrite Hchunks. cbn. by apply unfulfilled_fail.
  - by apply unfulfilled_fail.
Qed.

(** C4: when [finish] is taken in a session that has not settled and has
    accumulated no audio chunk, the session settles as a failure, with the
    reason [QWEN_TTS_INVALID_RESPONSE: missing response.audio.delta], and
    stays so; and no event at all settles such a session as a success. *)
Theorem finish_without_audio_rejects (earlier : list event) :
  let s := Run earlier initial_session in
  settled s = false ->
  audioChunks s = [] ->
  let failure := Rejected (QWEN_TTS_INVALID_RESPONSE "missing response.audio.delta") in
  settled (finish s) = true
  /\ settlements (finish s) = [failure]
  /\ promise_outcome (finish s) = Some failure
  /\ (forall later, settlements (Run later (finish s)) = [failure])
  /\ (forall e result, Fulfilled result ∉ settlements (Step s e)).
Proof.
  intros s Hs Hchunks failure.
  assert (Hnone : settlements s = []).
  { by apply (at_most_once_run earlier initial_session at_most_once_initial). }
  pose proof (settlements_finish_without_chunks s Hs Hnone Hchunks) as Hrej.
  split; [apply settled_finish|]. split; [done|].
  split; [unfold promise_outcome; by rewrite Hrej|].
  split.
  - intros later. apply settled_for_good; [apply settled_finish|done].
  - intros e. by apply no_success_without_audio.
Qed.

(** C7 (amended): on an unsettled session, a message whose trimmed text
    is not empty and is not valid JSON, or parses to something that is not
    an object, or to an object without a non-empty string [type], settles
    the session as a failure with the reason [QWEN_TTS_INVALID_EVENT] and
    closes the socket with code 1011. A message whose trimmed text is
    empty is ignored. *)
Theorem invalid_message_fails (s : session) (data : ws_data) :
  settled s = false ->
  let messageText := trim (decodeWsMessageToText utf8_toString data) in
  (messageText = EmptyString -> OnMessage data s = s)
  /\ (messageText <> EmptyString ->
      JSON_parse messageText = None
      \/ (exists value, JSON_parse messageText = Some value
                        /\ (isRecord value = false
                            \/ readOptionalString (get value "type") = None)) ->
      exists detail,
        settled (OnMessage data s) = true
        /\ effects (OnMessage data s)
           = effects s ++ [ClearTimeout; WsClose 1011;
                           Reject (QWEN_TTS_INVALID_EVENT detail)]).
Proof.
  intros Hs messageText. unfold on_message. cbv zeta. fold messageText.
  split; [intros ->; by rewrite decide_True|].
  intros Htext Hcase. rewrite decide_False by done.
  destruct Hcase as [Hparse|(value & Hparse & [Hrecord|Htype])]; rewrite Hparse.
  - exists messageText. by rewrite fail_unsettled.
  - rewrite Hrecord. cbn [negb]. eexists. by rewrite fail_unsettled.
  - destruct (isRecord value); cbn [negb].
    + unfold on_event. rewrite Htype. eexists. by rewrite fail_unsettled.
    + eexists. by rewrite fail_unsettled.
Qed.





End TransportProperties.



(** C1, as stated, fails: with no audio chunk accumulated,
    ['response.done'] with status ['completed'] followed by
    ['session.finished'] settles the session as a failure. *)
Lemma completion_without_audio_is_rejected :
  sample_JSON_parse (trim "response.done completed")
  = Some (JObject [("type", JString "response.done");
                   ("response", JObject [("status", JString "completed")])])
  /\ sample_JSON_parse (trim "session.finished")
     = Some (JObject [("type", JString "session.finished")])
  /\ settlements
       (sample_run [EvOpen None;
                    EvMessage (DataString "response.done completed");
                    EvMessage (DataString "session.finished")] initial_session)
     = [Rejected (QWEN_TTS_INVALID_RESPONSE "missing response.audio.delta")].
Proof. vm_compute. repeat split; reflexivity. Qed.

(** The defect behind C2: on the same events the promise is rejected by
    [finish], and [finish] returns without closing the socket; the trace
    holds no [WsClose] at all. *)
Lemma rejection_by_finish_leaves_socket_open :
  let s := sample_run [EvOpen None;
                       EvMessage (DataString "response.done completed");
                       EvMessage (DataString "session.finished")] initial_session in
  settled s = true
  /\ drop 4 (effects s)
     = [ClearTimeout; Reject (QWEN_TTS_INVALID_RESPONSE "missing response.audio.delta")]
  /\ forall code, WsClose code ∉ effects s.
Proof.
  cbv zeta. split; [vm_compute; reflexivity|]. split; [vm_compute; reflexivity|].
  intros code Hin. vm_compute in Hin.
  repeat (apply elem_of_cons in Hin as [Hin|Hin]; [discriminate|]).
  by apply elem_of_nil in Hin.
Qed.

(** C7, as stated, fails: a frame of white space is not valid JSON, and
    the handler returns before it parses it; the session stays as it was. *)
Lemma blank_message_is_ignored :
  sample_JSON_parse (trim " ") = None
  /\ sample_step initial_session (EvMessage (DataString " ")) = initial_session
  /\ sample_step initial_session (EvMessage DataOther) = initial_session
  /\ settled (sample_step initial_session (EvMessage (DataString " "))) = false.
Proof. vm_compute. repeat split; reflexivity. Qed.

(** [finish] after ['response.done'] alone, with no audio. *)
Lemma finish_without_audio_rejects_witness :
  settlements
    (finish (sample_run [EvOpen None; EvMessage (DataString "response.done completed")]
               initial_session))
  = [Rejected (QWEN_TTS_INVALID_RESPONSE "missing response.audio.delta")].
Proof.
  apply (finish_without_audio_rejects
           sample_utf8_toString sample_JSON_parse sample_base64_decode
           (sample_params "voice-tts-realtime-v1")
           [EvOpen None; EvMessage (DataString "response.done completed")]);
    reflexivity.
Defined.

(** A frame the sample parser rejects. *)
Lemma invalid_message_fails_witness :
  exists detail,
    settled (sample_step initial_session (EvMessage (DataString "oops"))) = true
    /\ effects (sample_step initial_session (EvMessage (DataString "oops")))
       = effects initial_session
         ++ [ClearTimeout; WsClose 1011; Reject (QWEN_TTS_INVALID_EVENT detail)].
Proof.
  apply (invalid_message_fails
           sample_utf8_toString sample_JSON_parse sample_base64_decode
           initial_session (DataString "oops")).
  - reflexivity.
  - vm_compute. discriminate.
  - left. reflexivity.
Defined.

(** One audio chunk, then the two completion signals. *)
Lemma completion_signals_either_order_witness :
  exists wavAudio,
    normalizeQwenAudioToWav (ascii_bytes "RIFF") 24000 = Some wavAudio
    /\ sample_run [EvMessage (DataString "response.done completed");
                   EvMessage (DataString "session.finished")]
         (sample_run [EvOpen None; EvMessage (DataString "response.audio.delta")]
            initial_session)
       = sample_run [EvOpen None; EvMessage (DataString "response.audio.delta");
                     EvMessage (DataString "response.done completed");
                     EvMessage (DataString "session.finished")] initial_session
    /\ settlements
         (sample_run [EvOpen None; EvMessage (DataString "response.audio.delta");
                      EvMessage (DataString "response.done completed");
                      EvMessage (DataString "session.finished")] initial_session)
       = [Fulfilled {| audioData := wavAudio;
                       audioDuration := getWavDurationFromBuffer wavAudio |}].
Proof.
  destruct (completion_signals_either_order
              sample_utf8_toString sample_JSON_parse sample_base64_decode
              (sample_params "voice-tts-realtime-v1")
              [EvOpen None; EvMessage (DataString "response.audio.delta")]
              (DataString "response.done completed") (DataString "session.finished")
              (JObject [("type", JString "response.done");
                        ("response", JObject [("status", JString "completed")])])
              (JObject [("type", JString "session.finished")]))
    as (wavAudio & Hwav & (_ & Hsettle & _) & _).
  - reflexivity.
  - vm_compute. discriminate.
  - vm_compute. discriminate.
  - vm_compute. repeat split; discriminate.
  - reflexivity.
  - vm_compute. repeat split; discriminate.
  - exists wavAudio. split; [exact Hwav|]. split; [reflexivity|]. exact Hsettle.
Defined.

Section HttpProperties.
Variable utf8_toString : Buffer -> string.
Variable JSON_parse : string -> option js_value.
Variable base64_decode : string -> Buffer.
Variable params : tts_params.
Variable fetch_audio : string -> audio_download.

Local Abbreviation Run := (run utf8_toString JSON_parse base64_decode params).

(** A session calls [resolve] or [reject] at most once, whatever the
    events. *)
Lemma settles_at_most_once (events : list event) :
  (length (settlements (Run events initial_session)) <= 1)%nat.
Proof.
  by apply (at_most_once_run utf8_toString JSON_parse base64_decode params
              events initial_session at_most_once_initial).
Qed.

(** C3 (amended): on the request/response path, a success response that
    carries inline base64 audio is answered with the decoded bytes as they
    are: [N] decoded bytes give an [audioData] of [N] bytes, with no
    container header added, and the duration is computed on those bytes. *)
Theorem inline_audio_is_returned_as_decoded
    (events : list event) (response : http_response) (responseData : js_value)
    (audioBase64 : string) :
  isQwenRealtimeModel (modelId params) = false ->
  ok response = true ->
  body response <> EmptyString ->
  JSON_parse (body response) = Some responseData ->
  readQwenAudioBase64 responseData = Some audioBase64 ->
  exists result,
    generateVoiceWithQwenTTS utf8_toString JSON_parse base64_decode params fetch_audio
      events response = Some (Fulfilled result)
    /\ audioData result = base64_decode audioBase64
    /\ buffer_length (audioData result) = buffer_length (base64_decode audioBase64)
    /\ audioDuration result = getWavDurationFromBuffer (base64_decode audioBase64).
Proof.
  intros Hmodel Hok Hbody Hparse Hinline.
  unfold generateVoiceWithQwenTTS, generateVoiceWithQwenTTSHttp.
  rewrite Hmodel, Hok. cbv zeta. cbn [negb].
  rewrite decide_False by done. rewrite Hparse. change (default JNull (Some responseData)) with responseData.
  rewrite Hinline. eexists. split; [done|]. done.
Qed.

End HttpProperties.

(** C3, as stated, fails: 2000 bytes of inline audio that are not
    container-formatted come back as those 2000 bytes, not as a 2044-byte
    container. *)
Lemma inline_audio_is_not_wrapped :
  exists result,
    generateVoiceWithQwenTTS sample_utf8_toString sample_JSON_parse sample_base64_decode
      (sample_params "voice-tts-batch-v1") sample_fetch_audio []
      {| ok := true; status := 200; body := "inline audio of 2000 bytes" |}
    = Some (Fulfilled result)
    /\ length (sample_base64_decode base64_of_2000_zeros) = 2000%nat
    /\ isWavBuffer (sample_base64_decode base64_of_2000_zeros) = false
    /\ buffer_length (audioData result) = 2000
    /\ buffer_length (audioData result) <> 44 + 2000.
Proof.
  eexists. split; [vm_compute; reflexivity|].
  vm_compute. repeat split; congruence.
Qed.

(** Six bytes of inline audio on the request/response path. *)
Lemma inline_audio_is_returned_as_decoded_witness :
  exists result,
    generateVoiceWithQwenTTS sample_utf8_toString sample_JSON_parse sample_base64_decode
      (sample_params "voice-tts-batch-v1") sample_fetch_audio []
      {| ok := true; status := 200; body := "inline audio" |}
    = Some (Fulfilled result)
    /\ audioData result = sample_base64_decode "AAECAwQF"
    /\ buffer_length (audioData result) = buffer_length (sample_base64_decode "AAECAwQF")
    /\ audioDuration result = getWavDurationFromBuffer (sample_base64_decode "AAECAwQF").
Proof.
  apply (inline_audio_is_returned_as_decoded
           sample_utf8_toString sample_JSON_parse sample_base64_decode
           (sample_params "voice-tts-batch-v1") sample_fetch_audio []
           {| ok := true; status := 200; body := "inline audio" |}
           (JObject [("output", JObject [("audio", JObject [("data", JString "AAECAwQF")])])])
           "AAECAwQF").
  - reflexivity.
  - reflexivity.
  - vm_compute. discriminate.
  - reflexivity.
  - reflexivity.
Defined.

(* ===================================================================== *)
(** * Properties of the task queues *)
(* ===================================================================== *)

Module TaskQueuesProperties.
Import TaskQueues.

Section ClassificationProperties.
Context {TaskType : Type} `{Countable TaskType}.
Variable TASK_TYPE : TASK_TYPE_table TaskType.

(** The members of [TASK_TYPE] are pairwise different. *)
Hypothesis distinct : NoDup (named_task_types TASK_TYPE).

Local Abbreviation classify := (getQueueTypeByTaskType TASK_TYPE).

Lemma task_type_sets_disjoint (type : TaskType) :
  (type ∈ IMAGE_TYPES TASK_TYPE -> type ∉ VIDEO_TYPES TASK_TYPE)
  /\ (type ∈ IMAGE_TYPES TASK_TYPE -> type ∉ VOICE_TYPES TASK_TYPE)
  /\ (type ∈ VIDEO_TYPES TASK_TYPE -> type ∉ VOICE_TYPES TASK_TYPE).
Proof.
  pose proof distinct as Hdistinct.
  change (named_task_types TASK_TYPE)
    with ([IMAGE_PANEL TASK_TYPE; IMAGE_CHARACTER TASK_TYPE; IMAGE_LOCATION TASK_TYPE;
           PANEL_VARIANT TASK_TYPE; MODIFY_ASSET_IMAGE TASK_TYPE;
           REGENERATE_GROUP TASK_TYPE; ASSET_HUB_IMAGE TASK_TYPE;
           ASSET_HUB_MODIFY TASK_TYPE]
          ++ [VIDEO_PANEL TASK_TYPE; LIP_SYNC TASK_TYPE]
          ++ [VOICE_LINE TASK_TYPE; VOICE_DESIGN TASK_TYPE;
              ASSET_HUB_VOICE_DESIGN TASK_TYPE]) in Hdistinct.
  apply NoDup_app in Hdistinct as (_ & Himage & Hrest).
  apply NoDup_app in Hrest as (_ & Hvideo & _).
  unfold IMAGE_TYPES, VIDEO_TYPES, VOICE_TYPES. rewrite !elem_of_list_to_set.
  split; [|split].
  - intros Hin Hin'. apply (Himage _ Hin), elem_of_app. by left.
  - intros Hin Hin'. apply (Himage _ Hin), elem_of_app. by right.
  - intros Hin. by apply Hvideo.
Qed.

(** C8: the classification is a function on task kinds (total, and with
    one queue per kind); a kind is sent to the image, video or voice queue
    exactly when it belongs to the set of that name, and to the text queue
    exactly when it belongs to none of the three. *)
Theorem getQueueTypeByTaskType_partition (type : TaskType) :
  (exists queue, classify type = queue
                 /\ forall queue', classify type = queue' -> queue' = queue)
  /\ (classify type = image <-> type ∈ IMAGE_TYPES TASK_TYPE)
  /\ (classify type = video <-> type ∈ VIDEO_TYPES TASK_TYPE)
  /\ (classify type = voice <-> type ∈ VOICE_TYPES TASK_TYPE)
  /\ (classify type = text
      <-> (type ∉ IMAGE_TYPES TASK_TYPE) /\ (type ∉ VIDEO_TYPES TASK_TYPE)
          /\ (type ∉ VOICE_TYPES TASK_TYPE)).
Proof.
  destruct (task_type_sets_disjoint type) as (Hiv & Hio & Hvo).
  split; [exists (classify type); split; [done|by intros ? <-]|].
  unfold getQueueTypeByTaskType.
  repeat case_decide; repeat split; intros; try done; try tauto.
Qed.

End ClassificationProperties.

(** A video kind and a kind outside the three sets. *)
Lemma getQueueTypeByTaskType_partition_witness :
  getQueueTypeByTaskType sample_TASK_TYPE "lip_sync" = video
  /\ getQueueTypeByTaskType sample_TASK_TYPE "story_to_script" = text.
Proof.
  assert (Hdistinct : NoDup (named_task_types sample_TASK_TYPE)).
  { apply (bool_decide_unpack _). vm_compute. exact I. }
  split.
  - apply (getQueueTypeByTaskType_partition sample_TASK_TYPE Hdistinct "lip_sync").
    vm_compute. set_solver.
  - apply (getQueueTypeByTaskType_partition sample_TASK_TYPE Hdistinct "story_to_script").
    vm_compute. set_solver.
Defined.

Section JobsProperties.
Variable TaskJobData : Type.

Lemma getQueueByType_set_queue (queue : QueueType) (q : gmap string TaskJobData)
    (qs : queues TaskJobData) :
  getQueueByType queue (set_queue queue q qs) = q.
Proof. by destruct queue. Qed.

Lemma getQueueByType_set_queue_ne (queue other : QueueType) (q : gmap string TaskJobData)
    (qs : queues TaskJobData) :
  other <> queue ->
  getQueueByType other (set_queue queue q qs)
  = getQueueByType other qs.
Proof. by destruct queue, other. Qed.

Lemma removeTaskJob_from_missing (todo : list QueueType) (taskId : string)
    (qs : queues TaskJobData) (done : list queue_call) :
  (forall queue, queue ∈ todo -> getQueueByType queue qs !! taskId = None) ->
  removeTaskJob_from todo taskId qs done
  = {| remaining := qs; returned := false;
       calls := done ++ map (fun queue => GetJob queue taskId) todo |}.
Proof.
  revert done. induction todo as [|queue todo IH]; intros done Hnone.
  - cbn. by rewrite app_nil_r.
  - cbn [removeTaskJob_from]. rewrite Hnone by apply list_elem_of_here.
    rewrite IH by (intros q Hq; by apply Hnone, list_elem_of_further).
    cbn [map]. by rewrite <- app_assoc.
Qed.

Lemma removeTaskJob_from_found (before after : list QueueType) (queue : QueueType)
    (taskId : string) (qs : queues TaskJobData) (done : list queue_call) :
  (forall q, q ∈ before -> getQueueByType q qs !! taskId = None) ->
  is_Some (getQueueByType queue qs !! taskId) ->
  removeTaskJob_from (before ++ queue :: after) taskId qs done
  = {| remaining :=
         set_queue queue
           (delete taskId (getQueueByType queue qs)) qs;
       returned := true;
       calls := done ++ map (fun q => GetJob q taskId) before
                ++ [GetJob queue taskId; JobRemove queue taskId] |}.
Proof.
  revert done. induction before as [|q before IH]; intros done Hnone [job Hjob].
  - cbn [app removeTaskJob_from map]. by rewrite Hjob.
  - cbn [app removeTaskJob_from]. rewrite Hnone by apply list_elem_of_here.
    rewrite IH by (eauto using list_elem_of_further).
    cbn [map]. by rewrite <- app_assoc.
Qed.

(** C10: [removeTaskJob] asks the queues for the job in the order image,
    video, voice, text. At the first queue that holds a job of that id it
    removes that job, and only that one, and returns [true] without
    asking the queues after it; when no queue holds one it asks all four,
    changes nothing and returns [false]. *)
Theorem removeTaskJob_first_holder (taskId : string) (qs : queues TaskJobData) :
  ALL_QUEUES = [image; video; voice; text]
  /\ (forall before queue after,
        ALL_QUEUES = before ++ queue :: after ->
        (forall q, q ∈ before -> getQueueByType q qs !! taskId = None) ->
        is_Some (getQueueByType queue qs !! taskId) ->
        let r := removeTaskJob taskId qs in
        returned r = true
        /\ calls r = map (fun q => GetJob q taskId) before
                     ++ [GetJob queue taskId; JobRemove queue taskId]
        /\ getQueueByType queue (remaining r)
           = delete taskId (getQueueByType queue qs)
        /\ (forall other, other <> queue ->
             getQueueByType other (remaining r)
             = getQueueByType other qs))
  /\ ((forall queue, getQueueByType queue qs !! taskId = None) ->
      let r := removeTaskJob taskId qs in
      returned r = false
      /\ remaining r = qs
      /\ calls r = map (fun q => GetJob q taskId) ALL_QUEUES).
Proof.
  split; [done|]. split.
  - intros before queue after Hall Hnone Hsome r. subst r.
    unfold removeTaskJob. rewrite Hall.
    rewrite removeTaskJob_from_found by done. cbn [returned calls remaining app].
    split; [done|]. split; [done|].
    split; [apply getQueueByType_set_queue|].
    intros other Hne. by apply getQueueByType_set_queue_ne.
  - intros Hnone r. subst r. unfold removeTaskJob.
    by rewrite removeTaskJob_from_missing.
Qed.

End JobsProperties.

(** The job ["t1"] waits in the video and in the voice queue: the video
    queue loses it, the voice queue keeps it. *)
Lemma removeTaskJob_first_holder_witness :
  let r := removeTaskJob "t1" sample_queues in
  returned r = true
  /\ calls r = [GetJob image "t1"; GetJob video "t1"; JobRemove video "t1"]
  /\ videoQueue (remaining r) = delete "t1" (videoQueue sample_queues)
  /\ voiceQueue (remaining r) !! "t1" = Some "voice_line".
Proof.
  destruct (removeTaskJob_first_holder string "t1" sample_queues) as (_ & Hfound & _).
  destruct (Hfound [image] video [voice; text]) as (Hret & Hcalls & Hvideo & Hothers).
  - reflexivity.
  - intros q ->%list_elem_of_singleton. vm_compute. reflexivity.
  - exists "video_panel". vm_compute. reflexivity.
  - cbv zeta. split; [exact Hret|]. split; [exact Hcalls|]. split; [exact Hvideo|].
    change (voiceQueue ?x) with (getQueueByType voice x).
    rewrite Hothers by discriminate. vm_compute. reflexivity.
Defined.

Example removeTaskJob_unknown_id :
  returned (removeTaskJob "t9" sample_queues) = false
  /\ calls (removeTaskJob "t9" sample_queues)
     = [GetJob image "t9"; GetJob video "t9"; GetJob voice "t9"; GetJob text "t9"].
Proof. vm_compute. split; reflexivity. Qed.

End TaskQueuesProperties.

(* ===================================================================== *)
(** * Properties of the string helpers *)
(* ===================================================================== *)

Lemma trimStart_white (s : string) :
  trimStart s = EmptyString
  \/ exists c rest, trimStart s = String c rest /\ is_white_space c = false.
Proof.
  induction s as [|c s IH]; [by left|]. cbn [trimStart].
  destruct (is_white_space c) eqn:Hc; [done|]. right. eauto.
Qed.

Lemma trimStart_fixed (c : ascii) (rest : string) :
  is_white_space c = false -> trimStart (String c rest) = String c rest.
Proof. intros Hc. cbn [trimStart]. by rewrite Hc. Qed.

Lemma trimStart_idempotent (s : string) : trimStart (trimStart s) = trimStart s.
Proof.
  destruct (trimStart_white s) as [->|(c & rest & -> & Hc)]; [done|].
  by apply trimStart_fixed.
Qed.

(** What [trimStart] drops is a prefix. *)
Lemma trimStart_suffix (s : string) :
  exists dropped, s = String.append dropped (trimStart s).
Proof.
  induction s as [|c s [dropped IH]]; [by exists EmptyString|].
  cbn [trimStart]. destruct (is_white_space c).
  - exists (String c dropped).
    change (String c s = String c (String.append dropped (trimStart s))).
    by f_equal.
  - by exists EmptyString.
Qed.

Lemma reverse_string_involutive (s : string) : reverse_string (reverse_string s) = s.
Proof.
  unfold reverse_string.
  by rewrite String.list_ascii_of_string_of_list_ascii, rev_involutive,
    String.string_of_list_ascii_of_string.
Qed.

Lemma list_ascii_of_string_append (a b : string) :
  String.list_ascii_of_string (String.append a b)
  = String.list_ascii_of_string a ++ String.list_ascii_of_string b.
Proof.
  induction a as [|c a IH]; [done|].
  change (String c a +:+ b) with (String c (a +:+ b)). cbn. by f_equal.
Qed.

Lemma string_of_list_ascii_app (a b : list ascii) :
  String.string_of_list_ascii (a ++ b)
  = String.append (String.string_of_list_ascii a) (String.string_of_list_ascii b).
Proof.
  induction a as [|c a IH]; [done|]. cbn [app String.string_of_list_ascii].
  change (String c ?x +:+ ?y) with (String c (x +:+ y)). by f_equal.
Qed.

Lemma reverse_string_append (a b : string) :
  reverse_string (String.append a b)
  = String.append (reverse_string b) (reverse_string a).
Proof.
  unfold reverse_string.
  by rewrite list_ascii_of_string_append, rev_app_distr, string_of_list_ascii_app.
Qed.

(** A string is trimmed when neither end is white space. *)
Lemma trim_fixed (s : string) :
  trimStart s = s -> trimStart (reverse_string s) = reverse_string s -> trim s = s.
Proof.
  intros Hstart Hend. unfold trim.
  by rewrite Hstart, Hend, reverse_string_involutive.
Qed.

Lemma trim_ends (s : string) :
  trimStart (trim s) = trim s
  /\ trimStart (reverse_string (trim s)) = reverse_string (trim s).
Proof.
  unfold trim. set (a := trimStart s). set (u := trimStart (reverse_string a)).
  split; [|by rewrite reverse_string_involutive; apply trimStart_idempotent].
  destruct (trimStart_suffix (reverse_string a)) as [w Hw]. fold u in Hw.
  assert (Ha : a = String.append (reverse_string u) (reverse_string w)).
  { by rewrite <- reverse_string_append, <- Hw, reverse_string_involutive. }
  destruct (reverse_string u) as [|c r] eqn:Hu; [done|].
  apply trimStart_fixed.
  destruct (trimStart_white s) as [Hempty|(c' & rest & Hs & Hc)]; fold a in Hempty || fold a in Hs.
  - by rewrite Hempty in Ha.
  - rewrite Hs in Ha. cbn in Ha. by injection Ha as -> _.
Qed.

Lemma trim_idempotent (s : string) : trim (trim s) = trim s.
Proof. destruct (trim_ends s). by apply trim_fixed. Qed.

Lemma startsWith_spec (s search : string) :
  startsWith s search = true <-> exists rest, s = String.append search rest.
Proof.
  revert s. induction search as [|p search IH]; intros s.
  - split; [intros _; by exists s|]. by destruct s.
  - destruct s as [|c s]; cbn [startsWith].
    + split; [done|]. by intros [rest Hrest].
    + rewrite andb_true_iff, Ascii.eqb_eq, IH. split.
      * intros [-> [rest ->]]. by exists rest.
      * intros [rest Hrest].
        change (String p search +:+ rest) with (String p (search +:+ rest)) in Hrest.
        injection Hrest as -> ->. eauto.
Qed.

Lemma startsWith_empty (s : string) : startsWith s EmptyString = true.
Proof. by destruct s. Qed.

Lemma append_assoc (a b c : string) : (a +:+ b) +:+ c = a +:+ (b +:+ c).
Proof.
  induction a as [|x a IH]; [done|].
  change (String x ((a +:+ b) +:+ c) = String x (a +:+ (b +:+ c))). by f_equal.
Qed.

(** [includes] is the substring test. *)
Lemma includes_spec (s search : string) :
  includes s search = true
  <-> exists before after, s = String.append before (String.append search after).
Proof.
  induction s as [|c s IH]; cbn [includes]; rewrite orb_true_iff, startsWith_spec.
  - split.
    + intros [[rest Hrest]|Hno]; [|done]. by exists EmptyString, rest.
    + intros ([|b before] & after & Heq).
      * left. by exists after.
      * done.
  - rewrite IH. split.
    + intros [[rest Hrest]|(before & after & Heq)].
      * by exists EmptyString, rest.
      * exists (String c before), after. by rewrite Heq.
    + intros ([|b before] & after & Heq).
      * left. by exists after.
      * right. exists before, after.
        change (String b before +:+ (search +:+ after))
          with (String b (before +:+ (search +:+ after))) in Heq.
        by injection Heq as _ ->.
Qed.

Lemma trim_not_empty_head (s : string) :
  trim s <> EmptyString ->
  exists c rest, trim s = String c rest /\ is_white_space c = false.
Proof.
  intros Hne. destruct (trim_ends s) as [Hstart _].
  destruct (trimStart_white (trim s)) as [Hempty|(c & rest & Heq & Hc)].
  - rewrite Hstart in Hempty. by destruct Hne.
  - rewrite Hstart in Heq. eauto.
Qed.

(** A trimmed, non-empty string stays trimmed behind a prefix that does
    not start with white space. *)
Lemma trim_prefixed (c : ascii) (p s : string) :
  is_white_space c = false -> trim s <> EmptyString ->
  trim (String c p +:+ trim s) = String c p +:+ trim s.
Proof.
  intros Hc Hne. apply trim_fixed.
  - by apply trimStart_fixed.
  - rewrite reverse_string_append.
    destruct (trim_ends s) as [_ Hend].
    destruct (trimStart_white (reverse_string (trim s))) as [Hempty|(x & rest & Heq & Hx)].
    + rewrite Hend in Hempty. exfalso. apply Hne.
      by rewrite <- (reverse_string_involutive (trim s)), Hempty.
    + rewrite Hend in Heq. rewrite Heq.
      change (String x rest +:+ ?y) with (String x (rest +:+ y)).
      by apply trimStart_fixed.
Qed.

(* ===================================================================== *)
(** * Properties of the voice ids *)
(* ===================================================================== *)

Module QwenVoiceIdProperties.
Import QwenVoiceId.

Lemma encode_prefixed (voice : string) (modelId : option string) (f : QwenVoiceModelFamily) :
  trim voice <> EmptyString ->
  startsWith (trim voice) "vd:" = false ->
  startsWith (trim voice) "vc:" = false ->
  resolveQwenVoiceModelFamily modelId = Some f ->
  encodeQwenVoiceIdWithModel voice modelId
  = family_text f +:+ ":" +:+ trim voice.
Proof.
  intros Hne Hvd Hvc Hf. unfold encodeQwenVoiceIdWithModel. cbv zeta.
  cbn [readTrimmedString]. rewrite decide_False by done.
  by rewrite Hvd, Hvc, Hf.
Qed.

Lemma parse_prefixed (f : QwenVoiceModelFamily) (s : string) :
  trim s <> EmptyString ->
  parseQwenVoiceId (Some (family_text f +:+ ":" +:+ trim s))
  = Some {| voiceId := trim s; family := Some f |}.
Proof.
  intros Hne. unfold parseQwenVoiceId. cbv zeta. cbn [of_nullable readTrimmedString].
  destruct f; cbn [family_text].
  - change ("vd" +:+ ":" +:+ trim s) with (String "v" "d:" +:+ trim s).
    rewrite trim_prefixed; [|vm_compute; reflexivity|done].
    change (String "v" "d:" +:+ trim s) with (String "v" (String "d" (String ":" (trim s)))).
    rewrite decide_False by done. cbn [startsWith Ascii.eqb Bool.eqb andb string_slice_from].
    rewrite startsWith_empty, trim_idempotent. by rewrite decide_False.
  - change ("vc" +:+ ":" +:+ trim s) with (String "v" "c:" +:+ trim s).
    rewrite trim_prefixed; [|vm_compute; reflexivity|done].
    change (String "v" "c:" +:+ trim s) with (String "v" (String "c" (String ":" (trim s)))).
    rewrite decide_False by done. cbn [startsWith Ascii.eqb Bool.eqb andb string_slice_from].
    rewrite startsWith_empty, trim_idempotent. by rewrite decide_False.
Qed.

(** Parsing an encoded voice id gives back the trimmed id and the family
    of the model it was encoded with. *)
Theorem parse_encode_round_trip
    (voice : string) (modelId : option string) (f : QwenVoiceModelFamily) :
  trim voice <> EmptyString ->
  startsWith (trim voice) "vd:" = false ->
  startsWith (trim voice) "vc:" = false ->
  resolveQwenVoiceModelFamily modelId = Some f ->
  parseQwenVoiceId (Some (encodeQwenVoiceIdWithModel voice modelId))
  = Some {| voiceId := trim voice; family := Some f |}.
Proof.
  intros Hne Hvd Hvc Hf. rewrite (encode_prefixed voice modelId f) by done.
  by apply parse_prefixed.
Qed.

(** An instance: a designed voice for a [tts-vd] model. *)
Lemma parse_encode_round_trip_witness :
  parseQwenVoiceId (Some (encodeQwenVoiceIdWithModel " aurora " (Some "Qwen3-TTS-VD-Realtime")))
  = Some {| voiceId := "aurora"; family := Some vd |}.
Proof.
  apply (parse_encode_round_trip " aurora " (Some "Qwen3-TTS-VD-Realtime") vd);
    vm_compute; congruence.
Defined.

Lemma startsWith_family (f : QwenVoiceModelFamily) (s : string) :
  startsWith (family_text f +:+ ":" +:+ s) "vd:"
  || startsWith (family_text f +:+ ":" +:+ s) "vc:" = true.
Proof.
  apply orb_true_iff. destruct f; [left|right]; apply startsWith_spec; by exists s.
Qed.

(** Encoding is idempotent, and an id that carries a family keeps it
    whatever model it is encoded with again. *)
Theorem encode_idempotent (voice : string) (modelId again : option string) :
  encodeQwenVoiceIdWithModel (encodeQwenVoiceIdWithModel voice modelId) modelId
  = encodeQwenVoiceIdWithModel voice modelId
  /\ (resolveQwenVoiceModelFamily modelId <> None ->
      encodeQwenVoiceIdWithModel (encodeQwenVoiceIdWithModel voice modelId) again
      = encodeQwenVoiceIdWithModel voice modelId).
Proof.
  assert (Hkept : forall m, startsWith (trim voice) "vd:" || startsWith (trim voice) "vc:" = true ->
            trim voice <> EmptyString ->
            encodeQwenVoiceIdWithModel (trim voice) m = trim voice).
  { intros m Hpre Hne. unfold encodeQwenVoiceIdWithModel. cbv zeta.
    cbn [readTrimmedString]. rewrite trim_idempotent, decide_False by done.
    by rewrite Hpre. }
  assert (Hfam : forall f m, trim voice <> EmptyString ->
            encodeQwenVoiceIdWithModel (family_text f +:+ ":" +:+ trim voice) m
            = family_text f +:+ ":" +:+ trim voice).
  { intros f m Hne. unfold encodeQwenVoiceIdWithModel. cbv zeta.
    cbn [readTrimmedString].
    assert (Htrim : trim (family_text f +:+ ":" +:+ trim voice)
                    = family_text f +:+ ":" +:+ trim voice).
    { destruct f; cbn [family_text].
      - change ("vd" +:+ ":" +:+ trim voice) with (String "v" "d:" +:+ trim voice).
        apply trim_prefixed; [vm_compute; reflexivity|done].
      - change ("vc" +:+ ":" +:+ trim voice) with (String "v" "c:" +:+ trim voice).
        apply trim_prefixed; [vm_compute; reflexivity|done]. }
    rewrite Htrim, startsWith_family.
    rewrite decide_False; [done|]. by destruct f. }
  assert (Henc : encodeQwenVoiceIdWithModel voice modelId
                 = if decide (trim voice = EmptyString) then trim voice
                   else if startsWith (trim voice) "vd:" || startsWith (trim voice) "vc:"
                        then trim voice
                        else match resolveQwenVoiceModelFamily modelId with
                             | None => trim voice
                             | Some f => family_text f +:+ ":" +:+ trim voice
                             end) by reflexivity.
  rewrite Henc. clear Henc.
  destruct (decide (trim voice = EmptyString)) as [Hempty|Hne].
  { rewrite Hempty. split; [reflexivity|]. intros _. reflexivity. }
  destruct (startsWith (trim voice) "vd:" || startsWith (trim voice) "vc:") eqn:Hpre.
  { split; [|intros _]; by apply Hkept. }
  destruct (resolveQwenVoiceModelFamily modelId) as [f|] eqn:Hf.
  - split; [|intros _]; by apply Hfam.
  - split; [|done]. unfold encodeQwenVoiceIdWithModel. cbv zeta.
    cbn [readTrimmedString]. rewrite trim_idempotent, decide_False by done.
    by rewrite Hpre, Hf.
Qed.

(** A parsed voice id is never blank and is trimmed. Its family is the
    one of its [vd:] or [vc:] prefix when it has one, whatever the rest
    says, and otherwise the family its own text names, if any. Only a
    blank id, or a prefix with nothing behind it, is refused. *)
Theorem parsed_voice_id_well_formed (rawVoiceId : option string) :
  let normalized := readTrimmedString (of_nullable rawVoiceId) in
  (forall parsed,
     parseQwenVoiceId rawVoiceId = Some parsed ->
     voiceId parsed <> EmptyString
     /\ trim (voiceId parsed) = voiceId parsed
     /\ (startsWith normalized "vd:" = true -> family parsed = Some vd)
     /\ (startsWith normalized "vd:" = false -> startsWith normalized "vc:" = true ->
         family parsed = Some vc)
     /\ (startsWith normalized "vd:" = false -> startsWith normalized "vc:" = false ->
         voiceId parsed = normalized
         /\ family parsed = resolveQwenVoiceModelFamily (Some normalized)))
  /\ (parseQwenVoiceId rawVoiceId = None
      <-> normalized = EmptyString
          \/ ((startsWith normalized "vd:" = true \/ startsWith normalized "vc:" = true)
              /\ trim (string_slice_from 3 normalized) = EmptyString)).
Proof.
  intros normalized.
  assert (Htrimmed : trim normalized = normalized).
  { unfold normalized. destruct rawVoiceId; [apply trim_idempotent|reflexivity]. }
  unfold parseQwenVoiceId. cbv zeta. fold normalized.
  destruct (decide (normalized = EmptyString)) as [Hempty|Hne].
  { split; [done|]. split; [by left|done]. }
  destruct (startsWith normalized "vd:") eqn:Hvd;
    [|destruct (startsWith normalized "vc:") eqn:Hvc].
  - destruct (decide (trim (string_slice_from 3 normalized) = EmptyString)) as [Hblank|Hpayload].
    + split; [done|]. split; [intros _; right; eauto|done].
    + split.
      * intros parsed [= <-]. cbn [voiceId family].
        repeat split; try done. apply trim_idempotent.
      * split; [done|]. intros [?|[_ ?]]; done.
  - destruct (decide (trim (string_slice_from 3 normalized) = EmptyString)) as [Hblank|Hpayload].
    + split; [done|]. split; [intros _; right; eauto|done].
    + split.
      * intros parsed [= <-]. cbn [voiceId family].
        repeat split; try done. apply trim_idempotent.
      * split; [done|]. intros [?|[_ ?]]; done.
  - split.
    + intros parsed [= <-]. cbn [voiceId family]. repeat split; done.
    + split; [done|]. intros [?|[[?|?] _]]; done.
Qed.

End QwenVoiceIdProperties.

(* ===================================================================== *)
(** * Properties of the speaker match and of the length estimate *)
(* ===================================================================== *)

Lemma find_none_iff {A : Type} (f : A -> bool) (l : list A) :
  List.find f l = None <-> forall x, x ∈ l -> f x = false.
Proof.
  split.
  - intros Hnone x Hin. apply (find_none f l Hnone). by apply list_elem_of_In.
  - induction l as [|a l IH]; [done|]. intros Hall. cbn [List.find].
    rewrite (Hall a) by apply list_elem_of_here.
    apply IH. intros x Hin. by apply Hall, list_elem_of_further.
Qed.

Lemma find_first {A : Type} (f : A -> bool) (l : list A) (x : A) :
  List.find f l = Some x ->
  exists before after,
    l = before ++ x :: after /\ f x = true /\ forall y, y ∈ before -> f y = false.
Proof.
  induction l as [|a l IH]; [done|]. cbn [List.find].
  destruct (f a) eqn:Ha.
  - intros [= <-]. exists [], l. split; [done|]. split; [done|].
    by intros y ?%elem_of_nil.
  - intros (before & after & -> & Hx & Hbefore)%IH.
    exists (a :: before), after. split; [done|]. split; [done|].
    intros y [->|Hin]%elem_of_cons; [done|by apply Hbefore].
Qed.

Lemma append_nil_r_local (s : string) : s +:+ EmptyString = s.
Proof.
  induction s as [|c s IH]; [done|].
  change (String c (s +:+ EmptyString) = String c s). by f_equal.
Qed.

Lemma includes_refl (s : string) : includes s s = true.
Proof. apply includes_spec. exists EmptyString, EmptyString. by rewrite append_nil_r_local. Qed.

(** A character named exactly as the speaker wins over every character
    that only contains, or is contained in, the speaker's name, wherever
    it stands in the list; the match is the first such character. Without
    an exact match the first character whose name contains the speaker,
    or is contained in it, is taken. *)
Theorem matchCharacterBySpeaker_exact_first (speaker : string) (characters : list character) :
  (forall named,
     named ∈ characters -> character_name named = speaker ->
     exists before after found,
       matchCharacterBySpeaker speaker characters = Some found
       /\ characters = before ++ found :: after
       /\ character_name found = speaker
       /\ forall c, c ∈ before -> character_name c <> speaker)
  /\ ((forall c, c ∈ characters -> character_name c <> speaker) ->
      forall found,
        matchCharacterBySpeaker speaker characters = Some found ->
        exists before after,
          characters = before ++ found :: after
          /\ (includes (character_name found) speaker = true
              \/ includes speaker (character_name found) = true)
          /\ forall c, c ∈ before ->
               includes (character_name c) speaker = false
               /\ includes speaker (character_name c) = false).
Proof.
  unfold matchCharacterBySpeaker. split.
  - intros named Hin Hname.
    destruct (List.find _ characters) as [found|] eqn:Hfind.
    + destruct (find_first _ _ _ Hfind) as (before & after & Heq & Hfound & Hbefore).
      exists before, after, found. split; [done|]. split; [done|].
      split; [by apply bool_decide_eq_true in Hfound|].
      intros c Hc. apply Hbefore in Hc. by apply bool_decide_eq_false in Hc.
    + exfalso. apply find_none_iff with (x := named) in Hfind; [|done].
      by apply bool_decide_eq_false in Hfind.
  - intros Hnone found.
    destruct (List.find (fun c => bool_decide (character_name c = speaker)) characters)
      as [exact|] eqn:Hexact.
    + apply find_first in Hexact as (before & after & -> & Hx & _).
      apply bool_decide_eq_true in Hx. exfalso.
      apply (Hnone exact); [|done]. apply elem_of_app. right. apply list_elem_of_here.
    + intros (before & after & Heq & Hfound & Hbefore)%find_first.
      exists before, after. split; [done|].
      split; [by apply orb_true_iff|].
      intros c Hc. apply Hbefore in Hc. by apply orb_false_iff.
Qed.

(** An instance: the exact name stands behind a longer one. *)
Lemma matchCharacterBySpeaker_exact_first_witness :
  exists before after found,
    matchCharacterBySpeaker "Ann"
      [ {| character_name := "Annabel"; character_voiceId := None |};
        {| character_name := "Ann"; character_voiceId := Some "vd:ann" |} ]
    = Some found
    /\ [ {| character_name := "Annabel"; character_voiceId := None |};
         {| character_name := "Ann"; character_voiceId := Some "vd:ann" |} ]
       = before ++ found :: after
    /\ character_name found = "Ann"
    /\ forall c, c ∈ before -> character_name c <> "Ann".
Proof.
  destruct (matchCharacterBySpeaker_exact_first "Ann"
              [ {| character_name := "Annabel"; character_voiceId := None |};
                {| character_name := "Ann"; character_voiceId := Some "vd:ann" |} ])
    as [Hexact _].
  apply (Hexact {| character_name := "Ann"; character_voiceId := Some "vd:ann" |}).
  - apply list_elem_of_further, list_elem_of_here.
  - reflexivity.
Defined.

(** No character is matched exactly when no name contains the speaker's
    and none is contained in it. So an empty speaker, and a character
    with an empty name, always find a match. *)
Theorem matchCharacterBySpeaker_none (speaker : string) (characters : list character) :
  (matchCharacterBySpeaker speaker characters = None
   <-> forall c, c ∈ characters ->
         includes (character_name c) speaker = false
         /\ includes speaker (character_name c) = false)
  /\ (speaker = EmptyString -> characters <> [] ->
      is_Some (matchCharacterBySpeaker speaker characters))
  /\ (forall c, c ∈ characters -> character_name c = EmptyString ->
      is_Some (matchCharacterBySpeaker speaker characters)).
Proof.
  assert (Hiff : matchCharacterBySpeaker speaker characters = None
                 <-> forall c, c ∈ characters ->
                       includes (character_name c) speaker = false
                       /\ includes speaker (character_name c) = false).
  { unfold matchCharacterBySpeaker. split.
    - destruct (List.find (fun c => bool_decide (character_name c = speaker)) characters);
        [done|].
      intros Hnone c Hc. apply orb_false_iff. by apply (proj1 (find_none_iff _ _) Hnone).
    - intros Hall.
      assert (Hfuzzy : List.find (fun c => includes (character_name c) speaker
                                          || includes speaker (character_name c)) characters
                       = None).
      { apply find_none_iff. intros c Hc. apply orb_false_iff. by apply Hall. }
      destruct (List.find (fun c => bool_decide (character_name c = speaker)) characters)
        as [exact|] eqn:Hexact; [|done].
      apply find_first in Hexact as (before & after & -> & Hx & _).
      apply bool_decide_eq_true in Hx.
      destruct (Hall exact) as [Hcontains _].
      { apply elem_of_app. right. apply list_elem_of_here. }
      by rewrite Hx, includes_refl in Hcontains. }
  split; [done|]. split.
  - intros -> Hne. apply not_eq_None_Some. rewrite Hiff. intros Hall.
    destruct characters as [|c rest]; [done|].
    destruct (Hall c) as [Hcontains _]; [apply list_elem_of_here|].
    assert (includes (character_name c) EmptyString = true) as Htrue; [|congruence].
    apply includes_spec. by exists EmptyString, (character_name c).
  - intros c Hc Hname. apply not_eq_None_Some. rewrite Hiff. intros Hall.
    destruct (Hall c Hc) as [_ Hcontained]. rewrite Hname in Hcontained.
    assert (includes speaker EmptyString = true) as Htrue; [|congruence].
    apply includes_spec. by exists EmptyString, speaker.
Qed.

Lemma Math_ceil_half (n : Z) : Math_ceil (inject_Z n / 2)%Q = (n + 1) / 2.
Proof.
  unfold Math_ceil, Qceiling, Qfloor, Qopp, Qdiv, Qmult, Qinv, inject_Z. cbn.
  rewrite Z.mul_1_r. Z.div_mod_to_equations. lia.
Qed.

(** The estimate is [max(5, ceil(chars / 2))] in whole numbers: at least
    five seconds, at least half a second per character, and never
    smaller for a longer line. *)
Theorem estimateVoiceLineMaxSeconds_bounds (content longer : string) :
  estimateVoiceLineMaxSeconds None = 5
  /\ estimateVoiceLineMaxSeconds (Some content)
     = Z.max 5 ((Z.of_nat (String.length content) + 1) / 2)
  /\ 5 <= estimateVoiceLineMaxSeconds (Some content)
  /\ Z.of_nat (String.length content) <= 2 * estimateVoiceLineMaxSeconds (Some content)
  /\ ((String.length content <= String.length longer)%nat ->
      estimateVoiceLineMaxSeconds (Some content)
      <= estimateVoiceLineMaxSeconds (Some longer)).
Proof.
  unfold estimateVoiceLineMaxSeconds. rewrite !Math_ceil_half.
  split; [reflexivity|]. split; [reflexivity|].
  split; [lia|]. split.
  - Z.div_mod_to_equations. lia.
  - intros Hle. apply Z.max_le_compat_l. apply Z.div_le_mono; lia.
Qed.

(* ===================================================================== *)
(** * More on the audio container helpers *)
(* ===================================================================== *)

Lemma getWavDurationFromBuffer_nonneg (buffer : Buffer) :
  0 <= getWavDurationFromBuffer buffer.
Proof.
  pose proof (bitrate_estimate_nonneg buffer) as Hest.
  unfold getWavDurationFromBuffer, getWavDurationFromBuffer_try.
  case_decide; [done|].
  destruct (readUInt32LE buffer 28) as [byteRate|]; [|done].
  destruct (scan_chunks buffer 12) as [dataSize|]; [|done].
  cbn [mbind option_bind]. case_decide; [|done].
  apply Math_round_nonneg, ratio_ms_nonneg; lia.
Qed.

Lemma wrapPcm16MonoToWav_out_of_range (pcm : Buffer) (sampleRate : Z) :
  sampleRate < 0 \/ 4294967295 < sampleRate * 2 \/ 4294967295 < 36 + buffer_length pcm ->
  wrapPcm16MonoToWav pcm sampleRate = None.
Proof.
  intros Hout.
  assert (0 <= buffer_length pcm) by (unfold buffer_length; lia).
  unfold wrapPcm16MonoToWav, writeUInt32LE, writeUInt16LE.
  change (1 * 16 / 8) with 2.
  repeat case_decide; try lia; reflexivity.
Qed.

(** [wrapPcm16MonoToWav] raises exactly when the sample rate is negative
    or a size field overflows its 32 bits (the byte rate [2 * sampleRate]
    or the total size [36 + len]); in every other case it returns the 44
    header bytes followed by the samples, untouched. *)
Theorem wrapPcm16MonoToWav_raises (pcm : Buffer) (sampleRate : Z) :
  (wrapPcm16MonoToWav pcm sampleRate = None
   <-> sampleRate < 0 \/ 4294967295 < sampleRate * 2
       \/ 4294967295 < 36 + buffer_length pcm)
  /\ (forall wav,
        wrapPcm16MonoToWav pcm sampleRate = Some wav ->
        wav = wav_header (buffer_length pcm) sampleRate ++ pcm
        /\ take 44 wav = wav_header (buffer_length pcm) sampleRate
        /\ drop 44 wav = pcm).
Proof.
  destruct (decide (sampleRate < 0 \/ 4294967295 < sampleRate * 2
                    \/ 4294967295 < 36 + buffer_length pcm)) as [Hout|Hin].
  - rewrite wrapPcm16MonoToWav_out_of_range by done. split; [done|]. by intros wav.
  - rewrite wrapPcm16MonoToWav_header by lia. split; [done|].
    intros wav [= <-]. split; [done|]. split; reflexivity.
Qed.

Lemma normalizeQwenAudioToWav_container (rawAudio wavAudio : Buffer) (sampleRate : Z) :
  normalizeQwenAudioToWav rawAudio sampleRate = Some wavAudio ->
  isWavBuffer wavAudio = true
  /\ (isWavBuffer rawAudio = true -> wavAudio = rawAudio)
  /\ (isWavBuffer rawAudio = false ->
      wavAudio = wav_header (buffer_length rawAudio) sampleRate ++ rawAudio).
Proof.
  unfold normalizeQwenAudioToWav. destruct (isWavBuffer rawAudio) eqn:Hwav.
  - by intros [= <-].
  - intros Hwrap.
    destruct (decide (sampleRate < 0 \/ 4294967295 < sampleRate * 2
                      \/ 4294967295 < 36 + buffer_length rawAudio)) as [Hout|Hin].
    + by rewrite wrapPcm16MonoToWav_out_of_range in Hwrap.
    + rewrite wrapPcm16MonoToWav_header in Hwrap by lia. injection Hwrap as <-.
      split; [|done]. apply wrapped_isWavBuffer.
Qed.

(** Whatever [normalizeQwenAudioToWav] returns is a container
    ([isWavBuffer] accepts it), normalizing it again changes nothing, and
    the input is kept: returned as it is when it is a container already,
    and otherwise placed behind a 44-byte header. *)
Theorem normalizeQwenAudioToWav_idempotent
    (rawAudio wavAudio : Buffer) (sampleRate again : Z) :
  normalizeQwenAudioToWav rawAudio sampleRate = Some wavAudio ->
  isWavBuffer wavAudio = true
  /\ normalizeQwenAudioToWav wavAudio again = Some wavAudio
  /\ (isWavBuffer rawAudio = true -> wavAudio = rawAudio)
  /\ (isWavBuffer rawAudio = false ->
      drop 44 wavAudio = rawAudio
      /\ buffer_length wavAudio = 44 + buffer_length rawAudio).
Proof.
  intros Hnorm.
  destruct (normalizeQwenAudioToWav_container _ _ _ Hnorm) as (Hwav & Hsame & Hwrapped).
  split; [done|]. split; [unfold normalizeQwenAudioToWav; by rewrite Hwav|].
  split; [done|]. intros Hraw. rewrite (Hwrapped Hraw).
  split; [reflexivity|]. apply wrapped_length.
Qed.

(** An instance: four raw bytes at 24 kHz. *)
Lemma normalizeQwenAudioToWav_idempotent_witness :
  isWavBuffer (wav_header 4 24000 ++ [x01; x02; x03; x04]) = true
  /\ normalizeQwenAudioToWav (wav_header 4 24000 ++ [x01; x02; x03; x04]) 8000
     = Some (wav_header 4 24000 ++ [x01; x02; x03; x04])
  /\ (isWavBuffer [x01; x02; x03; x04] = true ->
      wav_header 4 24000 ++ [x01; x02; x03; x04] = [x01; x02; x03; x04])
  /\ (isWavBuffer [x01; x02; x03; x04] = false ->
      drop 44 (wav_header 4 24000 ++ [x01; x02; x03; x04]) = [x01; x02; x03; x04]
      /\ buffer_length (wav_header 4 24000 ++ [x01; x02; x03; x04])
         = 44 + buffer_length [x01; x02; x03; x04]).
Proof.
  apply (normalizeQwenAudioToWav_idempotent [x01; x02; x03; x04]
           (wav_header 4 24000 ++ [x01; x02; x03; x04]) 24000 8000).
  vm_compute. reflexivity.
Defined.

Section DeclaredSize.
Variables (declared sampleRate : Z) (tail : Buffer).
Hypothesis declared_fits : 0 <= declared /\ 36 + declared <= 4294967295.
Hypothesis rate_positive : 0 < sampleRate.
Hypothesis rate_fits : sampleRate * 2 <= 4294967295.

Let wav := wav_header declared sampleRate ++ tail.

Lemma declared_length : buffer_length wav = 44 + buffer_length tail.
Proof. unfold wav, buffer_length. rewrite length_app, wav_header_length. lia. Qed.

Lemma declared_scan :
  scan_chunks wav 12
  = if decide (0 < buffer_length tail) then Some (Z.to_N declared) else Some 0%N.
Proof.
  assert (0 <= buffer_length tail) by (unfold buffer_length; lia).
  rewrite scan_chunks_eq, declared_length.
  rewrite decide_True by lia.
  replace (readUInt32LE wav (12 + 4)) with (Some (Z.to_N 16))
    by (symmetry; eapply readUInt32LE_drop; [lia|lia|reflexivity]).
  change (toString_ascii (slice wav 12 (12 + 4))) with "fmt ".
  rewrite decide_False by discriminate.
  change (12 + 8 + Z.of_N (Z.to_N 16)) with 36.
  rewrite scan_chunks_eq, declared_length.
  destruct (decide (0 < buffer_length tail)).
  - rewrite decide_True by lia.
    change (36 + 4) with 40.
    replace (readUInt32LE wav 40) with (Some (Z.to_N declared))
      by (symmetry; eapply readUInt32LE_drop; [lia|lia|reflexivity]).
    change (toString_ascii (slice wav 36 40)) with "data".
    by rewrite decide_True.
  - by rewrite decide_False by lia.
Qed.

Lemma declared_duration :
  getWavDurationFromBuffer wav
  = if decide (0 < buffer_length tail /\ 0 < declared)
    then Math_round (double_mul (double_div (inject_Z declared)
                                            (inject_Z (sampleRate * 2))) 1000)
    else bitrate_estimate wav.
Proof.
  unfold getWavDurationFromBuffer, getWavDurationFromBuffer_try.
  change (toString_ascii (slice wav 0 4)) with "RIFF".
  rewrite decide_False by (intros Hne; by apply Hne).
  replace (readUInt32LE wav 28) with (Some (Z.to_N (sampleRate * 2)))
    by (symmetry; eapply readUInt32LE_drop; [lia|lia|reflexivity]).
  rewrite declared_scan.
  destruct (decide (0 < buffer_length tail)); cbn [mbind option_bind].
  - destruct (decide (0 < declared)).
    + rewrite decide_True by lia. rewrite decide_True by lia.
      rewrite !Z2N.id by lia. reflexivity.
    + rewrite decide_False by lia. by rewrite decide_False by lia.
  - rewrite decide_False by lia. by rewrite decide_False by lia.
Qed.
End DeclaredSize.

(** The duration follows the size the data chunk declares, not the number
    of sample bytes the buffer holds: behind a canonical header that
    declares [declared > 0] bytes, any non-empty rest, shorter or longer
    than declared, gives [Math.round((declared / (2 * sampleRate)) *
    1000)] as doubles compute it, whatever the rest is. *)
Theorem duration_follows_declared_size (declared sampleRate : Z) (tail : Buffer) :
  0 < declared -> 36 + declared <= 4294967295 ->
  0 < sampleRate -> sampleRate * 2 <= 4294967295 ->
  tail <> [] ->
  getWavDurationFromBuffer (wav_header declared sampleRate ++ tail)
  = Math_round (double_mul (double_div (inject_Z declared)
                                       (inject_Z (sampleRate * 2))) 1000).
Proof.
  intros Hd Hfits Hsr Hrate Htail. rewrite declared_duration by lia.
  apply decide_True. split; [|done].
  unfold buffer_length. destruct tail; [done|simpl; lia].
Qed.

(** An instance: one sample byte behind a header that declares 24024
    bytes at 24 kHz. The quotient 0.5005 is not a double, and the product
    of the nearest double by 1000 is just under 500.5. *)
Lemma duration_follows_declared_size_witness :
  getWavDurationFromBuffer (wav_header 24024 24000 ++ [x00]) = 500.
Proof.
  rewrite (duration_follows_declared_size 24024 24000 [x00]);
    [vm_compute; reflexivity|lia|lia|lia|lia|discriminate].
Defined.


(** A value halfway between two integers goes down in one buffer and up
    in another: 24024 bytes at 48000 bytes per second are 500.5 ms and
    read 500, 1 byte at 2000 bytes per second is 0.5 ms and reads 1. *)
Example duration_of_a_half :
  getWavDurationFromBuffer (wav_header 24024 24000 ++ [x00]) = 500
  /\ (2000 * 24024 + 48000) / (2 * 48000) = 501
  /\ getWavDurationFromBuffer (wav_header 1 1000 ++ [x00]) = 1
  /\ (2000 * 1 + 2000) / (2 * 2000) = 1.
Proof. vm_compute. by repeat split. Qed.

(* ===================================================================== *)
(** * More on the realtime session *)
(* ===================================================================== *)

Lemma extends_refl (s : session) : extends s s.
Proof. split; exists []; by rewrite app_nil_r. Qed.

Lemma extends_trans (s1 s2 s3 : session) : extends s1 s2 -> extends s2 s3 -> extends s1 s3.
Proof.
  intros [[n1 H1] [a1 H1']] [[n2 H2] [a2 H2']]. split.
  - exists (n1 ++ n2). by rewrite H2, H1, app_assoc.
  - exists (a1 ++ a2). by rewrite H2', H1', app_assoc.
Qed.

Lemma extends_perform (es : list effect) (s : session) : extends s (perform es s).
Proof. split; [by exists es|]. exists []. by rewrite app_nil_r. Qed.

Lemma extends_same_trace (s s' : session) :
  effects s' = effects s -> audioChunks s' = audioChunks s -> extends s s'.
Proof. intros He Hc. split; exists []; by rewrite app_nil_r. Qed.

Lemma extends_fail (error : tts_error) (s : session) : extends s (fail error s).
Proof.
  unfold fail. destruct (settled s); [apply extends_refl|].
  split; [by eexists|]. exists []. by rewrite app_nil_r.
Qed.

Lemma extends_finish (s : session) : extends s (finish s).
Proof.
  unfold finish. destruct (settled s); [apply extends_refl|]. cbv zeta.
  repeat first [case_decide | case_match];
    (split; [cbn [perform set_settled effects]; rewrite <- ?app_assoc; by eexists
            |exists []; by rewrite app_nil_r]).
Qed.

Lemma extends_push (chunk : Buffer) (s : session) : extends s (push_chunk chunk s).
Proof. split; [exists []; by rewrite app_nil_r|by exists [chunk]]. Qed.

Lemma close_codes_perform (es : list effect) (s : session) :
  close_codes (perform es s)
  = close_codes s
    ++ omap (fun e => match e with WsClose code => Some code | _ => None end) es.
Proof. unfold close_codes. cbn. apply omap_app. Qed.

Lemma fulfilled_from_extends (result : audio_result) (s s' : session) :
  extends s s' -> fulfilled_from result s -> fulfilled_from result s'.
Proof.
  intros [[new Hnew] [added Hadded]] (Hwav & Hduration & Hclose & chunks & later & H1 & H2 & H3).
  split; [done|]. split; [done|]. split.
  - rewrite Hnew. apply elem_of_app. by left.
  - exists chunks, (later ++ added). split; [done|]. split; [|done].
    by rewrite Hadded, H2, app_assoc.
Qed.

(** A state with the settlements, the close codes and the [settled] flag
    of [s], reached from [s]. *)
Lemma session_inv_same (s s' : session) :
  extends s s' -> settlements s' = settlements s -> close_codes s' = close_codes s ->
  settled s' = settled s -> session_inv s -> session_inv s'.
Proof.
  intros Hext Hsett Hclose Hflag (Hun & Hone & Hcl & Hful & Hrej).
  unfold session_inv. rewrite Hsett, Hclose, Hflag.
  split; [done|]. split; [done|]. split; [done|]. split; [|done].
  intros result Hin. destruct (Hful result Hin) as [Hfrom ?].
  split; [|done]. by apply (fulfilled_from_extends result s).
Qed.

Lemma session_inv_fail (error : tts_error) (s : session) :
  session_inv s -> session_inv (fail error s).
Proof.
  intros Hinv. destruct (settled s) eqn:Hs; [by rewrite fail_settled|].
  destruct Hinv as (Hun & _). destruct (Hun Hs) as [Hnone Hclosed].
  rewrite fail_unsettled by done. unfold session_inv.
  rewrite settlements_perform, close_codes_perform.
  change (settlements (set_settled s)) with (settlements s).
  change (close_codes (set_settled s)) with (close_codes s).
  rewrite Hnone, Hclosed. cbn.
  split; [done|]. split; [lia|]. split; [lia|]. split.
  - by intros result ?%list_elem_of_singleton.
  - intros e _. by right.
Qed.

Lemma session_inv_finish (s : session) : session_inv s -> session_inv (finish s).
Proof.
  intros Hinv. destruct (settled s) eqn:Hs; [by rewrite finish_settled|].
  destruct Hinv as (Hun & _). destruct (Hun Hs) as [Hnone Hclosed].
  destruct (audioChunks s) as [|chunk chunks] eqn:Hchunks.
  - rewrite finish_without_chunks by done. unfold session_inv.
    rewrite settlements_perform, close_codes_perform.
    change (settlements (set_settled s)) with (settlements s).
    change (close_codes (set_settled s)) with (close_codes s).
    rewrite Hnone, Hclosed. cbn.
    split; [done|]. split; [lia|]. split; [lia|]. split.
    + by intros result ?%list_elem_of_singleton.
    + intros e [= ->]%list_elem_of_singleton. by left.
  - destruct (normalizeQwenAudioToWav (concat (audioChunks s)) 24000) as [wavAudio|] eqn:Hwav.
    + rewrite (finish_with_audio s wavAudio); [|done|by rewrite Hchunks|done].
      unfold session_inv.
      rewrite settlements_perform, close_codes_perform.
      change (settlements (set_settled s)) with (settlements s).
      change (close_codes (set_settled s)) with (close_codes s).
      rewrite Hnone, Hclosed. cbn.
      split; [done|]. split; [lia|]. split; [lia|]. split.
      * intros result [= ->]%list_elem_of_singleton. split; [|done].
        destruct (normalizeQwenAudioToWav_container _ _ _ Hwav) as (Hcontainer & _).
        split; [done|]. split; [done|]. split.
        { apply elem_of_app. right. do 2 apply list_elem_of_further. apply list_elem_of_here. }
        exists (audioChunks s), []. rewrite app_nil_r.
        split; [by rewrite Hchunks|]. done.
      * by intros e ?%list_elem_of_singleton.
    + assert (Hthrown : finish s = perform [ClearTimeout] (set_settled s)).
      { unfold finish. rewrite Hs. cbv zeta. cbn [perform set_settled audioChunks].
        rewrite decide_False by (rewrite Hchunks; discriminate). by rewrite Hwav. }
      rewrite Hthrown. unfold session_inv.
      rewrite settlements_perform, close_codes_perform.
      change (settlements (set_settled s)) with (settlements s).
      change (close_codes (set_settled s)) with (close_codes s).
      rewrite Hnone, Hclosed. cbn.
      split; [done|]. split; [lia|]. split; [lia|]. split.
      * by intros result ?%elem_of_nil.
      * by intros e ?%elem_of_nil.
Qed.

Section SessionTraces.
Variable utf8_toString : Buffer -> string.
Variable JSON_parse : string -> option js_value.
Variable base64_decode : string -> Buffer.
Variable params : tts_params.

Local Abbreviation Step := (step utf8_toString JSON_parse base64_decode params).
Local Abbreviation Run := (run utf8_toString JSON_parse base64_decode params).
Local Abbreviation OnMessage := (on_message utf8_toString JSON_parse base64_decode).
Local Abbreviation OnEvent := (on_event base64_decode).
Local Abbreviation Carries := (carries utf8_toString JSON_parse).
Local Abbreviation Decode := (decodeWsMessageToText utf8_toString).

Lemma extends_on_event (messageData : js_value) (messageText : string) (s : session) :
  extends s (OnEvent messageData messageText s).
Proof.
  unfold on_event.
  repeat first [case_decide | case_match];
    first [ apply extends_fail
          | apply extends_push
          | apply extends_refl
          | (eapply extends_trans; [|apply extends_fail]); by apply extends_same_trace
          | (eapply extends_trans; [|apply extends_finish]); by apply extends_same_trace
          | by apply extends_same_trace ].
Qed.

Lemma extends_step (s : session) (e : event) : extends s (Step s e).
Proof.
  destruct e as [failure|data|message|code reason|]; cbn [step].
  - unfold on_open. destruct failure as [[i message]|]; [case_decide|];
      try apply extends_perform.
    eapply extends_trans; [apply extends_perform|apply extends_fail].
  - unfold on_message. cbv zeta. case_decide; [apply extends_refl|].
    destruct (JSON_parse _) as [messageData|]; [|apply extends_fail].
    destruct (isRecord messageData); cbn [negb]; [|apply extends_fail].
    apply extends_on_event.
  - apply extends_fail.
  - unfold on_close. cbv zeta. destruct (settled s); [apply extends_refl|].
    destruct (_ && _); [apply extends_finish|apply extends_fail].
  - apply extends_fail.
Qed.

Lemma extends_run (events : list event) (s : session) : extends s (Run events s).
Proof.
  revert s. induction events as [|e events IH]; intros s; [apply extends_refl|].
  rewrite run_cons. eapply extends_trans; [apply extends_step|apply IH].
Qed.

(** The frames [datas] are audio deltas with the payloads [deltas]. *)
Lemma on_message_delta (data : ws_data) (messageData : js_value) (delta : string)
    (s : session) :
  Carries data messageData "response.audio.delta" ->
  readOptionalString (get messageData "delta") = Some delta ->
  OnMessage data s = push_chunk (base64_decode delta) s.
Proof.
  intros Hcarries Hdelta. rewrite (on_message_carries _ _ _ _ _ _ _ Hcarries).
  destruct Hcarries as (_ & _ & _ & Htype). unfold on_event. rewrite Htype.
  rewrite decide_False by done. rewrite decide_True by done. by rewrite Hdelta.
Qed.

(** Audio is only ever appended: whatever the events, the chunks a
    session held stay where they were, in their order, and a run of audio
    deltas appends their decoded payloads in arrival order, without
    settling the session or doing anything else. *)
Theorem audio_chunks_in_arrival_order
    (events : list event) (datas : list ws_data) (deltas : list string) (s : session) :
  (exists added, audioChunks (Run events s) = audioChunks s ++ added)
  /\ (Forall2 (fun data delta =>
                 exists messageData,
                   Carries data messageData "response.audio.delta"
                   /\ readOptionalString (get messageData "delta") = Some delta)
        datas deltas ->
      audioChunks (Run (EvMessage <$> datas) s)
      = audioChunks s ++ (base64_decode <$> deltas)
      /\ effects (Run (EvMessage <$> datas) s) = effects s
      /\ settled (Run (EvMessage <$> datas) s) = settled s).
Proof.
  split; [apply extends_run|].
  intros Hdeltas. revert s.
  induction Hdeltas as [|data delta datas deltas (messageData & Hc & Hd) _ IH]; intros s.
  - cbn. by rewrite app_nil_r.
  - cbn [fmap list_fmap]. rewrite run_cons. cbn [step].
    rewrite (on_message_delta _ _ _ _ Hc Hd).
    destruct (IH (push_chunk (base64_decode delta) s)) as (H1 & H2 & H3).
    rewrite H1, H2, H3. cbn [push_chunk audioChunks effects settled].
    by rewrite <- app_assoc.
Qed.

Lemma outbound_no_close (i : nat) :
  omap (fun e => match e with WsClose code => Some code | _ => None end)
    (take i (outbound params)) = [].
Proof. destruct i as [|[|[|[|[|i]]]]]; reflexivity. Qed.

Lemma session_inv_sends (i : nat) (s : session) :
  session_inv s -> session_inv (perform (take i (outbound params)) s).
Proof.
  apply session_inv_same; [apply extends_perform|..|done].
  - by rewrite settlements_perform, outbound_no_settlement, app_nil_r.
  - by rewrite close_codes_perform, outbound_no_close, app_nil_r.
Qed.

Lemma session_inv_step (s : session) (e : event) : session_inv s -> session_inv (Step s e).
Proof.
  intros Hs. destruct e as [failure|data|message|code reason|]; cbn [step].
  - unfold on_open.
    assert (Hall : session_inv (perform (outbound params) s)).
    { rewrite <- (firstn_all (outbound params)). by apply session_inv_sends. }
    destruct failure as [[i message]|]; [case_decide|]; try done.
    by apply session_inv_fail, session_inv_sends.
  - unfold on_message. cbv zeta. case_decide; [done|].
    destruct (JSON_parse _) as [messageData|]; [|by apply session_inv_fail].
    destruct (isRecord messageData); cbn [negb]; [|by apply session_inv_fail].
    unfold on_event.
    repeat first [case_decide | case_match];
      first [ done
            | by apply session_inv_fail
            | apply session_inv_fail;
              by apply (session_inv_same s); [by apply extends_same_trace|..]
            | apply session_inv_finish;
              by apply (session_inv_same s); [by apply extends_same_trace|..]
            | by apply (session_inv_same s); [apply extends_push|..]
            | by apply (session_inv_same s); [by apply extends_same_trace|..] ].
  - by apply session_inv_fail.
  - unfold on_close. cbv zeta. destruct (settled s) eqn:Hsettled; [done|].
    destruct (_ && _); [by apply session_inv_finish|by apply session_inv_fail].
  - by apply session_inv_fail.
Qed.

Lemma session_inv_run (events : list event) (s : session) :
  session_inv s -> session_inv (Run events s).
Proof.
  revert s. induction events as [|e events IH]; intros s Hs; [done|].
  rewrite run_cons. by apply IH, session_inv_step.
Qed.

Lemma session_inv_initial : session_inv initial_session.
Proof.
  split; [done|]. split; [cbn; lia|]. split; [cbn; lia|].
  split; [by intros ? ?%elem_of_nil|by intros ? ?%elem_of_nil].
Qed.

Lemma promise_outcome_settlements (s : session) (o : outcome) :
  session_inv s -> promise_outcome s = Some o -> settlements s = [o] /\ settled s = true.
Proof.
  intros (Hun & Hone & _) Ho. unfold promise_outcome in Ho.
  destruct (settlements s) as [|o' [|o'' rest]] eqn:Hsett; cbn in Ho, Hone; try done; [|lia].
  injection Ho as ->. split; [done|].
  destruct (settled s) eqn:Hs; [done|]. by destruct (Hun eq_refl).
Qed.

Lemma fulfilled_from_run (events : list event) (result : audio_result) :
  promise_outcome (Run events initial_session) = Some (Fulfilled result) ->
  fulfilled_from result (Run events initial_session).
Proof.
  intros Ho.
  pose proof (session_inv_run events _ session_inv_initial) as Hinv.
  destruct (promise_outcome_settlements _ _ Hinv Ho) as [Hsett _].
  destruct Hinv as (_ & _ & _ & Hful & _).
  apply Hful. rewrite Hsett. apply list_elem_of_here.
Qed.

Lemma settle_point (events : list event) (s : session) :
  settled s = false -> settled (Run events s) = true ->
  exists before e after,
    events = before ++ e :: after
    /\ settled (Run before s) = false
    /\ settled (Step (Run before s) e) = true.
Proof.
  revert s. induction events as [|e events IH]; intros s Hs Hrun; [cbn in Hrun; congruence|].
  rewrite run_cons in Hrun. destruct (settled (Step s e)) eqn:Hstep.
  - by exists [], e, events.
  - destruct (IH _ Hstep Hrun) as (before & e' & after & -> & Hbefore & Hafter).
    by exists (e :: before), e', after.
Qed.

Lemma resolves_chunks_of_pending (s s' : session) :
  settlements s' = [] -> resolves_chunks_of s s'.
Proof. intros Hnone result Hin. rewrite Hnone in Hin. by apply elem_of_nil in Hin. Qed.

Lemma resolves_chunks_of_fail (error : tts_error) (s pre : session) :
  settled pre = false -> settlements pre = [] -> resolves_chunks_of s (fail error pre).
Proof.
  intros Hs Hnone result Hin. rewrite settlements_fail in Hin by done.
  by apply list_elem_of_singleton in Hin.
Qed.

Lemma resolves_chunks_of_finish (s pre : session) :
  settled pre = false -> settlements pre = [] -> audioChunks pre = audioChunks s ->
  resolves_chunks_of s (finish pre).
Proof.
  intros Hs Hnone Hchunks result Hin.
  destruct (decide (audioChunks pre = [])) as [Hempty|Hsome].
  - rewrite settlements_finish_without_chunks in Hin by done.
    by apply list_elem_of_singleton in Hin.
  - destruct (normalizeQwenAudioToWav (concat (audioChunks pre)) 24000)
      as [wavAudio|] eqn:Hwav.
    + destruct (settlements_finish_with_audio pre wavAudio) as (_ & Hsett & _);
        [done..|].
      rewrite Hsett in Hin. apply list_elem_of_singleton in Hin. injection Hin as ->.
      rewrite (finish_with_audio pre wavAudio) by done.
      cbn [audioData audioDuration]. rewrite <- Hchunks.
      split; [done|]. by split.
    + exfalso. revert Hin. unfold finish. rewrite Hs. cbv zeta.
      cbn [perform set_settled audioChunks].
      destruct (decide (length (audioChunks pre) = 0%nat)) as [Hlength|_];
        [exfalso; destruct (audioChunks pre); [by apply Hsome|discriminate]|].
      rewrite Hwav, settlements_perform.
      change (settlements (set_settled pre)) with (settlements pre).
      rewrite Hnone. apply not_elem_of_nil.
Qed.

Lemma resolves_chunks_of_step (s : session) (e : event) :
  settled s = false -> settlements s = [] -> resolves_chunks_of s (Step s e).
Proof.
  intros Hs Hnone.
  assert (Hsends : forall i, settlements (perform (take i (outbound params)) s) = []).
  { intros i. by rewrite settlements_perform, outbound_no_settlement, Hnone. }
  destruct e as [failure|data|message|code reason|]; cbn [step].
  - unfold on_open.
    assert (Hall : resolves_chunks_of s (perform (outbound params) s)).
    { apply resolves_chunks_of_pending.
      rewrite <- (firstn_all (outbound params)). apply Hsends. }
    destruct failure as [[i message]|]; [case_decide|]; try done.
    by apply resolves_chunks_of_fail.
  - unfold on_message. cbv zeta.
    case_decide; [by apply resolves_chunks_of_pending|].
    destruct (JSON_parse _) as [messageData|]; [|by apply resolves_chunks_of_fail].
    destruct (isRecord messageData); cbn [negb]; [|by apply resolves_chunks_of_fail].
    unfold on_event.
    repeat first [case_decide | case_match];
      first [ by apply resolves_chunks_of_fail
            | by apply resolves_chunks_of_finish
            | by apply resolves_chunks_of_pending ].
  - by apply resolves_chunks_of_fail.
  - unfold on_close. cbv zeta. rewrite Hs.
    destruct (_ && _); [by apply resolves_chunks_of_finish|by apply resolves_chunks_of_fail].
  - by apply resolves_chunks_of_fail.
Qed.

(** Whatever the events, a fulfilled promise carries a container
    ([isWavBuffer] accepts its bytes) with the duration
    [getWavDurationFromBuffer] gives for it, which is not negative. Its
    bytes are the normalized concatenation of exactly the chunks the
    session held when it settled: the event that settles it adds no chunk,
    at least one chunk is there, and the chunks that arrive later are kept
    behind them and are not part of the result. *)
Theorem fulfilled_result_is_container (events : list event) (result : audio_result) :
  promise_outcome (Run events initial_session) = Some (Fulfilled result) ->
  isWavBuffer (audioData result) = true
  /\ audioDuration result = getWavDurationFromBuffer (audioData result)
  /\ 0 <= audioDuration result
  /\ exists before e after,
       events = before ++ e :: after
       /\ settled (Run before initial_session) = false
       /\ settled (Run (before ++ [e]) initial_session) = true
       /\ audioChunks (Run (before ++ [e]) initial_session)
          = audioChunks (Run before initial_session)
       /\ audioChunks (Run before initial_session) <> []
       /\ normalizeQwenAudioToWav
            (concat (audioChunks (Run before initial_session))) 24000
          = Some (audioData result)
       /\ exists later,
            audioChunks (Run events initial_session)
            = audioChunks (Run before initial_session) ++ later.
Proof.
  intros Ho.
  pose proof (session_inv_run events _ session_inv_initial) as Hinv.
  destruct (promise_outcome_settlements _ _ Hinv Ho) as [Hsett Hsettled].
  destruct Hinv as (_ & _ & _ & Hful & _).
  destruct (Hful result) as [(Hwav & Hduration & _) _].
  { rewrite Hsett. apply list_elem_of_here. }
  split; [done|]. split; [done|]. split.
  { rewrite Hduration. apply getWavDurationFromBuffer_nonneg. }
  destruct (settle_point events initial_session eq_refl Hsettled)
    as (before & e & after & -> & Hbefore & Hafter).
  exists before, e, after. split; [done|]. split; [done|].
  pose proof (session_inv_run before _ session_inv_initial) as (Hpending & _).
  destruct (Hpending Hbefore) as [Hnone _].
  assert (Hone : Run (before ++ [e]) initial_session
                 = Step (Run before initial_session) e) by (by rewrite run_app).
  assert (Hall : Run (before ++ e :: after) initial_session
                 = Run after (Step (Run before initial_session) e))
    by (by rewrite run_app, run_cons).
  rewrite Hone, Hall. rewrite Hall in Hsett.
  set (s0 := Run before initial_session) in *.
  rewrite (proj2 (run_settled _ _ _ _ after _ Hafter)) in Hsett.
  destruct (resolves_chunks_of_step s0 e Hbefore Hnone result)
    as (Hsame & Hsome & Hnormalized & _).
  { rewrite Hsett. apply list_elem_of_here. }
  split; [done|]. split; [done|]. split; [done|]. split; [done|].
  destruct (extends_run after (Step s0 e)) as [_ [later Hlater]].
  exists later. by rewrite Hlater, Hsame.
Qed.

(** The socket is closed at most once, and not before the session
    settles. A fulfilled promise comes with the close code 1000, and a
    promise rejected for any reason other than the missing audio of
    [finish] with the close code 1011. *)
Theorem socket_close_discipline (events : list event) :
  let s := Run events initial_session in
  (length (close_codes s) <= 1)%nat
  /\ (settled s = false -> close_codes s = [] /\ promise_outcome s = None)
  /\ (forall result, promise_outcome s = Some (Fulfilled result) -> close_codes s = [1000])
  /\ (forall error, promise_outcome s = Some (Rejected error) ->
       error <> missing_audio -> close_codes s = [1011]).
Proof.
  intros s.
  pose proof (session_inv_run events _ session_inv_initial) as Hinv. fold s in Hinv.
  assert (Hout := promise_outcome_settlements s).
  destruct (Hinv) as (Hun & _ & Hcl & Hful & Hrej).
  split; [done|]. split; [|split].
  - intros Hs. destruct (Hun Hs) as [Hnone ?]. split; [done|].
    unfold promise_outcome. by rewrite Hnone.
  - intros result Ho. destruct (Hout _ Hinv Ho) as [Hsett _].
    apply (Hful result). rewrite Hsett. apply list_elem_of_here.
  - intros error Ho Hne. destruct (Hout _ Hinv Ho) as [Hsett _].
    destruct (Hrej error) as [[? _]|?]; [rewrite Hsett; apply list_elem_of_here|done..].
Qed.

Lemma promise_outcome_fail (error : tts_error) (s : session) :
  settled s = false -> session_inv s ->
  promise_outcome (fail error s) = Some (Rejected error)
  /\ close_codes (fail error s) = [1011]
  /\ settled (fail error s) = true.
Proof.
  intros Hs (Hun & _). destruct (Hun Hs) as [Hnone Hclosed].
  rewrite fail_unsettled by done. unfold promise_outcome.
  rewrite settlements_perform, close_codes_perform.
  change (settlements (set_settled s)) with (settlements s).
  change (close_codes (set_settled s)) with (close_codes s).
  by rewrite Hnone, Hclosed.
Qed.

Lemma close_codes_step_settled (s : session) (e : event) :
  settled s = true -> close_codes (Step s e) = close_codes s.
Proof.
  intros Hs. destruct e as [failure|data|message|code reason|];
    try (unfold close_codes;
         by rewrite (proj2 (proj2 (step_settled _ _ _ _ s _ Hs)))).
  cbn [step]. unfold on_open.
  assert (Hsends : forall i,
            close_codes (perform (take i (outbound params)) s) = close_codes s).
  { intros i. by rewrite close_codes_perform, outbound_no_close, app_nil_r. }
  assert (Hall : close_codes (perform (outbound params) s) = close_codes s).
  { rewrite <- (firstn_all (outbound params)). apply Hsends. }
  destruct failure as [[i message]|]; [case_decide|]; try done.
  by rewrite fail_settled.
Qed.

Lemma run_settled_trace (later : list event) (s : session) :
  settled s = true ->
  close_codes (Run later s) = close_codes s
  /\ ((forall failure, EvOpen failure ∉ later) -> effects (Run later s) = effects s).
Proof.
  revert s. induction later as [|e later IH]; intros s Hs; [done|].
  rewrite run_cons.
  destruct (step_settled utf8_toString JSON_parse base64_decode params s e Hs)
    as (Hstep & _ & Heffects).
  destruct (IH _ Hstep) as [Hcodes Htrace]. split.
  - by rewrite Hcodes, close_codes_step_settled.
  - intros Hopen. rewrite Htrace.
    + apply Heffects. intros failure ->. apply (Hopen failure), list_elem_of_here.
    + intros failure Hin. by apply (Hopen failure), list_elem_of_further.
Qed.

(** A settled session settles no second time. Once the promise is
    fulfilled or rejected, whatever comes later (audio, completion
    signals, error frames, a socket error, a close, the timer), [resolve]
    and [reject] are not called again, so the one settlement stays the
    outcome; the socket is not closed again; and unless a late ['open']
    sends the four requests, nothing at all is added to the calls made. *)
Theorem promise_outcome_is_final (events later : list event) (o : outcome) :
  promise_outcome (Run events initial_session) = Some o ->
  promise_outcome (Run (events ++ later) initial_session) = Some o
  /\ settlements (Run (events ++ later) initial_session) = [o]
  /\ close_codes (Run (events ++ later) initial_session)
     = close_codes (Run events initial_session)
  /\ ((forall failure, EvOpen failure ∉ later) ->
      effects (Run (events ++ later) initial_session)
      = effects (Run events initial_session)).
Proof.
  intros Ho.
  pose proof (session_inv_run events _ session_inv_initial) as Hinv.
  destruct (promise_outcome_settlements _ _ Hinv Ho) as [Hsett Hs].
  rewrite run_app. unfold promise_outcome.
  rewrite (proj2 (run_settled _ _ _ _ later _ Hs)), Hsett.
  destruct (run_settled_trace later _ Hs) as [Hcodes Htrace].
  by repeat split.
Qed.

(** When the timer fires the session is settled, whatever came before:
    a session that was still pending is rejected with the timeout reason
    and its socket closed with 1011, and a settled one is left as it is. *)
Theorem timer_settles (events : list event) :
  let s := Run events initial_session in
  settled (Step s EvTimeout) = true
  /\ (settled s = false ->
      promise_outcome (Step s EvTimeout) = Some (Rejected (QWEN_TTS_TIMEOUT 45000))
      /\ close_codes (Step s EvTimeout) = [1011])
  /\ (settled s = true -> Step s EvTimeout = s).
Proof.
  intros s. cbn [step]. unfold on_timeout.
  split; [apply settled_fail|]. split.
  - intros Hs.
    pose proof (session_inv_run events _ session_inv_initial) as Hinv.
    by destruct (promise_outcome_fail (QWEN_TTS_TIMEOUT timeoutMs) _ Hs Hinv) as (? & ? & _).
  - intros Hs. by apply fail_settled.
Qed.

(** ['session.finished'] before any audio and before ['response.done']
    settles nothing: the session records it and waits, and when nothing
    else comes the timer rejects it. *)
Theorem finished_without_audio_waits
    (events : list event) (finished : ws_data) (finishedData : js_value) :
  let s := Run events initial_session in
  settled s = false ->
  audioChunks s = [] ->
  hasResponseDone s = false ->
  Carries finished finishedData "session.finished" ->
  let s' := Step s (EvMessage finished) in
  settled s' = false
  /\ hasSessionFinished s' = true
  /\ effects s' = effects s
  /\ promise_outcome s' = None
  /\ promise_outcome (Step s' EvTimeout) = Some (Rejected (QWEN_TTS_TIMEOUT 45000)).
Proof.
  intros s Hs Hchunks Hdone Hfinished s'.
  pose proof (session_inv_run (events ++ [EvMessage finished]) _ session_inv_initial) as Hinv.
  rewrite run_app in Hinv. change (session_inv s') in Hinv.
  assert (Hs' : s' = set_hasSessionFinished s).
  { unfold s'. cbn [step].
    rewrite (on_message_carries _ _ _ _ _ _ _ Hfinished), on_event_session_finished
      by apply Hfinished.
    by rewrite Hdone, Hchunks. }
  assert (Hunsettled : settled s' = false) by (by rewrite Hs').
  split; [done|]. split; [by rewrite Hs'|]. split; [by rewrite Hs'|].
  split.
  - destruct Hinv as (Hun & _). unfold promise_outcome.
    by rewrite (proj1 (Hun Hunsettled)).
  - cbn [step]. unfold on_timeout.
    by destruct (promise_outcome_fail (QWEN_TTS_TIMEOUT timeoutMs) _ Hunsettled Hinv).
Qed.

(** A close never leaves a pending session pending. It is a success when
    audio has arrived and one of the completion signals has been seen
    (and the audio fits a container), and in every other case a failure
    that reports the close code and the trimmed reason text. *)
Theorem close_settles (events : list event) (code : Z) (reason : Buffer) :
  let s := Run events initial_session in
  settled s = false ->
  let s' := Step s (EvClose code reason) in
  settled s' = true
  /\ (audioChunks s = [] \/ (hasResponseDone s = false /\ hasSessionFinished s = false) ->
      promise_outcome s'
      = Some (Rejected (QWEN_TTS_WS_CLOSED code (trim (utf8_toString reason))))
      /\ close_codes s' = [1011])
  /\ (audioChunks s <> [] ->
      hasResponseDone s = true \/ hasSessionFinished s = true ->
      36 + buffer_length (concat (audioChunks s)) <= 4294967295 ->
      exists result, promise_outcome s' = Some (Fulfilled result)
                     /\ close_codes s' = [1000]).
Proof.
  intros s Hs s'.
  pose proof (session_inv_run events _ session_inv_initial) as Hinv. fold s in Hinv.
  unfold s'. cbn [step]. unfold on_close. rewrite Hs. cbv zeta.
  split; [|split].
  - destruct (_ && _); [apply settled_finish|apply settled_fail].
  - intros Hcase.
    assert (Hcond : bool_decide (0 < length (audioChunks s))%nat
                    && (hasResponseDone s || hasSessionFinished s) = false).
    { destruct Hcase as [->|[-> ->]]; [done|]. apply andb_false_r. }
    rewrite Hcond.
    by destruct (promise_outcome_fail
                   (QWEN_TTS_WS_CLOSED code (trim (utf8_toString reason))) _ Hs Hinv)
      as (? & ? & _).
  - intros Hchunks Hsignal Hfits.
    rewrite (has_chunks s Hchunks).
    assert (Hcond : hasResponseDone s || hasSessionFinished s = true).
    { apply orb_true_iff. destruct Hsignal; [by left|by right]. }
    rewrite Hcond. cbn [andb].
    destruct (normalizeQwenAudioToWav_fits _ Hfits) as (wavAudio & Hwav & _).
    eexists. rewrite (finish_with_audio s wavAudio) by done.
    destruct Hinv as (Hun & _). destruct (Hun Hs) as [Hnone Hclosed].
    unfold promise_outcome. rewrite settlements_perform, close_codes_perform.
    change (settlements (set_settled s)) with (settlements s).
    change (close_codes (set_settled s)) with (close_codes s).
    by rewrite Hnone, Hclosed.
Qed.

Lemma readOptionalString_not_empty (value : js_value) (text : string) :
  readOptionalString value = Some text -> text <> EmptyString.
Proof.
  destruct value; cbn; try done. case_decide; [done|]. by intros [= <-].
Qed.

(** An ['error'] frame rejects a pending session, and the reason names
    the first of: the error's [message], the error's [code], the text of
    the whole frame. The reason is never empty. *)
Theorem error_event_detail (events : list event) (data : ws_data) (messageData : js_value) :
  let s := Run events initial_session in
  settled s = false ->
  Carries data messageData "error" ->
  let errorPayload := get messageData "error" in
  exists detail,
    promise_outcome (Step s (EvMessage data)) = Some (Rejected (QWEN_TTS_FAILED_WS detail))
    /\ close_codes (Step s (EvMessage data)) = [1011]
    /\ detail <> EmptyString
    /\ (isRecord errorPayload = false -> detail = trim (Decode data))
    /\ (isRecord errorPayload = true ->
        match readOptionalString (get errorPayload "message"),
              readOptionalString (get errorPayload "code") with
        | Some message, _ => detail = message
        | None, Some code => detail = code
        | None, None => detail = trim (Decode data)
        end).
Proof.
  intros s Hs Hcarries errorPayload.
  pose proof (session_inv_run events _ session_inv_initial) as Hinv. fold s in Hinv.
  cbn [step]. rewrite (on_message_carries _ _ _ _ _ _ _ Hcarries).
  destruct Hcarries as (Htext & _ & _ & Htype).
  unfold on_event. rewrite Htype. rewrite decide_True by done. cbv zeta.
  fold errorPayload.
  set (detail := match _ with Some m => m | None => _ end).
  exists detail.
  destruct (promise_outcome_fail (QWEN_TTS_FAILED_WS detail) _ Hs Hinv) as (-> & -> & _).
  split; [done|]. split; [done|].
  unfold detail. destruct (isRecord errorPayload).
  - destruct (readOptionalString (get errorPayload "message")) as [message|] eqn:Hmessage.
    + split; [by eapply readOptionalString_not_empty|]. by split.
    + destruct (readOptionalString (get errorPayload "code")) as [code|] eqn:Hcode; cbn.
      * split; [by eapply readOptionalString_not_empty|]. by split.
      * by split.
  - cbn. by split.
Qed.

(** A frame of a type the handler does not know (anything but ['error'],
    ['response.audio.delta'], ['response.done'], ['session.finished'])
    changes nothing. *)
Theorem unknown_event_is_ignored
    (data : ws_data) (messageData : js_value) (eventType : string) (s : session) :
  Carries data messageData eventType ->
  eventType <> "error" -> eventType <> "response.audio.delta" ->
  eventType <> "response.done" -> eventType <> "session.finished" ->
  Step s (EvMessage data) = s.
Proof.
  intros Hcarries H1 H2 H3 H4. cbn [step].
  rewrite (on_message_carries _ _ _ _ _ _ _ Hcarries).
  destruct Hcarries as (_ & _ & _ & Htype).
  unfold on_event. rewrite Htype. by rewrite !decide_False by done.
Qed.

(** A ['response.audio.delta'] frame is checked only for a [delta] string
    that is not blank: without one a pending session is rejected, and
    with one the handler appends whatever the base64 decoder gives for
    it, without looking at the bytes, and settles nothing. *)
Theorem delta_payload_validation
    (events : list event) (data : ws_data) (messageData : js_value) :
  let s := Run events initial_session in
  settled s = false ->
  Carries data messageData "response.audio.delta" ->
  match readOptionalString (get messageData "delta") with
  | None =>
      promise_outcome (Step s (EvMessage data))
      = Some (Rejected (QWEN_TTS_INVALID_EVENT "response.audio.delta missing delta"))
      /\ audioChunks (Step s (EvMessage data)) = audioChunks s
  | Some delta =>
      audioChunks (Step s (EvMessage data)) = audioChunks s ++ [base64_decode delta]
      /\ settled (Step s (EvMessage data)) = false
      /\ effects (Step s (EvMessage data)) = effects s
  end.
Proof.
  intros s Hs Hcarries.
  pose proof (session_inv_run events _ session_inv_initial) as Hinv. fold s in Hinv.
  cbn [step]. rewrite (on_message_carries _ _ _ _ _ _ _ Hcarries).
  destruct Hcarries as (Htext & _ & _ & Htype).
  unfold on_event. rewrite Htype.
  rewrite decide_False by done. rewrite decide_True by done.
  destruct (readOptionalString (get messageData "delta")) as [delta|].
  - by repeat split.
  - destruct (promise_outcome_fail
                (QWEN_TTS_INVALID_EVENT "response.audio.delta missing delta") _ Hs Hinv)
      as (-> & _ & _).
    split; [done|]. by rewrite fail_unsettled.
Qed.

Lemma binary_items_Some (fragments : list Buffer) :
  binary_items (Some <$> fragments) = Some fragments.
Proof. induction fragments as [|f fragments IH]; [done|]. cbn. by rewrite IH. Qed.

Lemma binary_items_None (items : list (option Buffer)) :
  None ∈ items -> binary_items items = None.
Proof.
  induction items as [|[item|] items IH]; intros Hin.
  - by apply elem_of_nil in Hin.
  - apply elem_of_cons in Hin as [|Hin]; [done|]. cbn. by rewrite IH.
  - done.
Qed.

(** A frame that arrives as an array of binary fragments is read as the
    one binary frame of their concatenation. An array with an item that is
    not binary reads as the empty text, so the frame is dropped without
    any effect. *)
Theorem fragmented_frame (s : session) :
  (forall fragments : list Buffer,
     Decode (DataArray (Some <$> fragments))
     = Decode (DataBinary (concat fragments))
     /\ Step s (EvMessage (DataArray (Some <$> fragments)))
        = Step s (EvMessage (DataBinary (concat fragments))))
  /\ (forall items : list (option Buffer),
        None ∈ items -> Step s (EvMessage (DataArray items)) = s).
Proof.
  split.
  - intros fragments.
    assert (Htext : Decode (DataArray (Some <$> fragments))
                    = Decode (DataBinary (concat fragments))).
    { cbn. by rewrite binary_items_Some. }
    split; [done|]. cbn [step]. unfold on_message. by rewrite Htext.
  - intros items Hin. cbn [step]. unfold on_message. cbv zeta.
    cbn [decodeWsMessageToText]. by rewrite (binary_items_None _ Hin).
Qed.

End SessionTraces.

(** An instance: one audio chunk and the two completion signals. *)
Lemma fulfilled_result_is_container_witness :
  exists result,
    promise_outcome
      (sample_run [EvOpen None; EvMessage (DataString "response.audio.delta");
                   EvMessage (DataString "response.done completed");
                   EvMessage (DataString "session.finished")] initial_session)
    = Some (Fulfilled result)
    /\ isWavBuffer (audioData result) = true.
Proof.
  eexists. split; [vm_compute; reflexivity|].
  eapply (fulfilled_result_is_container
            sample_utf8_toString sample_JSON_parse sample_base64_decode
            (sample_params "voice-tts-realtime-v1")
            [EvOpen None; EvMessage (DataString "response.audio.delta");
             EvMessage (DataString "response.done completed");
             EvMessage (DataString "session.finished")]).
  vm_compute; reflexivity.
Defined.

(** An instance: a failed response stays the one settlement when the
    session finishes, the socket closes and the timer fires. *)
Lemma promise_outcome_is_final_witness :
  settlements
    (sample_run ([EvOpen None; EvMessage (DataString "response.done failed")]
                 ++ [EvMessage (DataString "session.finished"); EvClose 1000 [];
                     EvTimeout])
       initial_session)
  = [Rejected (QWEN_TTS_FAILED_STATUS "failed")].
Proof.
  apply (promise_outcome_is_final
           sample_utf8_toString sample_JSON_parse sample_base64_decode
           (sample_params "voice-tts-realtime-v1")).
  vm_compute; reflexivity.
Defined.

(** An instance: ['session.finished'] right after the socket opens. *)
Lemma finished_without_audio_waits_witness :
  let s' := sample_run [EvOpen None; EvMessage (DataString "session.finished")]
              initial_session in
  settled s' = false
  /\ promise_outcome (sample_step s' EvTimeout)
     = Some (Rejected (QWEN_TTS_TIMEOUT 45000)).
Proof.
  destruct (finished_without_audio_waits
              sample_utf8_toString sample_JSON_parse sample_base64_decode
              (sample_params "voice-tts-realtime-v1")
              [EvOpen None] (DataString "session.finished")
              (JObject [("type", JString "session.finished")]))
    as (Hs & _ & _ & _ & Ht);
    [vm_compute; reflexivity..| |by split].
  vm_compute. by repeat split.
Defined.

(** An instance: the socket closes right after it opened. *)
Lemma close_settles_witness :
  promise_outcome
    (sample_run [EvOpen None; EvClose 1006 (ascii_bytes " gone ")] initial_session)
  = Some (Rejected (QWEN_TTS_WS_CLOSED 1006 "gone")).
Proof.
  destruct (close_settles
              sample_utf8_toString sample_JSON_parse sample_base64_decode
              (sample_params "voice-tts-realtime-v1")
              [EvOpen None] 1006 (ascii_bytes " gone "))
    as (_ & Hrej & _); [vm_compute; reflexivity|].
  destruct Hrej as [Hrej _]; [left; vm_compute; reflexivity|].
  exact Hrej.
Defined.

(** An instance: an error frame with a code and a padded message. *)
Lemma error_event_detail_witness :
  promise_outcome
    (more_step (more_run [EvOpen None] initial_session)
       (EvMessage (DataString "error with message")))
  = Some (Rejected (QWEN_TTS_FAILED_WS "voice not found")).
Proof.
  destruct (error_event_detail
              sample_utf8_toString more_JSON_parse sample_base64_decode
              (sample_params "voice-tts-realtime-v1")
              [EvOpen None] (DataString "error with message")
              (JObject [("type", JString "error");
                        ("error", JObject [("code", JString "InvalidParameter");
                                           ("message", JString " voice not found ")])]))
    as (detail & Houtcome & _ & _ & _ & Hdetail);
    [vm_compute; reflexivity|vm_compute; by repeat split|].
  specialize (Hdetail eq_refl). vm_compute in Hdetail. subst detail.
  exact Houtcome.
Defined.

(** An instance: ['session.created'] after the socket opened. *)
Lemma unknown_event_is_ignored_witness :
  more_step (more_run [EvOpen None] initial_session)
    (EvMessage (DataString "session.created"))
  = more_run [EvOpen None] initial_session.
Proof.
  apply (unknown_event_is_ignored
           sample_utf8_toString more_JSON_parse sample_base64_decode
           (sample_params "voice-tts-realtime-v1")
           (DataString "session.created")
           (JObject [("type", JString "session.created")]) "session.created");
    [vm_compute; by repeat split|done..].
Defined.

(** An instance: a delta frame whose payload is blank. *)
Lemma delta_payload_validation_witness :
  promise_outcome
    (more_step (more_run [EvOpen None] initial_session)
       (EvMessage (DataString "delta without payload")))
  = Some (Rejected (QWEN_TTS_INVALID_EVENT "response.audio.delta missing delta")).
Proof.
  pose proof (delta_payload_validation
                sample_utf8_toString more_JSON_parse sample_base64_decode
                (sample_params "voice-tts-realtime-v1")
                [EvOpen None] (DataString "delta without payload")
                (JObject [("type", JString "response.audio.delta");
                          ("delta", JString "  ")])) as Hdelta.
  cbv zeta in Hdelta.
  destruct Hdelta as [Houtcome _];
    [vm_compute; reflexivity|vm_compute; by repeat split|].
  exact Houtcome.
Defined.

(* ===================================================================== *)
(** * The request/response call and the choice between the two *)
(* ===================================================================== *)

Lemma readQwenAudioBase64_not_record (data : js_value) :
  isRecord data = false -> readQwenAudioBase64 data = None.
Proof. intros Hdata. unfold readQwenAudioBase64. by rewrite Hdata. Qed.

Lemma readQwenAudioUrl_not_record (data : js_value) :
  isRecord data = false -> readQwenAudioUrl data = None.
Proof. intros Hdata. unfold readQwenAudioUrl. by rewrite Hdata. Qed.

Lemma toLowerCase_append (a b : string) :
  toLowerCase (String.append a b) = String.append (toLowerCase a) (toLowerCase b).
Proof.
  induction a as [|c a IH]; [done|].
  change (String c a +:+ b) with (String c (a +:+ b)). cbn [toLowerCase].
  change (String (lower_ascii c) (toLowerCase a) +:+ toLowerCase b)
    with (String (lower_ascii c) (toLowerCase a +:+ toLowerCase b)).
  by rewrite IH.
Qed.

Lemma toLowerCase_split (s x y : string) :
  toLowerCase s = String.append x y ->
  exists a b, s = String.append a b /\ toLowerCase a = x /\ toLowerCase b = y.
Proof.
  revert s. induction x as [|c x IH]; intros s Heq.
  - by exists EmptyString, s.
  - destruct s as [|d s]; [done|].
    change (String c x +:+ y) with (String c (x +:+ y)) in Heq.
    cbn [toLowerCase] in Heq. injection Heq as Hc Hrest.
    destruct (IH s Hrest) as (a & b & -> & Ha & Hb).
    exists (String d a), b. split; [done|]. split; [|done].
    cbn [toLowerCase]. by rewrite Hc, Ha.
Qed.

Section Calls.

Variable utf8_toString : Buffer -> string.
Variable JSON_parse : string -> option js_value.
Variable base64_decode : string -> Buffer.
Variable fetch_audio : string -> audio_download.

Local Abbreviation Http := (generateVoiceWithQwenTTSHttp JSON_parse base64_decode fetch_audio).

Lemma http_fulfilled (response : http_response) (result : audio_result) :
  Http response = Fulfilled result ->
  ok response = true
  /\ audioDuration result = getWavDurationFromBuffer (audioData result).
Proof.
  unfold generateVoiceWithQwenTTSHttp. cbv zeta.
  destruct (ok response); cbn [negb]; [|done].
  destruct (readQwenAudioBase64 _); [by intros [= <-]|].
  destruct (readQwenAudioUrl _) as [audioUrl|]; [|done].
  destruct (download_ok (fetch_audio audioUrl)); cbn [negb]; [|done].
  by intros [= <-].
Qed.

(** The outcomes of the request/response call. A response that is not
    ok is rejected with its status and a detail that is never empty. An
    ok response is fulfilled, with the duration the reader gives for the
    returned bytes, or rejected for missing audio or a failed download;
    nothing else happens. *)
Theorem http_outcome_cases (response : http_response) :
  (ok response = false ->
     exists detail,
       Http response = Rejected (QWEN_TTS_FAILED_HTTP (status response) detail)
       /\ detail <> EmptyString)
  /\ (ok response = true ->
       (exists result,
          Http response = Fulfilled result
          /\ audioDuration result = getWavDurationFromBuffer (audioData result)
          /\ 0 <= audioDuration result)
       \/ Http response = Rejected (QWEN_TTS_INVALID_RESPONSE "missing output audio")
       \/ exists code, Http response = Rejected (QWEN_TTS_AUDIO_DOWNLOAD_FAILED code)).
Proof.
  unfold generateVoiceWithQwenTTSHttp. cbv zeta.
  set (responseData := if decide (body response = EmptyString) then JNull else _).
  split; intros Hok; rewrite Hok; cbn [negb].
  - eexists. split; [reflexivity|].
    destruct (isRecord responseData).
    + destruct (readOptionalString (get responseData "message")) as [m|] eqn:Hm;
        [by eapply readOptionalString_not_empty|].
      destruct (readOptionalString (get responseData "code")) as [c|] eqn:Hc;
        [by eapply readOptionalString_not_empty|].
      by case_decide.
    + by case_decide.
  - destruct (readQwenAudioBase64 responseData) as [audioBase64|].
    { left. eexists. split; [reflexivity|]. split; [done|].
      apply getWavDurationFromBuffer_nonneg. }
    destruct (readQwenAudioUrl responseData) as [audioUrl|]; [|by right; left].
    destruct (download_ok (fetch_audio audioUrl)); cbn [negb].
    + left. eexists. split; [reflexivity|]. split; [done|].
      apply getWavDurationFromBuffer_nonneg.
    + right. right. by eexists.
Qed.

(** An ok response whose body is empty, is not JSON, or is JSON but not
    an object, is rejected for missing audio; nothing is downloaded. *)
Theorem http_body_without_audio (response : http_response) :
  ok response = true ->
  body response = EmptyString
  \/ JSON_parse (body response) = None
  \/ (exists value, JSON_parse (body response) = Some value /\ isRecord value = false) ->
  Http response = Rejected (QWEN_TTS_INVALID_RESPONSE "missing output audio").
Proof.
  intros Hok Hbody. unfold generateVoiceWithQwenTTSHttp. cbv zeta.
  set (responseData := if decide (body response = EmptyString) then JNull else _).
  assert (Hdata : isRecord responseData = false).
  { unfold responseData. case_decide; [done|].
    destruct Hbody as [?|[->|(value & -> & Hvalue)]]; done. }
  rewrite Hok. cbn [negb].
  by rewrite (readQwenAudioBase64_not_record _ Hdata), (readQwenAudioUrl_not_record _ Hdata).
Qed.

(** The realtime session is chosen exactly for the models whose id
    contains ['realtime'] in any mix of upper and lower case; every other
    model goes through the request/response call, which always
    settles. *)
Theorem realtime_model_dispatch
    (params : tts_params) (events : list event) (response : http_response) :
  (isQwenRealtimeModel (modelId params) = true
   <-> exists before word after,
         modelId params = String.append before (String.append word after)
         /\ toLowerCase word = "realtime")
  /\ (isQwenRealtimeModel (modelId params) = true ->
      generateVoiceWithQwenTTS utf8_toString JSON_parse base64_decode params fetch_audio
        events response
      = generateVoiceWithQwenRealtimeTTS utf8_toString JSON_parse base64_decode params events)
  /\ (isQwenRealtimeModel (modelId params) = false ->
      generateVoiceWithQwenTTS utf8_toString JSON_parse base64_decode params fetch_audio
        events response
      = Some (Http response)).
Proof.
  split; [|split].
  - unfold isQwenRealtimeModel. rewrite includes_spec. split.
    + intros (x & y & Heq).
      destruct (toLowerCase_split _ _ _ Heq) as (before & rest & Hmodel & _ & Hrest).
      destruct (toLowerCase_split _ _ _ Hrest) as (word & after & -> & Hword & _).
      by exists before, word, after.
    + intros (before & word & after & -> & Hword).
      exists (toLowerCase before), (toLowerCase after).
      by rewrite !toLowerCase_append, Hword.
  - intros Hmodel. unfold generateVoiceWithQwenTTS. by rewrite Hmodel.
  - intros Hmodel. unfold generateVoiceWithQwenTTS. by rewrite Hmodel.
Qed.

End Calls.

(** An instance: an ok response with an empty body. *)
Lemma http_body_without_audio_witness :
  generateVoiceWithQwenTTSHttp sample_JSON_parse sample_base64_decode sample_fetch_audio
    {| ok := true; status := 200; body := EmptyString |}
  = Rejected (QWEN_TTS_INVALID_RESPONSE "missing output audio").
Proof.
  apply (http_body_without_audio sample_JSON_parse sample_base64_decode sample_fetch_audio
           {| ok := true; status := 200; body := EmptyString |}).
  - reflexivity.
  - left. reflexivity.
Defined.

(* ===================================================================== *)
(** * What a voice line stores *)
(* ===================================================================== *)

Section Stored.

Variable utf8_toString : Buffer -> string.
Variable JSON_parse : string -> option js_value.
Variable base64_decode : string -> Buffer.
Variable params : tts_params.
Variable fetch_audio : string -> audio_download.

(** Whichever way the audio was produced, the duration of a result is
    what [getWavDurationFromBuffer] reads from its bytes, so the duration
    stored with a voice line is either none (for a reading of 0) or at
    least one millisecond; a zero or negative duration is never stored. *)
Theorem stored_duration_is_positive
    (events : list event) (response : http_response) (generated : audio_result) :
  generateVoiceWithQwenTTS utf8_toString JSON_parse base64_decode params fetch_audio
    events response = Some (Fulfilled generated) ->
  audioDuration generated = getWavDurationFromBuffer (audioData generated)
  /\ match stored_audioDuration generated with
     | None => getWavDurationFromBuffer (audioData generated) = 0
     | Some duration => 1 <= duration
                        /\ duration = getWavDurationFromBuffer (audioData generated)
     end.
Proof.
  intros Hgenerated.
  assert (Hduration : audioDuration generated = getWavDurationFromBuffer (audioData generated)).
  { unfold generateVoiceWithQwenTTS in Hgenerated.
    destruct (isQwenRealtimeModel (modelId params)).
    - by destruct (fulfilled_from_run _ _ _ _ _ _ Hgenerated) as (_ & Hduration & _).
    - injection Hgenerated as Hgenerated.
      by destruct (http_fulfilled _ _ _ _ _ Hgenerated). }
  split; [done|].
  pose proof (getWavDurationFromBuffer_nonneg (audioData generated)) as Hnonneg.
  unfold stored_audioDuration. case_decide; [congruence|]. split; [lia|done].
Qed.

End Stored.

(** An instance: one chunk of two samples over the socket. *)
Lemma stored_duration_is_positive_witness :
  exists generated,
    generateVoiceWithQwenTTS sample_utf8_toString sample_JSON_parse sample_base64_decode
      (sample_params "voice-tts-realtime-v1") sample_fetch_audio
      [EvOpen None; EvMessage (DataString "response.audio.delta");
       EvMessage (DataString "response.done completed");
       EvMessage (DataString "session.finished")]
      {| ok := false; status := 500; body := EmptyString |}
    = Some (Fulfilled generated)
    /\ audioDuration generated = getWavDurationFromBuffer (audioData generated).
Proof.
  eexists. split; [vm_compute; reflexivity|].
  eapply (stored_duration_is_positive
            sample_utf8_toString sample_JSON_parse sample_base64_decode
            (sample_params "voice-tts-realtime-v1") sample_fetch_audio
            [EvOpen None; EvMessage (DataString "response.audio.delta");
             EvMessage (DataString "response.done completed");
             EvMessage (DataString "session.finished")]
            {| ok := false; status := 500; body := EmptyString |}).
  vm_compute; reflexivity.
Defined.

(* ===================================================================== *)
(** * Properties of the choice of the audio model *)
(* ===================================================================== *)

Module AudioSelectionProperties.
Import QwenVoiceId AudioSelection.

Lemma filter_singleton {A : Type} (P : A -> Prop) `{forall x, Decision (P x)}
    (l : list A) (x : A) :
  filter P l = [x] ->
  x ∈ l /\ P x /\ forall y, y ∈ l -> P y -> y = x.
Proof.
  intros Hfilter.
  assert (Hx : x ∈ filter P l) by (rewrite Hfilter; apply list_elem_of_here).
  apply list_elem_of_filter in Hx as [HP Hx]. split; [done|]. split; [done|].
  intros y Hy HPy.
  assert (Hin : y ∈ filter P l) by (by apply list_elem_of_filter).
  rewrite Hfilter in Hin. by apply list_elem_of_singleton in Hin.
Qed.

Section Selection.

Variable ConfigError : Type.
Variable resolveModelSelectionOrSingle :
  string -> option string -> result ConfigError ModelSelection.
Variable getModelsByType : string -> result ConfigError (list EnabledModel).

Local Abbreviation Resolve :=
  (resolveAudioSelectionForVoice resolveModelSelectionOrSingle getModelsByType).

Lemma assertVoiceFamilyMatchesSelection_returns
    (selection : ModelSelection) (f : QwenVoiceModelFamily) :
  assertVoiceFamilyMatchesSelection (ConfigError := ConfigError) selection (Some f) = None
  <-> resolveQwenVoiceModelFamily (Some (modelId selection)) = Some f.
Proof.
  unfold assertVoiceFamilyMatchesSelection.
  destruct (resolveQwenVoiceModelFamily (Some (modelId selection))) as [selected|];
    [|done].
  case_decide; split; try done; try congruence.
Qed.

(** A selection that is returned for a voice of family [f] was found in
    one of two ways. With a requested model, it is the selection of that
    model, and its model id is of family [f]. Without one, exactly one
    enabled model is of family [f], and the selection is the one looked
    up under that model's key. *)
Theorem selection_respects_family
    (userId : string) (requestedModel : option string) (f : QwenVoiceModelFamily)
    (selection : ModelSelection) :
  Resolve userId requestedModel (Some f) = Ok selection ->
  match readOptionalString (of_nullable requestedModel) with
  | Some requested =>
      resolveModelSelectionOrSingle userId (Some requested) = Ok selection
      /\ resolveQwenVoiceModelFamily (Some (modelId selection)) = Some f
  | None =>
      exists enabled model,
        getModelsByType userId = Ok enabled
        /\ model ∈ enabled
        /\ resolveQwenVoiceModelFamily (Some (enabled_modelId model)) = Some f
        /\ (forall other, other ∈ enabled ->
              resolveQwenVoiceModelFamily (Some (enabled_modelId other)) = Some f ->
              other = model)
        /\ resolveModelSelectionOrSingle userId (Some (enabled_modelKey model)) = Ok selection
  end.
Proof.
  unfold resolveAudioSelectionForVoice.
  destruct (readOptionalString (of_nullable requestedModel)) as [requested|].
  - destruct (resolveModelSelectionOrSingle userId (Some requested)) as [explicit|];
      [|done].
    destruct (assertVoiceFamilyMatchesSelection explicit (Some f)) eqn:Hassert; [done|].
    intros [= ->]. split; [done|].
    by apply assertVoiceFamilyMatchesSelection_returns in Hassert.
  - destruct (getModelsByType userId) as [enabled|]; [|done]. cbv zeta.
    destruct (filter _ enabled) as [|model [|another rest]] eqn:Hfilter; [done| |done].
    intros Hlift. exists enabled, model.
    destruct (filter_singleton _ _ _ Hfilter) as (Hin & Hfamily & Hunique).
    split; [done|]. split; [done|]. split; [done|]. split; [done|].
    unfold lift in Hlift.
    by destruct (resolveModelSelectionOrSingle userId (Some (enabled_modelKey model)));
      [injection Hlift as ->|].
Qed.

(** Without a requested model, the enabled models of the voice's family
    decide: none of them is an error, more than one is an error that asks
    for an explicit model, and the enabled models of other families play
    no part. *)
Theorem selection_by_enabled_models
    (userId : string) (requestedModel : option string) (f : QwenVoiceModelFamily)
    (enabled : list EnabledModel) :
  readOptionalString (of_nullable requestedModel) = None ->
  getModelsByType userId = Ok enabled ->
  let ofFamily :=
    filter (fun model => resolveQwenVoiceModelFamily (Some (enabled_modelId model)) = Some f)
           enabled in
  (length ofFamily = 0%nat -> Resolve userId requestedModel (Some f) = Raised (MODEL_NOT_CONFIGURED f))
  /\ ((2 <= length ofFamily)%nat ->
      Resolve userId requestedModel (Some f) = Raised (MODEL_SELECTION_REQUIRED f))
  /\ (forall model, ofFamily = [model] ->
      Resolve userId requestedModel (Some f)
      = lift (resolveModelSelectionOrSingle userId (Some (enabled_modelKey model)))).
Proof.
  intros Hrequested Henabled ofFamily.
  unfold resolveAudioSelectionForVoice. rewrite Hrequested, Henabled. cbv zeta.
  fold ofFamily. destruct ofFamily as [|model [|another rest]]; cbn [length].
  - split; [done|]. split; [lia|done].
  - split; [done|]. split; [lia|]. by intros ? [= <-].
  - split; [done|]. split; [done|]. done.
Qed.

(** A voice id that was encoded with a model of family [f] is refused
    with any requested model that is not of family [f]: the choice fails
    with [AUDIO_MODEL_UNSUPPORTED] or [AUDIO_MODEL_MISMATCH] and returns
    no selection. *)
Theorem designed_voice_needs_its_family
    (userId : string) (voice : string) (designModel : option string)
    (f : QwenVoiceModelFamily) (requested : string) (selection : ModelSelection)
    (parsed : parsed_voice_id) :
  trim voice <> EmptyString ->
  startsWith (trim voice) "vd:" = false ->
  startsWith (trim voice) "vc:" = false ->
  resolveQwenVoiceModelFamily designModel = Some f ->
  parseQwenVoiceId (Some (encodeQwenVoiceIdWithModel voice designModel)) = Some parsed ->
  trim requested <> EmptyString ->
  resolveModelSelectionOrSingle userId (Some (trim requested)) = Ok selection ->
  resolveQwenVoiceModelFamily (Some (modelId selection)) <> Some f ->
  Resolve userId (Some requested) (family parsed)
  = Raised (match resolveQwenVoiceModelFamily (Some (modelId selection)) with
            | None => AUDIO_MODEL_UNSUPPORTED (modelId selection)
            | Some _ => AUDIO_MODEL_MISMATCH f (modelId selection)
            end).
Proof.
  intros Hvoice Hvd Hvc Hdesign Hparsed Hrequested Hselection Hfamily.
  rewrite (QwenVoiceIdProperties.encode_prefixed voice designModel f) in Hparsed by done.
  rewrite QwenVoiceIdProperties.parse_prefixed in Hparsed by done.
  injection Hparsed as <-. cbn [family].
  unfold resolveAudioSelectionForVoice. cbn [of_nullable readOptionalString].
  rewrite decide_False by done. rewrite Hselection.
  unfold assertVoiceFamilyMatchesSelection.
  destruct (resolveQwenVoiceModelFamily (Some (modelId selection))) as [selected|];
    [|done].
  rewrite decide_True by congruence. done.
Qed.

End Selection.

(** An instance: no requested model, and one enabled model of the
    family. *)
Lemma selection_respects_family_witness :
  exists enabled model,
    sample_getModelsByType "u1" = Ok enabled
    /\ model ∈ enabled
    /\ resolveQwenVoiceModelFamily (Some (enabled_modelId model)) = Some vd
    /\ (forall other, other ∈ enabled ->
          resolveQwenVoiceModelFamily (Some (enabled_modelId other)) = Some vd ->
          other = model)
    /\ sample_resolveModelSelectionOrSingle "u1" (Some (enabled_modelKey model))
       = Ok {| provider := "qwen"; modelId := "qwen3-tts-vd-realtime";
               modelKey := "qwen::vd" |}.
Proof.
  apply (selection_respects_family unit
           sample_resolveModelSelectionOrSingle sample_getModelsByType
           "u1" None vd
           {| provider := "qwen"; modelId := "qwen3-tts-vd-realtime";
              modelKey := "qwen::vd" |}).
  vm_compute; reflexivity.
Defined.

(** An instance: two enabled models of the family. *)
Lemma selection_by_enabled_models_witness :
  resolveAudioSelectionForVoice sample_resolveModelSelectionOrSingle
    (fun _ => Ok [{| enabled_modelId := "qwen3-tts-vc"; enabled_modelKey := "a" |};
                  {| enabled_modelId := "qwen-tts"; enabled_modelKey := "b" |};
                  {| enabled_modelId := "QWEN3-TTS-VC-2"; enabled_modelKey := "c" |}])
    "u1" (Some "  ") (Some vc)
  = Raised (MODEL_SELECTION_REQUIRED vc).
Proof.
  apply (selection_by_enabled_models unit sample_resolveModelSelectionOrSingle
           (fun _ => Ok [{| enabled_modelId := "qwen3-tts-vc"; enabled_modelKey := "a" |};
                         {| enabled_modelId := "qwen-tts"; enabled_modelKey := "b" |};
                         {| enabled_modelId := "QWEN3-TTS-VC-2"; enabled_modelKey := "c" |}])
           "u1" (Some "  ") vc _ eq_refl eq_refl).
  vm_compute. lia.
Defined.

(** An instance: a voice designed for a [tts-vd] model, asked for with
    the [tts-vc] model. *)
Lemma designed_voice_needs_its_family_witness :
  resolveAudioSelectionForVoice sample_resolveModelSelectionOrSingle sample_getModelsByType
    "u1" (Some " qwen::vc ") (Some vd)
  = Raised (AUDIO_MODEL_MISMATCH vd "qwen3-tts-vc-realtime").
Proof.
  apply (designed_voice_needs_its_family unit
           sample_resolveModelSelectionOrSingle sample_getModelsByType
           "u1" " aurora " (Some "Qwen3-TTS-VD-Realtime") vd " qwen::vc "
           {| provider := "qwen"; modelId := "qwen3-tts-vc-realtime"; modelKey := "qwen::vc" |}
           {| voiceId := "aurora"; family := Some vd |});
    vm_compute; congruence.
Defined.

End AudioSelectionProperties.

(* ===================================================================== *)
(** * Properties of adding jobs and of the workers *)
(* ===================================================================== *)

Lemma lookup_set_property (key : string) (value : js_value)
    (properties : list (string * js_value)) (k : string) :
  lookup_property (set_property key value properties) k
  = if decide (key = k) then value else lookup_property properties k.
Proof.
  induction properties as [|[k0 v0] rest IH]; cbn [set_property lookup_property].
  - by case_decide.
  - destruct (decide (k0 = key)) as [->|Hne]; cbn [lookup_property].
    + by case_decide.
    + rewrite IH. repeat case_decide; congruence.
Qed.

Lemma lookup_property_absent (properties : list (string * js_value)) (k : string) :
  k ∉ properties.*1 -> lookup_property properties k = JUndefined.
Proof.
  induction properties as [|[k0 v0] rest IH]; [done|]. cbn. intros Hin.
  apply not_elem_of_cons in Hin as [Hne Hin]. rewrite decide_False by done. by apply IH.
Qed.

Lemma lookup_spread (target source : list (string * js_value)) (k : string) :
  NoDup source.*1 ->
  lookup_property (spread target source) k
  = if decide (k ∈ source.*1) then lookup_property source k else lookup_property target k.
Proof.
  unfold spread. revert target.
  induction source as [|[k0 v0] rest IH]; intros target Hdistinct.
  - cbn. by rewrite decide_False by apply not_elem_of_nil.
  - cbn [fold_left fmap list_fmap fst lookup_property] in *.
    apply NoDup_cons in Hdistinct as [Hfresh Hdistinct].
    rewrite (IH _ Hdistinct), lookup_set_property.
    destruct (decide (k0 = k)) as [->|Hne].
    + rewrite decide_False by done. rewrite decide_True by apply list_elem_of_here. done.
    + destruct (decide (k ∈ rest.*1)) as [Hin|Hout].
      * by rewrite decide_True by (by apply list_elem_of_further).
      * rewrite decide_False; [done|]. intros Hin.
        apply elem_of_cons in Hin as [?|?]; [congruence|done].
Qed.

Module TaskJobsProperties.
Import TaskQueues TaskJobs.

(** The options a job is added with: every own property of the caller's
    options is passed on as it is, [jobId] and a [priority] that is not a
    number among them; the task id as [jobId] and the priority 0 are used
    only for the properties the caller has left out. *)
Theorem job_options_defaults (taskId : string) (opts : option JobsOptions) (key : string) :
  NoDup (default [] opts).*1 ->
  lookup_property (job_options taskId opts) key
  = if decide (key ∈ (default [] opts).*1) then lookup_property (default [] opts) key
    else if decide (key = "jobId") then JString taskId
    else if decide (key = "priority") then JNumber 0
    else JUndefined.
Proof.
  intros Hdistinct. unfold job_options. cbv zeta. rewrite (lookup_spread _ _ _ Hdistinct).
  case_decide as Hin; [done|]. cbn [lookup_property get].
  destruct (decide (key = "jobId")) as [->|Hjob]; [by rewrite decide_True|].
  rewrite (decide_False (P := "jobId" = key)) by done.
  destruct (decide (key = "priority")) as [->|Hpriority].
  - rewrite decide_True by done. by rewrite (lookup_property_absent _ _ Hin).
  - by rewrite decide_False.
Qed.

(** An instance: options with a priority that is not a number. *)
Lemma job_options_defaults_witness :
  lookup_property (job_options "t1" (Some [("priority", JString "high")])) "priority"
  = JString "high"
  /\ lookup_property (job_options "t1" (Some [("priority", JString "high")])) "jobId"
     = JString "t1".
Proof.
  assert (Hdistinct : NoDup (default [] (Some [("priority", JString "high")])).*1).
  { apply (bool_decide_unpack _). vm_compute. exact I. }
  split.
  - by rewrite (job_options_defaults "t1" (Some [("priority", JString "high")])
                  "priority" Hdistinct).
  - by rewrite (job_options_defaults "t1" (Some [("priority", JString "high")])
                  "jobId" Hdistinct).
Defined.

Section WorkersProperties.
Context {TaskType : Type} `{Countable TaskType}.
Variable TASK_TYPE : TASK_TYPE_table TaskType.

(** A job that [addTaskJob] sends to the voice queue is one the voice
    worker has a handler for, and a job the voice worker has a handler for
    is sent to the voice queue; the same holds of the image queue and its
    worker. So neither worker meets a kind it does not support among the
    jobs that were added to its queue. *)
Theorem workers_support_their_queue (jobType : TaskType) (payload : js_value) :
  NoDup (named_task_types TASK_TYPE) ->
  (getQueueTypeByTaskType TASK_TYPE jobType = voice
   <-> processVoiceTask TASK_TYPE jobType <> None)
  /\ (getQueueTypeByTaskType TASK_TYPE jobType = image
      <-> processImageTask TASK_TYPE jobType payload <> None).
Proof.
  intros Hdistinct.
  destruct (TaskQueuesProperties.task_type_sets_disjoint TASK_TYPE Hdistinct jobType)
    as (_ & Himage_voice & Hvideo_voice).
  assert (Himage : jobType ∈ IMAGE_TYPES TASK_TYPE
                   <-> processImageTask TASK_TYPE jobType payload <> None).
  { unfold IMAGE_TYPES, processImageTask. rewrite elem_of_list_to_set.
    rewrite !elem_of_cons, elem_of_nil.
    repeat case_decide; try (split; [done|]; intros _; tauto).
    - split; [intros _|intros _; tauto]. cbv zeta.
      destruct (get _ "type"); try done. by case_decide.
    - split; [|done]. intros Hin.
      repeat (destruct Hin as [Hin|Hin]; [congruence|]). done. }
  assert (Hvoice : jobType ∈ VOICE_TYPES TASK_TYPE
                   <-> processVoiceTask TASK_TYPE jobType <> None).
  { unfold VOICE_TYPES, processVoiceTask. rewrite elem_of_list_to_set.
    rewrite !elem_of_cons, elem_of_nil.
    repeat case_decide; try (split; [done|]; intros _; tauto).
    split; [|done]. intros Hin.
    repeat (destruct Hin as [Hin|Hin]; [congruence|]). done. }
  rewrite <- Himage, <- Hvoice. unfold getQueueTypeByTaskType.
  repeat case_decide; split; split; try done; try tauto.
Qed.

End WorkersProperties.

Section JobsProperties.
Context {TaskType : Type} `{Countable TaskType}.
Variable TASK_TYPE : TASK_TYPE_table TaskType.
Variable TaskJobData : Type.
Variable type : TaskJobData -> TaskType.
Variable taskId : TaskJobData -> string.
Variable Queue_add :
  TaskType -> TaskJobData -> JobsOptions -> gmap string TaskJobData -> gmap string TaskJobData.

Local Abbreviation Add := (addTaskJob TASK_TYPE type taskId Queue_add).

(** A job that was added without a [jobId] of the caller's, under a task
    id that no queue held, is found by [removeTaskJob] in the queue of its
    kind and nowhere else, and removing it leaves the four queues as they
    were before it was added. The queues of the other kinds are not
    touched by the adding. *)
Theorem add_then_remove
    (data : TaskJobData) (opts : option JobsOptions) (qs : queues TaskJobData) :
  (forall name job options queue id,
     lookup_property options "jobId" = JString id ->
     queue !! id = None ->
     Queue_add name job options queue = <[id := job]> queue) ->
  NoDup (default [] opts).*1 ->
  "jobId" ∉ (default [] opts).*1 ->
  (forall queue, getQueueByType queue qs !! taskId data = None) ->
  let kind := getQueueTypeByTaskType TASK_TYPE (type data) in
  let removed := removeTaskJob (taskId data) (Add data opts qs) in
  getQueueByType kind (Add data opts qs) !! taskId data = Some data
  /\ (forall other, other <> kind ->
        getQueueByType other (Add data opts qs) = getQueueByType other qs)
  /\ returned removed = true
  /\ remaining removed = qs
  /\ (forall queue, JobRemove queue (taskId data) ∈ calls removed <-> queue = kind).
Proof.
  intros Hadd Hdistinct Hjob Hfree kind removed.
  assert (Hqueue : Add data opts qs
                   = set_queue kind (<[taskId data := data]> (getQueueByType kind qs)) qs).
  { unfold addTaskJob. cbv zeta. fold kind. f_equal. apply Hadd; [|done].
    unfold job_options. cbv zeta. rewrite (lookup_spread _ _ _ Hdistinct).
    rewrite decide_False by done. cbn [lookup_property]. by rewrite decide_True. }
  unfold removed. rewrite Hqueue. clear removed Hqueue.
  pose proof (Hfree image) as Himage. pose proof (Hfree video) as Hvideo.
  pose proof (Hfree voice) as Hvoice. pose proof (Hfree text) as Htext.
  destruct qs as [qi qv qo qt]. cbn [getQueueByType imageQueue videoQueue voiceQueue textQueue] in *.
  unfold removeTaskJob, ALL_QUEUES.
  destruct kind;
    cbn [removeTaskJob_from set_queue getQueueByType
         imageQueue videoQueue voiceQueue textQueue app];
    rewrite ?Himage, ?Hvideo, ?Hvoice, ?Htext, ?lookup_insert_eq;
    cbn [removeTaskJob_from set_queue getQueueByType
         imageQueue videoQueue voiceQueue textQueue app remaining returned calls];
    rewrite ?Himage, ?Hvideo, ?Hvoice, ?Htext, ?lookup_insert_eq;
    cbn [removeTaskJob_from set_queue getQueueByType
         imageQueue videoQueue voiceQueue textQueue app remaining returned calls];
    rewrite ?Himage, ?Hvideo, ?Hvoice, ?Htext, ?lookup_insert_eq;
    cbn [removeTaskJob_from set_queue getQueueByType
         imageQueue videoQueue voiceQueue textQueue app remaining returned calls];
    rewrite ?Himage, ?Hvideo, ?Hvoice, ?Htext, ?lookup_insert_eq;
    cbn [removeTaskJob_from set_queue getQueueByType
         imageQueue videoQueue voiceQueue textQueue app remaining returned calls];
    (split; [done|]);
    (split; [by intros [] ?|]);
    (split; [done|]);
    (split; [by rewrite delete_insert_id by done|]);
    intros queue; rewrite ?elem_of_cons, elem_of_nil;
    (split;
     [intros Hin; repeat (destruct Hin as [Hin|Hin]; [congruence|]); done
     |intros ->; tauto]).
Qed.

End JobsProperties.

(** An instance: a voice line is added to fresh queues and removed. *)
Lemma add_then_remove_witness :
  returned (removeTaskJob "t9" (sample_addTaskJob ("voice_line", "t9") None sample_job_queues))
  = true
  /\ remaining (removeTaskJob "t9"
                  (sample_addTaskJob ("voice_line", "t9") None sample_job_queues))
     = sample_job_queues.
Proof.
  destruct (add_then_remove sample_TASK_TYPE (string * string) fst snd sample_Queue_add
              ("voice_line", "t9") None sample_job_queues)
    as (_ & _ & Hreturned & Hremaining & _).
  - intros name job options queue id Hid Hfree. unfold sample_Queue_add.
    by rewrite Hid, Hfree.
  - apply NoDup_nil_2.
  - apply not_elem_of_nil.
  - intros []; reflexivity.
  - by split.
Defined.

(** An instance: the kinds of the voice and of the image worker. *)
Lemma workers_support_their_queue_witness :
  getQueueTypeByTaskType sample_TASK_TYPE "voice_design" = voice
  /\ getQueueTypeByTaskType sample_TASK_TYPE "regenerate_group" = image.
Proof.
  assert (Hdistinct : NoDup (named_task_types sample_TASK_TYPE)).
  { apply (bool_decide_unpack _). vm_compute. exact I. }
  split.
  - apply (workers_support_their_queue sample_TASK_TYPE "voice_design" JNull Hdistinct).
    vm_compute. congruence.
  - apply (workers_support_their_queue sample_TASK_TYPE "regenerate_group" JNull Hdistinct).
    vm_compute. congruence.
Defined.

End TaskJobsProperties.

(* ===================================================================== *)
(** * Properties of the handlers of the voice worker *)
(* ===================================================================== *)

Module VoiceWorkerProperties.
Import QwenVoiceId AudioSelection VoiceWorker.

Lemma length_not_empty (s : string) : s <> EmptyString -> (1 <= String.length s)%nat.
Proof. destruct s; [done|]. cbn. lia. Qed.

(** The ids a voice line task reads. A string in the payload always wins
    over the job's own id, the empty string too, so a payload with an
    empty [lineId] fails the task whatever [targetId] is; a request that
    is passed on carries ids that are not empty and an audio model that is
    trimmed and not blank, or none. A missing line id is reported before a
    missing episode id: the task fails for the line id exactly when the
    line id it reads is empty or missing, whatever the episode id is, and
    for the episode id exactly when the line id is there and the episode
    id it reads is empty or missing. *)
Theorem voice_line_task_ids (payload targetId episodeId : js_value) :
  let task := handleVoiceLineTask payload targetId episodeId in
  (forall request,
     task = Ok request ->
     truthy (request_lineId request) = true
     /\ truthy (request_episodeId request) = true
     /\ (forall model, request_audioModel request = Some model ->
           model <> EmptyString /\ trim model = model))
  /\ (forall lineId,
        get (payload_or_empty payload) "lineId" = JString lineId ->
        (lineId = EmptyString -> task = Raised VOICE_LINE_MISSING_LINE_ID)
        /\ (forall request, task = Ok request -> request_lineId request = JString lineId))
  /\ (forall request,
        task = Ok request ->
        (forall lineId, get (payload_or_empty payload) "lineId" <> JString lineId) ->
        request_lineId request = targetId)
  /\ (task = Raised VOICE_LINE_MISSING_LINE_ID
      <-> get (payload_or_empty payload) "lineId" = JString EmptyString
          \/ ((forall lineId, get (payload_or_empty payload) "lineId" <> JString lineId)
              /\ truthy targetId = false))
  /\ (task = Raised VOICE_LINE_MISSING_EPISODE_ID
      <-> ((exists lineId, get (payload_or_empty payload) "lineId" = JString lineId
                           /\ lineId <> EmptyString)
           \/ ((forall lineId, get (payload_or_empty payload) "lineId" <> JString lineId)
               /\ truthy targetId = true))
          /\ (get (payload_or_empty payload) "episodeId" = JString EmptyString
              \/ ((forall id, get (payload_or_empty payload) "episodeId" <> JString id)
                  /\ truthy episodeId = false))).
Proof.
  intros task. unfold task, handleVoiceLineTask. cbv zeta.
  set (p := payload_or_empty payload).
  assert (Hread : forall (key : string) (own : js_value),
            let read := match get p key with JString s => JString s | _ => own end in
            (truthy read = false
             <-> get p key = JString EmptyString
                 \/ ((forall s, get p key <> JString s) /\ truthy own = false))
            /\ (truthy read = true
                <-> (exists s, get p key = JString s /\ s <> EmptyString)
                    \/ ((forall s, get p key <> JString s) /\ truthy own = true))).
  { intros key own read. unfold read.
    destruct (get p key) as [| |b|q|s|items|properties];
      try (split; split;
           [intros Hown; right; by split
           |by intros [Hstring|[_ Hown]]
           |intros Hown; right; by split
           |by intros [(s & Hstring & _)|[_ Hown]]]).
    cbn [truthy]. destruct (decide (s = EmptyString)) as [->|Hne].
    - rewrite bool_decide_eq_true_2 by done. cbn [negb]. split; split; try done.
      + intros _. by left.
      + intros [(s & [= <-] & Hne)|[Hno _]]; [done|by destruct (Hno EmptyString)].
    - rewrite bool_decide_eq_false_2 by done. cbn [negb]. split; split; try done.
      + intros [[= ->]|[Hno _]]; [done|by destruct (Hno s)].
      + intros _. left. by exists s. }
  destruct (Hread "lineId" targetId) as [Hline_missing Hline_there].
  destruct (Hread "episodeId" episodeId) as [Hepisode_missing _].
  cbv zeta in Hline_missing, Hline_there, Hepisode_missing.
  set (lineId := match get p "lineId" with JString s => JString s | _ => targetId end) in *.
  set (episode := match get p "episodeId" with JString s => JString s | _ => episodeId end) in *.
  split; [|split; [|split; [|split]]].
  - intros request.
    destruct (truthy lineId) eqn:Hline; cbn [negb]; [|done].
    destruct (truthy episode) eqn:Hepisode; cbn [negb]; [|done].
    intros [= <-]. cbn [request_lineId request_episodeId request_audioModel].
    split; [done|]. split; [done|].
    intros model. destruct (get p "audioModel"); try done.
    case_decide as Hblank; [done|]. intros [= <-]. split; [done|apply trim_idempotent].
  - intros s Hs. subst lineId. rewrite Hs. split.
    + intros ->. done.
    + intros request.
      destruct (truthy (JString s)); cbn [negb]; [|done].
      destruct (truthy episode); cbn [negb]; [|done].
      by intros [= <-].
  - intros request Hrequest Hno.
    assert (Hline : lineId = targetId).
    { subst lineId. destruct (get p "lineId"); try done. by destruct (Hno s). }
    rewrite Hline in Hrequest.
    destruct (truthy targetId); cbn [negb] in Hrequest; [|done].
    destruct (truthy episode); cbn [negb] in Hrequest; [|done].
    by injection Hrequest as <-.
  - rewrite <- Hline_missing.
    destruct (truthy lineId); cbn [negb]; [|done].
    by destruct (truthy episode).
  - rewrite <- Hline_there, <- Hepisode_missing.
    destruct (truthy lineId); cbn [negb]; [|by split; [|intros [? _]]].
    destruct (truthy episode); cbn [negb]; [by split; [|intros [_ ?]]|done].
Qed.

Lemma readRequiredString_ok (value : js_value) (field text : string) :
  readRequiredString value field = Ok text ->
  text <> EmptyString /\ trim text = text.
Proof.
  destruct value; cbn; try done. case_decide; [done|]. intros [= <-].
  split; [done|apply trim_idempotent].
Qed.

Lemma readRequiredString_raised (value : js_value) (field : string)
    (error : voice_design_error) :
  readRequiredString value field = Raised error -> error = FIELD_REQUIRED field.
Proof. destruct value; cbn; try case_decide; congruence. Qed.

Lemma validateVoicePrompt_trimmed (prompt : string) :
  prompt <> EmptyString -> trim prompt = prompt ->
  validateVoicePrompt prompt
  = if decide (500 < String.length prompt)%nat
    then {| valid := false; error := Some VOICE_PROMPT_TOO_LONG |}
    else {| valid := true; error := None |}.
Proof.
  intros Hne Htrimmed. pose proof (length_not_empty _ Hne) as Hlength.
  unfold validateVoicePrompt. rewrite Htrimmed.
  by rewrite !bool_decide_eq_false_2 by (done || lia).
Qed.

Lemma validatePreviewText_trimmed (preview : string) :
  preview <> EmptyString -> trim preview = preview ->
  validatePreviewText preview
  = if decide (String.length preview < 5)%nat
    then {| valid := false; error := Some PREVIEW_TEXT_TOO_SHORT |}
    else if decide (200 < String.length preview)%nat
    then {| valid := false; error := Some PREVIEW_TEXT_TOO_LONG |}
    else {| valid := true; error := None |}.
Proof.
  intros Hne Htrimmed. pose proof (length_not_empty _ Hne) as Hlength.
  unfold validatePreviewText. rewrite Htrimmed.
  by rewrite !bool_decide_eq_false_2 by (done || lia).
Qed.

(** What the design handler accepts, and how it fails. An accepted
    prompt is trimmed and has 1 to 500 characters, an accepted preview
    text is trimmed and has 5 to 200 characters (white space around them
    does not count), the preferred name is not empty. The handler fails
    for a missing field or a length out of range; the [empty] messages of
    the two validators are never raised here, because the texts they see
    have been read as required strings. *)
Theorem voice_design_input_checked (payload : js_value) :
  match handleVoiceDesignTask_input payload with
  | Ok input =>
      trim (voicePrompt input) = voicePrompt input
      /\ (1 <= String.length (voicePrompt input) <= 500)%nat
      /\ trim (previewText input) = previewText input
      /\ (5 <= String.length (previewText input) <= 200)%nat
      /\ valid (validateVoicePrompt (voicePrompt input)) = true
      /\ valid (validatePreviewText (previewText input)) = true
      /\ preferredName input <> EmptyString
      /\ (forall model, audioModel input = Some model -> model <> EmptyString)
  | Raised error =>
      error = FIELD_REQUIRED "voicePrompt"
      \/ error = FIELD_REQUIRED "previewText"
      \/ error = VALIDATION VOICE_PROMPT_TOO_LONG
      \/ error = VALIDATION PREVIEW_TEXT_TOO_SHORT
      \/ error = VALIDATION PREVIEW_TEXT_TOO_LONG
  end.
Proof.
  unfold handleVoiceDesignTask_input. cbv zeta.
  set (p := payload_or_empty payload).
  destruct (readRequiredString (get p "voicePrompt") "voicePrompt")
    as [prompt|error] eqn:Hprompt;
    [|left; by apply readRequiredString_raised in Hprompt].
  destruct (readRequiredString (get p "previewText") "previewText")
    as [preview|error] eqn:Hpreview;
    [|right; left; by apply readRequiredString_raised in Hpreview].
  apply readRequiredString_ok in Hprompt as [Hprompt Hprompt_trimmed].
  apply readRequiredString_ok in Hpreview as [Hpreview Hpreview_trimmed].
  pose proof (length_not_empty _ Hprompt) as Hprompt_length.
  pose proof (length_not_empty _ Hpreview) as Hpreview_length.
  rewrite !(validateVoicePrompt_trimmed prompt), !(validatePreviewText_trimmed preview)
    by done.
  destruct (decide (500 < String.length prompt)%nat) as [Hlong|Hlong];
    cbn [valid error negb]; [right; right; by left|].
  destruct (decide (String.length preview < 5)%nat) as [Hshort|Hshort];
    cbn [valid error negb]; [right; right; right; by left|].
  destruct (decide (200 < String.length preview)%nat) as [Htoolong|Htoolong];
    cbn [valid error negb]; [by repeat right|].
  cbn [voicePrompt previewText preferredName audioModel].
  rewrite !(validateVoicePrompt_trimmed prompt), !(validatePreviewText_trimmed preview)
    by done.
  rewrite (decide_False (P := (500 < String.length prompt)%nat)) by done.
  rewrite (decide_False (P := (String.length preview < 5)%nat)) by done.
  rewrite (decide_False (P := (200 < String.length preview)%nat)) by done.
  cbn [valid].
  split; [done|]. split; [lia|]. split; [done|]. split; [lia|].
  split; [done|]. split; [done|]. split.
  - destruct (get p "preferredName"); try done. by case_decide.
  - intros model. unfold readOptionalModelKey.
    destruct (get p "audioModel"); try done. cbv zeta. case_decide; [done|].
    by intros [= <-].
Qed.

(** The voice id a design task returns refers to the model the design
    service reports, and to the selected model only when it reports none:
    for a new voice without a family prefix and a model of family [f], the
    returned id parses back to the trimmed voice and the family [f]. *)
Theorem designed_voice_carries_target_family
    (voice : string) (designed_targetModel : js_value) (selection : ModelSelection)
    (f : QwenVoiceModelFamily) :
  trim voice <> EmptyString ->
  startsWith (trim voice) "vd:" = false ->
  startsWith (trim voice) "vc:" = false ->
  resolveQwenVoiceModelFamily (Some (resolvedTargetModel designed_targetModel selection))
  = Some f ->
  (forall reported, designed_targetModel = JString reported ->
     trim reported <> EmptyString ->
     resolvedTargetModel designed_targetModel selection = trim reported)
  /\ exists encoded,
       normalizedVoiceId (JString voice) designed_targetModel selection = JString encoded
       /\ parseQwenVoiceId (Some encoded) = Some {| voiceId := trim voice; family := Some f |}.
Proof.
  intros Hvoice Hvd Hvc Hfamily. split.
  - intros reported -> Hreported. cbn. by rewrite decide_False.
  - cbn [normalizedVoiceId]. rewrite decide_False by done. eexists. split; [done|].
    rewrite (QwenVoiceIdProperties.encode_prefixed voice _ f) by done.
    by apply QwenVoiceIdProperties.parse_prefixed.
Qed.

(** An instance: the service reports a [tts-vc] model for a new voice. *)
Lemma designed_voice_carries_target_family_witness :
  exists encoded,
    normalizedVoiceId (JString " nova ") (JString "qwen3-tts-vc-realtime ")
      {| provider := "qwen"; modelId := "qwen3-tts-vd-realtime"; modelKey := "qwen::vd" |}
    = JString encoded
    /\ parseQwenVoiceId (Some encoded) = Some {| voiceId := "nova"; family := Some vc |}.
Proof.
  apply (designed_voice_carries_target_family " nova " (JString "qwen3-tts-vc-realtime ")
           {| provider := "qwen"; modelId := "qwen3-tts-vd-realtime";
              modelKey := "qwen::vd" |} vc);
    vm_compute; congruence.
Defined.

End VoiceWorkerProperties.
